(** * vuddy / codeparser: a shallow embedding and its verified properties

    The development follows the layout of the Python package:
    - [provider_re]   : the regular-expression comment stripper,
    - [provider_tst]  : the grammar registry, queries, captures, scopes and
                        the depth-first traversal,
    - [codeparser]    : comment removal on the tree, the function model
                        [Func], the extraction of functions and the
                        abstraction engine [abstract_func_clike],
    - [vuddy_util]    : the rewriting of names and paths.
    [Samples] holds syntax trees of small C texts, [Notions] the vocabulary
    of the statements, and the remaining modules the proofs.

    Python values are modelled as follows: [bytes] is a list of [byte],
    [str] is a list of Unicode code points, a [dict] is a [gmap], an
    exception is a constructor of [exn] carried by [result]. The
    tree-sitter library (parser and query engine) and the two files of
    known function names are parameters: the classes [TreeSitter] and
    [KnownSymbols]. *)

From Stdlib Require Import ZArith NArith Lia Bool Ascii String.
From Stdlib.Strings Require Import Byte.
From Stdlib Require Import DecimalString DecimalNat.
From stdpp Require Import base option list gmap strings.

Local Open Scope string_scope.
Local Open Scope list_scope.

(* ===================================================================== *)
(** * Python values                                                       *)
(* ===================================================================== *)

#[global] Instance byte_eq_dec : EqDecision byte := Byte.byte_eq_dec.

#[global] Program Instance byte_countable : Countable byte :=
  inj_countable Byte.to_nat Byte.of_nat _.
Next Obligation. exact Byte.of_to_nat. Qed.

Module Py.

Abbreviation bytes := (list byte).

(** A Python [str]: a sequence of Unicode code points. *)
Abbreviation str := (list N).

(** A bytes literal, written as a string of 8-bit characters. *)
Definition b (s : string) : bytes := list_byte_of_string s.

(** A [str] literal, for texts made of code points below 256. *)
Definition u (s : string) : str := map N_of_ascii (list_ascii_of_string s).

Inductive exn : Type :=
| ParseLangNotSupportError (lang : string)
| KeyError (key : string)
| AttributeError
| NotImplementedError
| UnicodeDecodeError
| UnicodeEncodeError.

Inductive result (A : Type) : Type :=
| Ok (a : A)
| Raise (e : exn).
Arguments Ok {A} a.
Arguments Raise {A} e.

Definition bind {A B} (r : result A) (k : A -> result B) : result B :=
  match r with
  | Ok a => k a
  | Raise e => Raise e
  end.

#[global] Instance result_bind : MBind result := λ A B k r, bind r k.
#[global] Instance result_ret : MRet result := @Ok.

(** [s[lo:hi]] for non-negative bounds: empty when [hi <= lo], cut at the
    end of [s]. *)
Definition slice {A} (s : list A) (lo hi : nat) : list A :=
  firstn (hi - lo) (skipn lo s).

(** [s.startswith(p)] *)
Fixpoint startswith (s p : bytes) : bool :=
  match p, s with
  | [], _ => true
  | _ :: _, [] => false
  | x :: p', y :: s' => Byte.eqb x y && startswith s' p'
  end.

(** [sub in s] on strings. *)
Fixpoint contains (sub s : string) : bool :=
  String.prefix sub s ||
  match s with
  | EmptyString => false
  | String _ s' => contains sub s'
  end.

(** [s.count(b"\n")] *)
Definition count_nl (s : bytes) : nat :=
  length (filter (fun c => c = x0a) s).

(** [f"{n}"] for a non-negative integer. *)
Definition str_of_nat (n : nat) : string :=
  NilEmpty.string_of_uint (Nat.to_uint n).

(** ** UTF-8, as [bytes.decode] and [str.encode] implement it *)

(** The [errors=] argument of [bytes.decode]. *)
Inductive errors : Type := Strict | Ignore | Replace.

Definition REPLACEMENT_CHARACTER : N := 0xFFFD.

(** What the error handler does with an undecodable span once the
    decoder has resynchronised after it; [k] is the decoding of what
    follows the span. *)
Definition on_error (e : errors) (k : result str) : result str :=
  match e with
  | Strict => Raise UnicodeDecodeError
  | Ignore => k
  | Replace => r ← k; Ok (REPLACEMENT_CHARACTER :: r)
  end.

Definition emit (ch : N) (k : result str) : result str :=
  r ← k; Ok (ch :: r).

Definition is_continuation (ch : N) : bool :=
  (0x80 <=? ch)%N && (ch <? 0xC0)%N.

(** [bs.decode("utf-8", errors=e)]. An undecodable span is one byte for
    an invalid start byte, the valid prefix of the sequence for an
    invalid continuation byte, and the rest of the input for a sequence
    cut by the end of the data. *)
Fixpoint utf8_decode (e : errors) (s : bytes) : result str :=
  match s with
  | [] => Ok []
  | c1 :: s1 =>
    let ch := Byte.to_N c1 in
    if (ch <? 0x80)%N then emit ch (utf8_decode e s1)
    else if (ch <? 0xC2)%N then on_error e (utf8_decode e s1)
    else if (ch <? 0xE0)%N then
      match s1 with
      | [] => on_error e (Ok [])
      | c2 :: s2 =>
        let ch2 := Byte.to_N c2 in
        if negb (is_continuation ch2) then on_error e (utf8_decode e s1)
        else emit (ch * 64 + ch2 - (0xC0 * 64 + 0x80))%N (utf8_decode e s2)
      end
    else if (ch <? 0xF0)%N then
      match s1 with
      | [] => on_error e (Ok [])
      | c2 :: s2 =>
        let ch2 := Byte.to_N c2 in
        if negb (is_continuation ch2)
           || (if (ch2 <? 0xA0)%N then (ch =? 0xE0)%N else (ch =? 0xED)%N)
        then on_error e (utf8_decode e s1)
        else
          match s2 with
          | [] => on_error e (Ok [])
          | c3 :: s3 =>
            let ch3 := Byte.to_N c3 in
            if negb (is_continuation ch3) then on_error e (utf8_decode e s2)
            else emit (ch * 4096 + ch2 * 64 + ch3
                       - (0xE0 * 4096 + 0x80 * 64 + 0x80))%N
                      (utf8_decode e s3)
          end
      end
    else if (ch <? 0xF5)%N then
      match s1 with
      | [] => on_error e (Ok [])
      | c2 :: s2 =>
        let ch2 := Byte.to_N c2 in
        if negb (is_continuation ch2)
           || (if (ch2 <? 0x90)%N then (ch =? 0xF0)%N else (ch =? 0xF4)%N)
        then on_error e (utf8_decode e s1)
        else
          match s2 with
          | [] => on_error e (Ok [])
          | c3 :: s3 =>
            let ch3 := Byte.to_N c3 in
            if negb (is_continuation ch3) then on_error e (utf8_decode e s2)
            else
              match s3 with
              | [] => on_error e (Ok [])
              | c4 :: s4 =>
                let ch4 := Byte.to_N c4 in
                if negb (is_continuation ch4)
                then on_error e (utf8_decode e s3)
                else emit (ch * 262144 + ch2 * 4096 + ch3 * 64 + ch4
                           - (0xF0 * 262144 + 0x80 * 4096 + 0x80 * 64 + 0x80))%N
                          (utf8_decode e s4)
              end
          end
      end
    else on_error e (utf8_decode e s1)
  end.

Definition byte_of_N (n : N) : byte := default x00 (Byte.of_N n).

(** [s.encode()]: strict UTF-8; a lone surrogate cannot be encoded. *)
Fixpoint utf8_encode (s : str) : result bytes :=
  match s with
  | [] => Ok []
  | ch :: s' =>
    if (ch <? 0x80)%N then
      r ← utf8_encode s'; Ok (byte_of_N ch :: r)
    else if (ch <? 0x800)%N then
      r ← utf8_encode s';
      Ok (byte_of_N (0xC0 + ch / 64) :: byte_of_N (0x80 + ch mod 64) :: r)
    else if ((0xD800 <=? ch) && (ch <? 0xE000))%N || (0x110000 <=? ch)%N then
      Raise UnicodeEncodeError
    else if (ch <? 0x10000)%N then
      r ← utf8_encode s';
      Ok (byte_of_N (0xE0 + ch / 4096) :: byte_of_N (0x80 + (ch / 64) mod 64)
          :: byte_of_N (0x80 + ch mod 64) :: r)
    else
      r ← utf8_encode s';
      Ok (byte_of_N (0xF0 + ch / 262144)
          :: byte_of_N (0x80 + (ch / 4096) mod 64)
          :: byte_of_N (0x80 + (ch / 64) mod 64)
          :: byte_of_N (0x80 + ch mod 64) :: r)
  end.

(** The characters the pattern [\s] matches in a [str]. *)
Definition isspace (c : N) : bool :=
  ((9 <=? c) && (c <=? 13) || (28 <=? c) && (c <=? 32)
   || (c =? 0x85) || (c =? 0xA0) || (c =? 0x1680)
   || (0x2000 <=? c) && (c <=? 0x200A)
   || (c =? 0x2028) || (c =? 0x2029) || (c =? 0x202F)
   || (c =? 0x205F) || (c =? 0x3000))%N.

(** ** Text helpers *)

(** The two characters the line splitter looks for, in [bytes] and in
    [str]. *)
Class Newlines (A : Type) : Type := { CR : A; LF : A }.
#[global] Instance byte_newlines : Newlines byte := {| CR := x0d; LF := x0a |}.
#[global] Instance N_newlines : Newlines N := {| CR := 13%N; LF := 10%N |}.

(** [s.replace(old, new)] for [old] of one character. *)
Definition replace_char {A} `{EqDecision A} (old : A) (new s : list A)
  : list A :=
  flat_map (λ c, if decide (c = old) then new else [c]) s.

(** [s.rstrip()]: the text without the white space at its end. *)
Fixpoint rstrip (s : str) : str :=
  match s with
  | [] => []
  | c :: s' =>
    match rstrip s' with
    | [] => if isspace c then [] else [c]
    | r => c :: r
    end
  end.

(** [sep.join(parts)] *)
Fixpoint join {A} (sep : list A) (parts : list (list A)) : list A :=
  match parts with
  | [] => []
  | p :: rest =>
    match rest with
    | [] => p
    | _ :: _ => p ++ sep ++ join sep rest
    end
  end.

(** [s.encode("utf-8", errors=e)]: a character that cannot be encoded is
    an error under [Strict], is left out under [Ignore] and becomes [?]
    under [Replace]. *)
Fixpoint utf8_encode_with (e : errors) (s : str) : result bytes :=
  match s with
  | [] => Ok []
  | ch :: s' =>
    if (ch <? 0x80)%N then
      r ← utf8_encode_with e s'; Ok (byte_of_N ch :: r)
    else if (ch <? 0x800)%N then
      r ← utf8_encode_with e s';
      Ok (byte_of_N (0xC0 + ch / 64) :: byte_of_N (0x80 + ch mod 64) :: r)
    else if ((0xD800 <=? ch) && (ch <? 0xE000))%N || (0x110000 <=? ch)%N then
      match e with
      | Strict => Raise UnicodeEncodeError
      | Ignore => utf8_encode_with e s'
      | Replace => r ← utf8_encode_with e s'; Ok (x3f :: r)
      end
    else if (ch <? 0x10000)%N then
      r ← utf8_encode_with e s';
      Ok (byte_of_N (0xE0 + ch / 4096) :: byte_of_N (0x80 + (ch / 64) mod 64)
          :: byte_of_N (0x80 + ch mod 64) :: r)
    else
      r ← utf8_encode_with e s';
      Ok (byte_of_N (0xF0 + ch / 262144)
          :: byte_of_N (0x80 + (ch / 4096) mod 64)
          :: byte_of_N (0x80 + (ch / 64) mod 64)
          :: byte_of_N (0x80 + ch mod 64) :: r)
  end.

End Py.
Import Py.


(* ===================================================================== *)
(** * provider_re.py                                                      *)
(* ===================================================================== *)

Module provider_re.

Local Open Scope N_scope.

Definition SLASH : N := 47.
Definition STAR : N := 42.
Definition BACKSLASH : N := 92.
Definition QUOTE : N := 39.
Definition DQUOTE : N := 34.
Definition NEWLINE : N := 10.
Definition SPACE : N := 32.

(** [.*?$] under [DOTALL | MULTILINE]: the characters up to the first
    position that is the end of the text or stands before a newline. *)
Fixpoint line_len (s : str) : nat :=
  match s with
  | [] => O
  | c :: s' => if c =? NEWLINE then O else S (line_len s')
  end.

(** [.*?\*/]: the length up to and including the first [*/], when
    there is one. *)
Fixpoint block_len (s : str) : option nat :=
  match s with
  | [] => None
  | c :: s' =>
    if (c =? STAR) && match s' with d :: _ => d =? SLASH | [] => false end
    then Some 2%nat
    else S <$> block_len s'
  end.

(** [(?:\\.|[^\\q])*q]: the length of the body and the closing
    quote [q]; a backslash takes the next character with it. *)
Fixpoint quoted_len (q : N) (s : str) : option nat :=
  match s with
  | [] => None
  | c :: s' =>
    if c =? q then Some 1%nat
    else if c =? BACKSLASH then
      match s' with
      | [] => None
      | _ :: s'' => (fun n => S (S n)) <$> quoted_len q s''
      end
    else S <$> quoted_len q s'
  end.

(** [RX_CLIKE_COMMENT.match] at the head of [s]: the length of the
    match, the alternatives tried in the order of the pattern. *)
Definition rx_match (s : str) : option nat :=
  match s with
  | [] => None
  | c :: s1 =>
    if c =? SLASH then
      match s1 with
      | [] => None
      | d :: s2 =>
        if d =? SLASH then Some (2 + line_len s2)%nat
        else if d =? STAR then (fun n => (2 + n)%nat) <$> block_len s2
        else None
      end
    else if (c =? QUOTE) || (c =? DQUOTE) then S <$> quoted_len c s1
    else None
  end.

(** [__replacer] *)
Definition replacer (m : str) : str :=
  match m with
  | c :: _ => if c =? SLASH then [SPACE] else m
  | [] => m
  end.

(** [re.sub(RX_CLIKE_COMMENT, __replacer, s)]: the leftmost match is
    replaced and the scan resumes behind it; a character where no match
    starts is copied. Every match is at least two characters long, so
    [length s] steps are enough. *)
Fixpoint re_sub (fuel : nat) (s : str) : str :=
  match fuel with
  | O => s
  | S fuel' =>
    match s with
    | [] => []
    | c :: s' =>
      match rx_match s with
      | Some n => replacer (firstn n s) ++ re_sub fuel' (skipn n s)
      | None => c :: re_sub fuel' s'
      end
    end
  end.

Definition remove_comments_regex (code : str) : str :=
  re_sub (length code) code.

End provider_re.

(* ===================================================================== *)
(** * provider_tst.py                                                     *)
(* ===================================================================== *)

Module provider_tst.

(** ** Syntax trees *)

(** A node of a syntax tree: its type tag, its byte range
    [[start_byte, end_byte)], the field of its parent it fills (if any)
    and its children in document order. *)
#[local] Unset Elimination Schemes.
Inductive Node : Type :=
  mkNode { type : string;
           start_byte : nat;
           end_byte : nat;
           field_name : option string;
           children : list Node }.
#[local] Set Elimination Schemes.

(** A node as the program holds it: together with the text it was parsed
    from and the chain of its ancestors, nearest first, each with the
    index of the child the chain passes through. *)
Record NodeRef : Type :=
  mkRef { src : bytes; node : Node; up : list (nat * Node) }.

(** [n.text] *)
Definition text (n : NodeRef) : bytes :=
  slice (src n) (start_byte (node n)) (end_byte (node n)).

(** [n.parent] *)
Definition parent (n : NodeRef) : option NodeRef :=
  match up n with
  | [] => None
  | (_, p) :: rest => Some (mkRef (src n) p rest)
  end.

Definition child_ref (n : NodeRef) (i : nat) (c : Node) : NodeRef :=
  mkRef (src n) c ((i, node n) :: up n).

(** [n.children] *)
Definition children_refs (n : NodeRef) : list NodeRef :=
  imap (child_ref n) (children (node n)).

(** [n.child_by_field_name(name)]: the first child in that field. *)
Definition child_by_field_name (n : NodeRef) (name : string)
  : option NodeRef :=
  snd <$> list_find (λ c, field_name (node c) = Some name) (children_refs n).

(** [a == b] on nodes of one tree: the same position in the tree. *)
Definition node_eqb (a b : NodeRef) : bool :=
  bool_decide ((up a).*1 = (up b).*1).

Definition root_ref (code : bytes) (root : Node) : NodeRef :=
  mkRef code root [].

(** ** The grammar library *)

Inductive Language : Type :=
| tree_sitter_c | tree_sitter_cpp | tree_sitter_java.

Record Parser : Type := { language : Language }.
Record Query : Type := { query_language : Language; pattern : string }.

(** The operations of the tree-sitter library the package calls:
    [Parser.parse], giving the root node of the tree, and
    [Query.captures], giving the captured nodes with their capture
    names, in document order. *)
Class TreeSitter : Type :=
  { ts_parse : Language -> bytes -> Node;
    ts_captures : Query -> NodeRef -> list (NodeRef * string) }.

(** ** Grammar registry *)

Definition lang_mapping : gmap string Language :=
  {[ "C" := tree_sitter_c; "C++" := tree_sitter_cpp;
     "Java" := tree_sitter_java ]}.

(** [lang_mapping[lang]] raises [KeyError] for an absent key. *)
Definition get_language (lang : string) : result Language :=
  match lang_mapping !! lang with
  | Some l => Ok l
  | None => Raise (KeyError lang)
  end.

Definition get_parser (lang : string) : result Parser :=
  l ← get_language lang; Ok {| language := l |}.

Definition get_query (lang : string) (query : string) : result Query :=
  l ← get_language lang; Ok {| query_language := l; pattern := query |}.

Definition captures {TS : TreeSitter} (lang query : string) (n : NodeRef)
  : result (list (NodeRef * string)) :=
  q ← get_query lang query; Ok (ts_captures q n).

Definition CLASS_QUERY : gmap string string :=
  {[ "C++" := "(class_specifier) @class (struct_specifier) @class" ]}.

Definition FUNCTION_DECL_CAPTURES : gmap string string :=
  {[ "C" := "(function_declarator declarator: _ @ret)";
     "C++" := "(function_declarator declarator: _ @ret)
              (function_definition declarator: (operator_cast) @ret)
              (function_definition declarator: (qualified_identifier name: (operator_cast) @ret))";
     "Java" := "(method_declaration name: _ @ret) (constructor_declaration name: _ @ret)" ]}.

Definition FUNCTION_DEFINITION_CAPTURES : gmap string string :=
  {[ "C" := "(function_definition) @ret";
     "C++" := "(function_definition) @ret";
     "Java" := "(method_declaration) @ret (constructor_declaration) @ret" ]}.

Definition CLIKE_RESERVED_KEYWORDS : list string :=
  [ "auto"; "break"; "case"; "char"; "const"; "continue"; "default"; "do";
    "double"; "else"; "enum"; "extern"; "float"; "for"; "goto"; "if";
    "int"; "long"; "register"; "return"; "short"; "signed"; "sizeof";
    "static"; "struct"; "switch"; "typedef"; "union"; "unsigned"; "void";
    "volatile"; "while"; "_Alignas"; "_Alignof"; "_Atomic"; "_Bool";
    "_Complex"; "_Generic"; "_Imaginary"; "_Noreturn"; "_Static_assert";
    "_Thread_local"; "inline"; "__inline"; "__inline__"; "__attribute__";
    "__asm__" ].

Definition CLIKE_BAD_FUNCNAME : list str := u <$> CLIKE_RESERVED_KEYWORDS.

(** ** Captures *)

Definition capture_class {TS : TreeSitter} (n : NodeRef) (lang : string)
  : result (list NodeRef) :=
  match CLASS_QUERY !! lang with
  | None => Raise (ParseLangNotSupportError lang)
  | Some capture => cs ← captures lang capture n; Ok (cs.*1)
  end.

(** The test of the first filter: [n] lies strictly inside [x]. *)
Definition inside (n x : NodeRef) : bool :=
  (start_byte (node x) <? start_byte (node n))%nat
  && (end_byte (node n) <? end_byte (node x))%nat.

Definition CONTROL_KEYWORDS : list bytes :=
  b <$> [ "else"; "if"; "for"; "while"; "do"; "switch"; "case"; "default" ].

Definition capture_function_definitions {TS : TreeSitter}
    (n : NodeRef) (lang : string) : result (list NodeRef) :=
  match FUNCTION_DEFINITION_CAPTURES !! lang with
  | None => Raise (ParseLangNotSupportError lang)
  | Some capture =>
    cs ← captures lang capture n;
    let node := cs.*1 in
    (* remove node that inside another nodes *)
    let node := List.filter (λ n, negb (existsb (inside n) node)) node in
    (* validate *)
    let node :=
      List.filter (λ n, negb (existsb (startswith (text n)) CONTROL_KEYWORDS))
                  node in
    Ok node
  end.

(** The loop of [capture_function_name]: from a qualified identifier go
    down to its [name] field as long as there is one. *)
Fixpoint unqualify (code : bytes) (anc : list (nat * Node)) (n : Node)
  {struct n} : option NodeRef :=
  match n with
  | mkNode ty _ _ _ cs =>
    if String.eqb ty "qualified_identifier" then
      (fix find (i : nat) (cs : list Node) {struct cs} : option NodeRef :=
         match cs with
         | [] => None
         | c :: cs' =>
           if bool_decide (field_name c = Some "name")
           then unqualify code ((i, n) :: anc) c
           else find (S i) cs'
         end) O cs
    else Some (mkRef code n anc)
  end.

Definition capture_function_name {TS : TreeSitter} (n : NodeRef) (lang : string)
  : result (option NodeRef) :=
  match FUNCTION_DECL_CAPTURES !! lang with
  | None => Raise (ParseLangNotSupportError lang)
  | Some capture =>
    res ← captures lang capture n;
    match res with
    | [] => Ok None
    | (res, _) :: _ =>
      name ← utf8_decode Strict (text res);
      if bool_decide (name ∈ CLIKE_BAD_FUNCNAME) then Ok None
      else if String.eqb lang "C++"
           then Ok (unqualify (src res) (up res) (node res))
           else Ok (Some res)
    end
  end.

(** ** Scopes *)

(** [ancester]: [[node.parent, node.parent.parent, ...]] *)
Fixpoint ancestors (code : bytes) (anc : list (nat * Node)) : list NodeRef :=
  match anc with
  | [] => []
  | (_, p) :: rest => mkRef code p rest :: ancestors code rest
  end.

Definition ancester (n : NodeRef) : list NodeRef := ancestors (src n) (up n).

(** [s.split("::")] *)
Fixpoint split_scope (cur : str) (s : str) : list str :=
  match s with
  | [] => [rev cur]
  | c :: s' =>
    match s' with
    | d :: s'' =>
      if ((c =? 58) && (d =? 58))%N then rev cur :: split_scope [] s''
      else split_scope (c :: cur) s'
    | [] => [rev (c :: cur)]
    end
  end.

(** [p.child_by_field_name(f).text.decode()]; a missing child is
    [None], which has no [text]. *)
Definition field_text (p : NodeRef) (f : string) : result str :=
  match child_by_field_name p f with
  | None => Raise AttributeError
  | Some c => utf8_decode Strict (text c)
  end.

Definition function_scope_cpp {TS : TreeSitter} (fnode : NodeRef) (lang : string)
  : result (list str) :=
  name_node ← capture_function_name fnode lang;
  let name_node := default fnode name_node in
  res ← foldl (λ acc p,
           res ← acc;
           if String.eqb (type (node p)) "namespace_definition" then
             match child_by_field_name p "name" with
             | Some namespace_name =>
               t ← utf8_decode Strict (text namespace_name);
               Ok (res ++ split_scope [] t)
             | None => Ok (res ++ [ [] ])
             end
           else if String.eqb (type (node p)) "class_specifier"
                   || String.eqb (type (node p)) "struct_specifier" then
             t ← field_text p "name"; Ok (res ++ [t])
           else if String.eqb (type (node p)) "qualified_identifier" then
             t ← field_text p "scope"; Ok (res ++ [t])
           else Ok res)
        (Ok []) (ancester name_node);
  Ok (rev res).

Definition function_scope_java (n : NodeRef) (lang : string)
  : result (list str) :=
  res ← foldl (λ acc p,
           res ← acc;
           if String.eqb (type (node p)) "class_declaration" then
             t ← field_text p "name"; Ok (res ++ [t])
           else Ok res)
        (Ok []) (ancester n);
  Ok (rev res).

Definition function_scope {TS : TreeSitter} (n : NodeRef) (lang : string)
  : result (list str) :=
  if String.eqb lang "C" then Ok []
  else if String.eqb lang "C++" then function_scope_cpp n lang
  else if String.eqb lang "Java" then function_scope_java n lang
  else Raise (ParseLangNotSupportError lang).

(** ** Traversal *)

(** [traverse(node, descend, ret)]: depth-first and in document order,
    a node is yielded when [ret] accepts it and its children are visited
    when [descend] accepts it; the cursor never leaves the subtree it
    started in. *)
Fixpoint traverse_node (descend ret : NodeRef -> bool)
    (code : bytes) (anc : list (nat * Node)) (n : Node) {struct n}
  : list NodeRef :=
  let this := mkRef code n anc in
  (if ret this then [this] else []) ++
  (if descend this then
     match n with
     | mkNode _ _ _ _ cs =>
       (fix visit (i : nat) (cs : list Node) {struct cs} : list NodeRef :=
          match cs with
          | [] => []
          | c :: cs' =>
            traverse_node descend ret code ((i, n) :: anc) c
            ++ visit (S i) cs'
          end) O cs
     end
   else []).

Definition traverse (n : NodeRef) (descend ret : NodeRef -> bool)
  : list NodeRef :=
  traverse_node descend ret (src n) (up n) (node n).

(** ** Further captures and the breadth-first traversal *)

Definition CLASS_NAME_QUERY : gmap string string :=
  {[ "C++" := "(class_specifier name: _ @name) @class (struct_specifier name: _ @name) @class" ]}.

Definition capture_class_name {TS : TreeSitter} (n : NodeRef) (lang : string)
  : result (list NodeRef) :=
  match CLASS_NAME_QUERY !! lang with
  | None => Raise (ParseLangNotSupportError lang)
  | Some capture => cs ← captures lang capture n; Ok (cs.*1)
  end.

(** The number of nodes of a tree. *)
Fixpoint node_count (n : Node) {struct n} : nat :=
  match n with
  | mkNode _ _ _ _ cs =>
    S ((fix sum (cs : list Node) {struct cs} : nat :=
          match cs with
          | [] => O
          | c :: cs' => (node_count c + sum cs')%nat
          end) cs)
  end.

(** The loop of [traverse_bfs] on its queue; every turn takes one node
    off the queue, so as many turns as the tree has nodes are enough. *)
Fixpoint bfs_loop (fuel : nat) (descend : NodeRef -> bool)
    (queue : list NodeRef) : list NodeRef :=
  match fuel with
  | O => []
  | S fuel' =>
    match queue with
    | [] => []
    | n :: queue' =>
      n :: bfs_loop fuel' descend
             (queue' ++ if descend n then children_refs n else [])
    end
  end.

Definition traverse_bfs (n : NodeRef) (descend : NodeRef -> bool)
  : list NodeRef :=
  bfs_loop (node_count (node n)) descend [n].

End provider_tst.

(* ===================================================================== *)
(** * codeparser/__init__.py                                              *)
(* ===================================================================== *)

Module codeparser.

Import provider_re provider_tst.

Definition parse_ast {TS : TreeSitter} (s : bytes) (lang : string) : result Node :=
  parser ← get_parser lang;
  Ok (ts_parse (language parser) s).

(** ** Comment removal on the tree *)

Definition COMMENT_TYPES : list string :=
  [ "comment"; "line_comment"; "block_comment" ].

(** The work-list loop of [remove_comments_ast]: the first node of the
    list is taken and its children are put in front of the rest, so the
    nodes are met in pre-order. *)
Fixpoint comment_spans (n : Node) {struct n} : list (nat * nat) :=
  (if bool_decide (type n ∈ COMMENT_TYPES) && (start_byte n <? end_byte n)%nat
   then [(start_byte n, end_byte n)] else []) ++
  match n with
  | mkNode _ _ _ _ cs =>
    (fix expand (cs : list Node) {struct cs} : list (nat * nat) :=
       match cs with
       | [] => []
       | c :: cs' => comment_spans c ++ expand cs'
       end) cs
  end.

(** The second loop: [okcode] and [last] are the loop's variables. *)
Fixpoint rebuild (code : bytes) (comments : list (nat * nat))
    (okcode : bytes) (last : nat) : bytes :=
  match comments with
  | [] => okcode ++ skipn last code
  | (start, end_) :: comments' =>
    let okcode := okcode ++ slice code last start in
    let okcode := okcode ++ repeat x0a (count_nl (slice code start end_)) in
    rebuild code comments' okcode end_
  end.

Definition remove_comments_tree (code : bytes) (root : Node) : bytes :=
  rebuild code (comment_spans root) [] O.

Definition remove_comments_ast {TS : TreeSitter} (code : bytes) (lang : string)
  : result bytes :=
  tree ← parse_ast code lang;
  Ok (remove_comments_tree code tree).

(** [remove_comments(code, lang)], without a timeout. *)
Definition remove_comments {TS : TreeSitter} (code : str) (lang : string)
  : result str :=
  if bool_decide (lang ∈ [ "C"; "C++"; "Java" ]) then
    Ok (remove_comments_regex code)
  else
    encoded ← utf8_encode code;
    stripped ← remove_comments_ast encoded lang;
    utf8_decode Strict stripped.

(** ** The function model *)

(** [Func]; the caller's [meta] annotations play no part here. *)
Record Func : Type :=
  { lang : string; ctx_code : bytes; idx : nat; fnode : NodeRef }.

Definition code_bytes (f : Func) : bytes := text (fnode f).

(** [Func.code] *)
Definition code (f : Func) : result str :=
  utf8_decode Ignore (code_bytes f).

(** [re.sub(r"\s+", "", s)]: deleting every maximal run of white space
    deletes the white-space characters. *)
Definition remove_whitespace (s : str) : str :=
  List.filter (λ c, negb (isspace c)) s.

(** [Func.__eq__(self, x)] for [x] a [Func] or a [str]. *)
Definition Func_eq (self : Func) (x : Func + str) : result bool :=
  func1 ← code self;
  func2 ← match x with inl f => code f | inr s => Ok s end;
  let func1 := remove_comments_regex func1 in
  let func2 := remove_comments_regex func2 in
  let func1 := remove_whitespace func1 in
  let func2 := remove_whitespace func2 in
  Ok (bool_decide (func1 = func2)).

Definition scope {TS : TreeSitter} (f : Func) : result (list str) :=
  function_scope (fnode f) (lang f).

(** ** The abstraction engine *)

(** The loop shared by [is_decl_lvar] and [is_decl_fparam]: climb while
    the node is the [declarator] of its parent. *)
Fixpoint declaration_root (code : bytes) (n : Node) (anc : list (nat * Node))
  {struct anc} : Node :=
  match anc with
  | [] => n
  | (_, p) :: rest =>
    match child_by_field_name (mkRef code p rest) "declarator" with
    | Some c =>
      if node_eqb c (mkRef code n anc) then declaration_root code p rest
      else n
    | None => n
    end
  end.

Definition is_decl_lvar (n : NodeRef) : bool :=
  String.eqb (type (declaration_root (src n) (node n) (up n))) "declaration".

Definition is_decl_fparam (n : NodeRef) : bool :=
  String.eqb (type (declaration_root (src n) (node n) (up n)))
             "parameter_declaration".

Definition ABST_WITH_NUM : Z := 1.
Definition ABST_AS_TYPE : Z := 2.
Definition ABST_NON_SYS : Z := 4.

(** The names read from [sys_func.txt] and [std_func.txt]. *)
Class KnownSymbols : Type := { SYS_FUNC : gset bytes }.

(** The keyword arguments of [abstract_func_clike]. *)
Record Policy : Type :=
  { abstract_fname : Z;
    abstract_lvar : Z;
    abstract_fparam : Z;
    abstract_label : Z;
    abstract_gsym : Z;
    abstract_field : Z;
    abstract_type : Z;
    abstract_literal : Z;
    abstract_func_call : Z }.

Definition default_policy : Policy :=
  {| abstract_fname := ABST_AS_TYPE;
     abstract_lvar := ABST_WITH_NUM;
     abstract_fparam := ABST_WITH_NUM;
     abstract_label := ABST_AS_TYPE;
     abstract_gsym := ABST_WITH_NUM;
     abstract_field := 0;
     abstract_type := 0;
     abstract_literal := 0;
     abstract_func_call := 0 |}.

(** Every selector set to keep. *)
Definition keep_everything : Policy :=
  {| abstract_fname := 0; abstract_lvar := 0; abstract_fparam := 0;
     abstract_label := 0; abstract_gsym := 0; abstract_field := 0;
     abstract_type := 0; abstract_literal := 0; abstract_func_call := 0 |}.

(** The local state of one run. *)
Record State : Type :=
  { output : list bytes;
    lvar_map : gmap bytes bytes;
    symbol_map : gmap bytes bytes;
    label_map : gmap bytes bytes;
    field_map : gmap bytes bytes;
    vtype_map : gmap bytes bytes;
    counts : gmap string nat }.

Definition initial : State :=
  {| output := []; lvar_map := ∅; symbol_map := ∅; label_map := ∅;
     field_map := ∅; vtype_map := ∅; counts := ∅ |}.

Definition append (tok : bytes) (st : State) : State :=
  {| output := output st ++ [tok]; lvar_map := lvar_map st;
     symbol_map := symbol_map st; label_map := label_map st;
     field_map := field_map st; vtype_map := vtype_map st;
     counts := counts st |}.

Definition set_lvar (k v : bytes) (st : State) : State :=
  {| output := output st; lvar_map := <[k := v]> (lvar_map st);
     symbol_map := symbol_map st; label_map := label_map st;
     field_map := field_map st; vtype_map := vtype_map st;
     counts := counts st |}.

Definition set_symbol (k v : bytes) (st : State) : State :=
  {| output := output st; lvar_map := lvar_map st;
     symbol_map := <[k := v]> (symbol_map st); label_map := label_map st;
     field_map := field_map st; vtype_map := vtype_map st;
     counts := counts st |}.

Definition set_label (k v : bytes) (st : State) : State :=
  {| output := output st; lvar_map := lvar_map st;
     symbol_map := symbol_map st; label_map := <[k := v]> (label_map st);
     field_map := field_map st; vtype_map := vtype_map st;
     counts := counts st |}.

Definition set_field (k v : bytes) (st : State) : State :=
  {| output := output st; lvar_map := lvar_map st;
     symbol_map := symbol_map st; label_map := label_map st;
     field_map := <[k := v]> (field_map st); vtype_map := vtype_map st;
     counts := counts st |}.

Definition set_vtype (k v : bytes) (st : State) : State :=
  {| output := output st; lvar_map := lvar_map st;
     symbol_map := symbol_map st; label_map := label_map st;
     field_map := field_map st; vtype_map := <[k := v]> (vtype_map st);
     counts := counts st |}.

(** [alloc_number(elm_type)], encoded. *)
Definition alloc_number (elm_type : string) (st : State) : bytes * State :=
  let n := default O (counts st !! elm_type) in
  (b (elm_type ++ str_of_nat n),
   {| output := output st; lvar_map := lvar_map st;
      symbol_map := symbol_map st; label_map := label_map st;
      field_map := field_map st; vtype_map := vtype_map st;
      counts := <[elm_type := S n]> (counts st) |}).

Definition ATOMIC_TYPES : list string :=
  [ "concatenated_string"; "string_literal"; "char_literal";
    "number_literal"; "sized_type_specifier" ].

Definition is_leaf (n : NodeRef) : bool :=
  bool_decide (children (node n) = [])
  || bool_decide (type (node n) ∈ ATOMIC_TYPES).

Definition is_inner (n : NodeRef) : bool := negb (is_leaf n).

Definition DROPPED_KEYWORDS : list string :=
  [ "static"; "const"; "volatile"; "inline"; "extern"; "register";
    "typedef" ].

(** [node == node.parent.child_by_field_name("declarator")] *)
Definition is_declarator_of (n p : NodeRef) : bool :=
  match child_by_field_name p "declarator" with
  | Some c => node_eqb n c
  | None => false
  end.

(** The body of the loop of [abstract_func_clike] at one yielded node:
    the branches in the order of the source. *)
Definition visit {KS : KnownSymbols} (P : Policy) (st : State) (n : NodeRef)
  : result State :=
  match parent n with
  | None => Raise AttributeError
  | Some p =>
    let ty := type (node n) in
    let pty := type (node p) in
    if String.eqb pty "function_declarator" && is_declarator_of n p then
      if (abstract_fname P =? 0)%Z then Ok (append (text n) st)
      else Ok (append (b "FNAME") st)
    else if String.eqb ty "identifier" && is_decl_fparam n then
      if (abstract_fparam P =? 0)%Z then Ok (append (text n) st)
      else if (abstract_fparam P =? ABST_WITH_NUM)%Z then
        let '(v, st) := alloc_number "FPARAM" st in
        Ok (append v (set_lvar (text n) v st))
      else Ok (append (b "FPARAM") (set_lvar (text n) (b "FPARAM") st))
    else if String.eqb ty "identifier" && is_decl_lvar n then
      if (abstract_lvar P =? 0)%Z then Ok (append (text n) st)
      else if (abstract_lvar P =? ABST_WITH_NUM)%Z then
        let '(v, st) := alloc_number "LVAR" st in
        Ok (append v (set_lvar (text n) v st))
      else Ok (append (b "LVAR") (set_lvar (text n) (b "LVAR") st))
    else if String.eqb ty "field_identifier" then
      if (abstract_field P =? 0)%Z then Ok (append (text n) st)
      else if (abstract_lvar P =? ABST_WITH_NUM)%Z then
        match field_map st !! text n with
        | Some v => Ok (append v st)
        | None =>
          let '(v, st) := alloc_number "FIELD" st in
          Ok (append v (set_field (text n) v st))
        end
      else Ok (append (b "FIELD") (set_field (text n) (b "FIELD") st))
    else if String.eqb pty "labeled_statement"
            && String.eqb ty "statement_identifier" then
      if (abstract_label P =? 0)%Z then Ok (append (text n) st)
      else if (abstract_lvar P =? ABST_WITH_NUM)%Z then
        let '(v, st) := alloc_number "LABEL" st in
        Ok (append v (set_label (text n) v st))
      else Ok (append (b "LABEL") st)
    else if String.eqb pty "goto_statement"
            && String.eqb ty "statement_identifier" then
      if (abstract_label P =? 0)%Z then Ok st
      else if (abstract_lvar P =? ABST_WITH_NUM)%Z then
        match label_map st !! text n with
        | Some v => Ok (append v st)
        | None =>
          let '(v, st) := alloc_number "LABEL" st in
          Ok (append v (set_label (text n) v st))
        end
      else Ok (append (b "LABEL") st)
    else if bool_decide (ty ∈ [ "sized_type_specifier"; "primitive_type";
                                "type_identifier" ]) then
      if (abstract_type P =? 0)%Z then Ok (append (text n) st)
      else if (abstract_type P =? ABST_WITH_NUM)%Z then
        match vtype_map st !! text n with
        | Some v => Ok (append v st)
        | None =>
          let '(v, st) := alloc_number "VTYPE" st in
          Ok (append v (set_vtype (text n) v st))
        end
      else Ok (append (b "VTYPE") st)
    else if bool_decide (ty ∈ [ "concatenated_string"; "string_literal";
                                "char_literal"; "number_literal" ]) then
      if (abstract_literal P =? 0)%Z then Ok (append (text n) st)
      else if bool_decide (ty ∈ [ "concatenated_string"; "string_literal";
                                  "char_literal" ])
      then Ok (append (b "STR") st)
      else Ok (append (b "NUM") st)
    else if String.eqb pty "call_expression" && String.eqb ty "identifier" then
      if (abstract_func_call P =? 0)%Z then Ok (append (text n) st)
      else if negb (Z.land (abstract_func_call P) ABST_WITH_NUM =? 0)%Z then
        Raise NotImplementedError
      else if negb (Z.land (abstract_func_call P) ABST_NON_SYS =? 0)%Z then
        Ok (append (if bool_decide (text n ∈ SYS_FUNC) then text n
                    else b "FCALL") st)
      else Ok (append (b "FCALL") st)
    else if String.eqb ty "identifier" then
      match lvar_map st !! text n with
      | Some v => Ok (append v st)
      | None =>
        if negb (abstract_gsym P =? 0)%Z then
          if (abstract_gsym P =? ABST_WITH_NUM)%Z then
            match symbol_map st !! text n with
            | Some v => Ok (append v st)
            | None =>
              let '(v, st) := alloc_number "GSYM" st in
              Ok (append v (set_symbol (text n) v st))
            end
          else Ok (append (b "GSYM") st)
        else Ok (append (text n) st)
      end
    else if contains "comment" ty || bool_decide (ty ∈ DROPPED_KEYWORDS) then
      Ok st
    else Ok (append (text n) st)
  end.

(** The [for] loop over the yielded nodes. *)
Fixpoint run {KS : KnownSymbols} (P : Policy) (st : State) (ns : list NodeRef)
  : result State :=
  match ns with
  | [] => Ok st
  | n :: ns' => st' ← visit P st n; run P st' ns'
  end.

Definition abstract_node {KS : KnownSymbols} (P : Policy) (func : NodeRef)
  : result (list bytes) :=
  st ← run P initial (traverse func is_inner is_leaf);
  Ok (output st).

(** [abstract_func_clike(func, lang, ...)] for [func] a [bytes] or a
    node. *)
Definition abstract_func_clike {TS : TreeSitter} {KS : KnownSymbols}
    (func : bytes + NodeRef) (lang : string) (P : Policy)
  : result (list bytes) :=
  func ← match func with
         | inl code => tree ← parse_ast code lang; Ok (root_ref code tree)
         | inr n => Ok n
         end;
  abstract_node P func.

(** ** Lines, tokens and normalization *)

(** [splitlines]: [re.split] on the pattern [\r\n|\n], the same for
    [bytes] and for [str]. [cur] holds the current piece, reversed. *)
Fixpoint split_newlines {A} `{EqDecision A} `{Newlines A}
    (cur : list A) (s : list A) : list (list A) :=
  match s with
  | [] => [rev cur]
  | c :: s' =>
    if decide (c = LF) then rev cur :: split_newlines [] s'
    else if decide (c = CR) then
      match s' with
      | d :: s'' =>
        if decide (d = LF) then rev cur :: split_newlines [] s''
        else split_newlines (c :: cur) s'
      | [] => [rev (c :: cur)]
      end
    else split_newlines (c :: cur) s'
  end.

Definition splitlines {A} `{EqDecision A} `{Newlines A} (s : list A)
  : list (list A) :=
  split_newlines [] s.

(** [_tokenize] *)
Definition _tokenize (n : NodeRef) : list bytes :=
  text <$> traverse n (λ _, true)
             (λ x, bool_decide (children (node x) = [])
                   && negb (bool_decide (text x = []))).

Definition tokenize {TS : TreeSitter} (s : bytes) (lang : string)
  : result (list bytes) :=
  tree ← parse_ast s lang;
  Ok (_tokenize (root_ref s tree)).

(** [normalization] *)
Definition normalization (code : str) : str :=
  (* replace tab with 4 spaces *)
  let code := replace_char 9%N [32; 32; 32; 32]%N code in
  (* strip trailing spaces *)
  let lines := splitlines code in
  foldl (λ code1 line, code1 ++ rstrip line ++ [10%N]) [] lines.

(** [Func.code_lines] *)
Definition code_lines (f : Func) : result (list str) :=
  c ← code f; Ok (splitlines c).

(** [Func.__repr__] *)
Definition Func_repr (f : Func) : result str :=
  c ← code f;
  let sample_code :=
    replace_char 13%N (u "\r") (replace_char 10%N (u "\n") (take 100 c)) in
  Ok (u "Func(" ++ [34%N] ++ sample_code ++ u ")" ++ [34%N]).

(** ** Extraction of functions *)

(** The loop of [extract_ast_functions]; [has_error] is the attribute of
    that name of a node. *)
Fixpoint collect_functions (has_error : NodeRef -> bool)
    (keep_error_node : bool) (lang : string) (ctx : bytes)
    (func_seq : nat) (captures : list NodeRef) : list Func :=
  match captures with
  | [] => []
  | n :: captures' =>
    if has_error n && negb keep_error_node
    then collect_functions has_error keep_error_node lang ctx func_seq captures'
    else {| lang := lang; ctx_code := ctx; idx := func_seq; fnode := n |}
         :: collect_functions has_error keep_error_node lang ctx
              (S func_seq) captures'
  end.

(** A [Tree]: the parsed text and the root node. *)
Record Tree : Type := { tree_source : bytes; root_node : Node }.

Definition tree_root (t : Tree) : NodeRef :=
  root_ref (tree_source t) (root_node t).

Definition extract_ast_functions {TS : TreeSitter}
    (has_error : NodeRef -> bool) (tree : Tree) (lang : string)
    (keep_error_node : bool) : result (list Func) :=
  captures ← capture_function_definitions (tree_root tree) lang;
  Ok (collect_functions has_error keep_error_node lang
        (text (tree_root tree)) O captures).

(** The three kinds of source [extract_functions] accepts. *)
Inductive Source : Type :=
| SrcStr (s : str)
| SrcBytes (s : bytes)
| SrcTree (t : Tree).

(** [extract_functions(src, lang, _remove_comments, keep_error_node)],
    without a timeout. *)
Definition extract_functions {TS : TreeSitter} (has_error : NodeRef -> bool)
    (src : Source) (lang : string) (_remove_comments : bool)
    (keep_error_node : bool) : result (list Func) :=
  src ← match src with
        | SrcStr s =>
          s ← (if _remove_comments then remove_comments s lang else Ok s);
          encoded ← utf8_encode_with Ignore s;
          Ok (inl encoded)
        | SrcBytes s => Ok (inl s)
        | SrcTree t => Ok (inr t)
        end;
  tree ← match src with
         | inl s =>
           root ← parse_ast s lang;
           Ok {| tree_source := s; root_node := root |}
         | inr t => Ok t
         end;
  extract_ast_functions has_error tree lang keep_error_node.

(** [_extract_functions_declarations] *)
Definition _extract_functions_declarations {TS : TreeSitter}
    (root : NodeRef) (lang : string) : result (list Func) :=
  groups ← capture_function_definitions root lang;
  Ok (collect_functions (λ _, false) true lang (text root) O groups).

Definition extract_function_declarations {TS : TreeSitter}
    (code : bytes) (lang : string) : result (list Func) :=
  tree ← parse_ast code lang;
  _extract_functions_declarations (root_ref code tree) lang.

End codeparser.

(* ===================================================================== *)
(** * vuddy_util.py                                                       *)
(* ===================================================================== *)

Module vuddy_util.

(** [escape] *)
Definition escape (s : str) : str := replace_char 47%N [95%N] s.

(** [s.rsplit("/", 1)] when [s] holds a [/]: the text before the last
    one and the text behind it. *)
Fixpoint rsplit_slash (s : str) : option (str * str) :=
  match s with
  | [] => None
  | c :: s' =>
    match rsplit_slash s' with
    | Some (d, f) => Some (c :: d, f)
    | None => if (c =? 47)%N then Some ([], s') else None
    end
  end.

(** The body of the loop of [patch_hidx] on the [file] of one entry.
    Without a [/] the split has one part and the unpacking into two
    names fails with a [ValueError]: [None]. *)
Definition patch_file (original_file : str) : option str :=
  match rsplit_slash original_file with
  | None => None
  | Some (original_file0, original_file1) =>
    let original_file0 := replace_char 46%N [35%N] original_file0 in
    Some (original_file0 ++ [47%N] ++ original_file1)
  end.

End vuddy_util.

(* ===================================================================== *)
(** * Sample inputs                                                       *)
(* ===================================================================== *)

(** Syntax trees of small C texts, written out node by node, and a
    [TreeSitter] that returns them. *)
Module Samples.

Import provider_tst codeparser.

(* void f() { void g() { } *)
Definition nested_unclosed_src : bytes := b "void f() { void g() { }".
Definition nested_unclosed_tree : Node :=
  mkNode "translation_unit" 0 23 None [
    mkNode "function_definition" 0 23 None [
      mkNode "primitive_type" 0 4 (Some "type") [];
      mkNode "function_declarator" 5 8 (Some "declarator") [
        mkNode "identifier" 5 6 (Some "declarator") [];
        mkNode "parameter_list" 6 8 (Some "parameters") [
          mkNode "(" 6 7 None [];
          mkNode ")" 7 8 None [] ] ];
      mkNode "compound_statement" 9 23 (Some "body") [
        mkNode "{" 9 10 None [];
        mkNode "function_definition" 11 23 None [
          mkNode "primitive_type" 11 15 (Some "type") [];
          mkNode "function_declarator" 16 19 (Some "declarator") [
            mkNode "identifier" 16 17 (Some "declarator") [];
            mkNode "parameter_list" 17 19 (Some "parameters") [
              mkNode "(" 17 18 None [];
              mkNode ")" 18 19 None [] ] ];
          mkNode "compound_statement" 20 23 (Some "body") [
            mkNode "{" 20 21 None [];
            mkNode "}" 22 23 None [] ] ];
        mkNode "}" 23 23 None [] ] ] ].

(* void f(){{int i;i;}{int i;}} *)
Definition redeclared_src : bytes := b "void f(){{int i;i;}{int i;}}".
Definition redeclared_tree : Node :=
  mkNode "translation_unit" 0 28 None [
    mkNode "function_definition" 0 28 None [
      mkNode "primitive_type" 0 4 (Some "type") [];
      mkNode "function_declarator" 5 8 (Some "declarator") [
        mkNode "identifier" 5 6 (Some "declarator") [];
        mkNode "parameter_list" 6 8 (Some "parameters") [
          mkNode "(" 6 7 None [];
          mkNode ")" 7 8 None [] ] ];
      mkNode "compound_statement" 8 28 (Some "body") [
        mkNode "{" 8 9 None [];
        mkNode "compound_statement" 9 19 None [
          mkNode "{" 9 10 None [];
          mkNode "declaration" 10 16 None [
            mkNode "primitive_type" 10 13 (Some "type") [];
            mkNode "identifier" 14 15 (Some "declarator") [];
            mkNode ";" 15 16 None [] ];
          mkNode "expression_statement" 16 18 None [
            mkNode "identifier" 16 17 None [];
            mkNode ";" 17 18 None [] ];
          mkNode "}" 18 19 None [] ];
        mkNode "compound_statement" 19 27 None [
          mkNode "{" 19 20 None [];
          mkNode "declaration" 20 26 None [
            mkNode "primitive_type" 20 23 (Some "type") [];
            mkNode "identifier" 24 25 (Some "declarator") [];
            mkNode ";" 25 26 None [] ];
          mkNode "}" 26 27 None [] ];
        mkNode "}" 27 28 None [] ] ] ].

(* static int f(){return 1;} *)
Definition static_fn_src : bytes := b "static int f(){return 1;}".
Definition static_fn_tree : Node :=
  mkNode "translation_unit" 0 25 None [
    mkNode "function_definition" 0 25 None [
      mkNode "storage_class_specifier" 0 6 None [
        mkNode "static" 0 6 None [] ];
      mkNode "primitive_type" 7 10 (Some "type") [];
      mkNode "function_declarator" 11 14 (Some "declarator") [
        mkNode "identifier" 11 12 (Some "declarator") [];
        mkNode "parameter_list" 12 14 (Some "parameters") [
          mkNode "(" 12 13 None [];
          mkNode ")" 13 14 None [] ] ];
      mkNode "compound_statement" 14 25 (Some "body") [
        mkNode "{" 14 15 None [];
        mkNode "return_statement" 15 24 None [
          mkNode "return" 15 21 None [];
          mkNode "number_literal" 22 23 None [];
          mkNode ";" 23 24 None [] ];
        mkNode "}" 24 25 None [] ] ] ].

(* void f(){s.x;} *)
Definition field_access_src : bytes := b "void f(){s.x;}".
Definition field_access_tree : Node :=
  mkNode "translation_unit" 0 14 None [
    mkNode "function_definition" 0 14 None [
      mkNode "primitive_type" 0 4 (Some "type") [];
      mkNode "function_declarator" 5 8 (Some "declarator") [
        mkNode "identifier" 5 6 (Some "declarator") [];
        mkNode "parameter_list" 6 8 (Some "parameters") [
          mkNode "(" 6 7 None [];
          mkNode ")" 7 8 None [] ] ];
      mkNode "compound_statement" 8 14 (Some "body") [
        mkNode "{" 8 9 None [];
        mkNode "expression_statement" 9 13 None [
          mkNode "field_expression" 9 12 None [
            mkNode "identifier" 9 10 (Some "argument") [];
            mkNode "." 10 11 None [];
            mkNode "field_identifier" 11 12 (Some "field") [] ];
          mkNode ";" 12 13 None [] ];
        mkNode "}" 13 14 None [] ] ] ].

(* void f(){e:;} *)
Definition labels_src : bytes := b "void f(){e:;}".
Definition labels_tree : Node :=
  mkNode "translation_unit" 0 13 None [
    mkNode "function_definition" 0 13 None [
      mkNode "primitive_type" 0 4 (Some "type") [];
      mkNode "function_declarator" 5 8 (Some "declarator") [
        mkNode "identifier" 5 6 (Some "declarator") [];
        mkNode "parameter_list" 6 8 (Some "parameters") [
          mkNode "(" 6 7 None [];
          mkNode ")" 7 8 None [] ] ];
      mkNode "compound_statement" 8 13 (Some "body") [
        mkNode "{" 8 9 None [];
        mkNode "labeled_statement" 9 12 None [
          mkNode "statement_identifier" 9 10 (Some "label") [];
          mkNode ":" 10 11 None [];
          mkNode "expression_statement" 11 12 None [
            mkNode ";" 11 12 None [] ] ];
        mkNode "}" 12 13 None [] ] ] ].

(* void f(){goto e;} *)
Definition goto_fn_src : bytes := b "void f(){goto e;}".
Definition goto_fn_tree : Node :=
  mkNode "translation_unit" 0 17 None [
    mkNode "function_definition" 0 17 None [
      mkNode "primitive_type" 0 4 (Some "type") [];
      mkNode "function_declarator" 5 8 (Some "declarator") [
        mkNode "identifier" 5 6 (Some "declarator") [];
        mkNode "parameter_list" 6 8 (Some "parameters") [
          mkNode "(" 6 7 None [];
          mkNode ")" 7 8 None [] ] ];
      mkNode "compound_statement" 8 17 (Some "body") [
        mkNode "{" 8 9 None [];
        mkNode "goto_statement" 9 16 None [
          mkNode "goto" 9 13 None [];
          mkNode "statement_identifier" 14 15 (Some "label") [];
          mkNode ";" 15 16 None [] ];
        mkNode "}" 16 17 None [] ] ] ].

(* void f(){g();} *)
Definition call_fn_src : bytes := b "void f(){g();}".
Definition call_fn_tree : Node :=
  mkNode "translation_unit" 0 14 None [
    mkNode "function_definition" 0 14 None [
      mkNode "primitive_type" 0 4 (Some "type") [];
      mkNode "function_declarator" 5 8 (Some "declarator") [
        mkNode "identifier" 5 6 (Some "declarator") [];
        mkNode "parameter_list" 6 8 (Some "parameters") [
          mkNode "(" 6 7 None [];
          mkNode ")" 7 8 None [] ] ];
      mkNode "compound_statement" 8 14 (Some "body") [
        mkNode "{" 8 9 None [];
        mkNode "expression_statement" 9 13 None [
          mkNode "call_expression" 9 12 None [
            mkNode "identifier" 9 10 (Some "function") [];
            mkNode "argument_list" 10 12 (Some "arguments") [
              mkNode "(" 10 11 None [];
              mkNode ")" 11 12 None [] ] ];
          mkNode ";" 12 13 None [] ];
        mkNode "}" 13 14 None [] ] ] ].

(* int a; /* x\ny */ int b; // z\n *)
Definition commented_src : bytes := b "int a; /* x" ++ [x0a] ++ b "y */ int b; // z" ++ [x0a] ++ b "".
Definition commented_tree : Node :=
  mkNode "translation_unit" 0 29 None [
    mkNode "declaration" 0 6 None [
      mkNode "primitive_type" 0 3 (Some "type") [];
      mkNode "identifier" 4 5 (Some "declarator") [];
      mkNode ";" 5 6 None [] ];
    mkNode "comment" 7 16 None [];
    mkNode "declaration" 17 23 None [
      mkNode "primitive_type" 17 20 (Some "type") [];
      mkNode "identifier" 21 22 (Some "declarator") [];
      mkNode ";" 22 23 None [] ];
    mkNode "comment" 24 28 None [] ].


Definition sample_trees : list (bytes * Node) :=
  [ (nested_unclosed_src, nested_unclosed_tree);
    (redeclared_src, redeclared_tree);
    (static_fn_src, static_fn_tree);
    (field_access_src, field_access_tree);
    (labels_src, labels_tree);
    (goto_fn_src, goto_fn_tree);
    (call_fn_src, call_fn_tree);
    (commented_src, commented_tree) ].

(** The nodes a pattern [(t) @ret ...] captures: the nodes of the listed
    types below the start node, in document order. *)
Definition captures_of_types (types : list string) (n : NodeRef)
  : list (NodeRef * string) :=
  (λ r, (r, "ret")) <$>
    traverse n (λ _, true) (λ r, bool_decide (type (node r) ∈ types)).

Definition sample_parser : TreeSitter :=
  {| ts_parse _ code :=
       match list_find (λ p, p.1 = code) sample_trees with
       | Some (_, (_, tree)) => tree
       | None => mkNode "translation_unit" 0 (length code) None []
       end;
     ts_captures q n :=
       if String.eqb (pattern q) "(function_definition) @ret"
       then captures_of_types [ "function_definition" ] n
       else if String.eqb (pattern q)
                 "(method_declaration) @ret (constructor_declaration) @ret"
       then captures_of_types
              [ "method_declaration"; "constructor_declaration" ] n
       else [] |}.

Definition no_known_symbols : KnownSymbols := {| SYS_FUNC := ∅ |}.

(** A function node whose bytes are [a], an invalid byte and [b]. *)
Definition bad_utf8_func : Func :=
  {| lang := "C"; ctx_code := [x61; xff; x62]; idx := 0;
     fnode := root_ref [x61; xff; x62]
                       (mkNode "function_definition" 0 3 None []) |}.

(** A function whose code is the given text. *)
Definition func_of_code (code : bytes) : Func :=
  let fn := mkNode "function_definition" 0 (length code) None [] in
  {| lang := "C"; ctx_code := code; idx := 0;
     fnode := mkRef code fn
                    [(0, mkNode "translation_unit" 0 (length code) None [fn])] |}.

(* int foo(){return 1;} *)
Definition foo_src : bytes := b "int foo(){return 1;}".


(* void f(){{int j;j;}{int j;}}: the text of [redeclared_src] with the
   variable named [j]; the tree is the same. *)
Definition redeclared_renamed_src : bytes := b "void f(){{int j;j;}{int j;}}".

(* void f(){goto e;e:;} *)
Definition forward_goto_src : bytes := b "void f(){goto e;e:;}".
Definition forward_goto_tree : Node :=
  mkNode "translation_unit" 0 20 None [
    mkNode "function_definition" 0 20 None [
      mkNode "primitive_type" 0 4 (Some "type") [];
      mkNode "function_declarator" 5 8 (Some "declarator") [
        mkNode "identifier" 5 6 (Some "declarator") [];
        mkNode "parameter_list" 6 8 (Some "parameters") [
          mkNode "(" 6 7 None [];
          mkNode ")" 7 8 None [] ] ];
      mkNode "compound_statement" 8 20 (Some "body") [
        mkNode "{" 8 9 None [];
        mkNode "goto_statement" 9 16 None [
          mkNode "goto" 9 13 None [];
          mkNode "statement_identifier" 14 15 (Some "label") [];
          mkNode ";" 15 16 None [] ];
        mkNode "labeled_statement" 16 19 None [
          mkNode "statement_identifier" 16 17 (Some "label") [];
          mkNode ":" 17 18 None [];
          mkNode "expression_statement" 18 19 None [
            mkNode ";" 18 19 None [] ] ];
        mkNode "}" 19 20 None [] ] ] ].

(* int f(int a){int b;} *)
Definition two_types_src : bytes := b "int f(int a){int b;}".
Definition two_types_tree : Node :=
  mkNode "translation_unit" 0 20 None [
    mkNode "function_definition" 0 20 None [
      mkNode "primitive_type" 0 3 (Some "type") [];
      mkNode "function_declarator" 4 12 (Some "declarator") [
        mkNode "identifier" 4 5 (Some "declarator") [];
        mkNode "parameter_list" 5 12 (Some "parameters") [
          mkNode "(" 5 6 None [];
          mkNode "parameter_declaration" 6 11 None [
            mkNode "primitive_type" 6 9 (Some "type") [];
            mkNode "identifier" 10 11 (Some "declarator") [] ];
          mkNode ")" 11 12 None [] ] ];
      mkNode "compound_statement" 12 20 (Some "body") [
        mkNode "{" 12 13 None [];
        mkNode "declaration" 13 19 None [
          mkNode "primitive_type" 13 16 (Some "type") [];
          mkNode "identifier" 17 18 (Some "declarator") [];
          mkNode ";" 18 19 None [] ];
        mkNode "}" 19 20 None [] ] ] ].

(** A tree whose nodes carry no error. *)
Definition no_errors : NodeRef → bool := λ _, false.

(* class A { void m() { } }, in Java *)
Definition java_class_src : bytes := b "class A { void m() { } }".
Definition java_class_tree : Node :=
  mkNode "program" 0 24 None [
    mkNode "class_declaration" 0 24 None [
      mkNode "class" 0 5 None [];
      mkNode "identifier" 6 7 (Some "name") [];
      mkNode "class_body" 8 24 (Some "body") [
        mkNode "{" 8 9 None [];
        mkNode "method_declaration" 10 22 None [
          mkNode "void_type" 10 14 (Some "type") [];
          mkNode "identifier" 15 16 (Some "name") [];
          mkNode "formal_parameters" 16 18 (Some "parameters") [
            mkNode "(" 16 17 None [];
            mkNode ")" 17 18 None [] ];
          mkNode "block" 19 22 (Some "body") [
            mkNode "{" 19 20 None [];
            mkNode "}" 21 22 None [] ] ];
        mkNode "}" 23 24 None [] ] ] ].

(** The class body of [java_class_tree] and the method inside it. *)
Definition java_class_body : NodeRef :=
  default (root_ref java_class_src java_class_tree)
    (traverse (root_ref java_class_src java_class_tree) (λ _, true)
       (λ n, String.eqb (type (node n)) "class_body") !! 0).

Definition java_method : NodeRef :=
  default (root_ref java_class_src java_class_tree)
    (traverse (root_ref java_class_src java_class_tree) (λ _, true)
       (λ n, String.eqb (type (node n)) "method_declaration") !! 0).

(** A parser that also answers the pattern of the function names of C:
    the nodes in the [declarator] field of a function declarator. *)
Definition declarator_parser : TreeSitter :=
  {| ts_parse := ts_parse (TreeSitter := sample_parser);
     ts_captures q n :=
       if String.eqb (pattern q) "(function_declarator declarator: _ @ret)"
       then (λ r, (r, "ret")) <$>
              traverse n (λ _, true)
                (λ r, bool_decide (field_name (node r) = Some "declarator")
                      && match parent r with
                         | Some p =>
                           String.eqb (type (node p)) "function_declarator"
                         | None => false
                         end)
       else ts_captures (TreeSitter := sample_parser) q n |}.

(* void f(){int a,b=1;b;}: one declaration with two declarators *)
Definition two_declarators_src : bytes := b "void f(){int a,b=1;b;}".
Definition two_declarators_tree : Node :=
  mkNode "translation_unit" 0 22 None [
    mkNode "function_definition" 0 22 None [
      mkNode "primitive_type" 0 4 (Some "type") [];
      mkNode "function_declarator" 5 8 (Some "declarator") [
        mkNode "identifier" 5 6 (Some "declarator") [];
        mkNode "parameter_list" 6 8 (Some "parameters") [
          mkNode "(" 6 7 None [];
          mkNode ")" 7 8 None [] ] ];
      mkNode "compound_statement" 8 22 (Some "body") [
        mkNode "{" 8 9 None [];
        mkNode "declaration" 9 19 None [
          mkNode "primitive_type" 9 12 (Some "type") [];
          mkNode "identifier" 13 14 (Some "declarator") [];
          mkNode "," 14 15 None [];
          mkNode "init_declarator" 15 18 (Some "declarator") [
            mkNode "identifier" 15 16 (Some "declarator") [];
            mkNode "=" 16 17 None [];
            mkNode "number_literal" 17 18 (Some "value") [] ];
          mkNode ";" 18 19 None [] ];
        mkNode "expression_statement" 19 21 None [
          mkNode "identifier" 19 20 None [];
          mkNode ";" 20 21 None [] ];
        mkNode "}" 21 22 None [] ] ] ].

(* #define X/*
   */ int y; // x
   a macro definition with a comment between its name and its value;
   the value of a macro runs to the end of the line, two slashes
   included *)
Definition macro_src : bytes :=
  b "#define X/*" ++ [x0a] ++ b "*/ int y; // x" ++ [x0a].
Definition macro_tree : Node :=
  mkNode "translation_unit" 0 27 None [
    mkNode "preproc_def" 0 27 None [
      mkNode "#define" 0 7 None [];
      mkNode "identifier" 8 9 (Some "name") [];
      mkNode "comment" 9 14 None [];
      mkNode "preproc_arg" 15 26 (Some "value") [] ] ].

(* #define X
    int y; // x
   the text above with its comment replaced by the newline it holds:
   the macro definition ends with the first line, and the second line
   is a declaration followed by a comment *)
Definition macro_stripped_src : bytes :=
  b "#define X" ++ [x0a] ++ b " int y; // x" ++ [x0a].
Definition macro_stripped_tree : Node :=
  mkNode "translation_unit" 0 23 None [
    mkNode "preproc_def" 0 10 None [
      mkNode "#define" 0 7 None [];
      mkNode "identifier" 8 9 (Some "name") [] ];
    mkNode "declaration" 11 17 None [
      mkNode "primitive_type" 11 14 (Some "type") [];
      mkNode "identifier" 15 16 (Some "declarator") [];
      mkNode ";" 16 17 None [] ];
    mkNode "comment" 18 22 None [] ].

(** A parser that knows the two texts above. *)
Definition macro_parser : TreeSitter :=
  {| ts_parse l code :=
       if decide (code = macro_src) then macro_tree
       else if decide (code = macro_stripped_src) then macro_stripped_tree
       else ts_parse (TreeSitter := sample_parser) l code;
     ts_captures := ts_captures (TreeSitter := sample_parser) |}.

End Samples.

(* ===================================================================== *)
(** * Notions used to state the properties                                *)
(* ===================================================================== *)

Module Notions.

Import provider_re provider_tst codeparser.

(** The closed set of language tags. *)
Definition supported (lang : string) : Prop :=
  lang = "C" ∨ lang = "C++" ∨ lang = "Java".

Definition ranges (ns : list NodeRef) : list (nat * nat) :=
  (λ n, (start_byte (node n), end_byte (node n))) <$> ns.

Definition with_field_lvar (field lvar : Z) : Policy :=
  {| abstract_fname := 0; abstract_lvar := lvar; abstract_fparam := 0;
     abstract_label := 0; abstract_gsym := 0; abstract_field := field;
     abstract_type := 0; abstract_literal := 0; abstract_func_call := 0 |}.

Definition with_label_lvar (label lvar : Z) : Policy :=
  {| abstract_fname := 0; abstract_lvar := lvar; abstract_fparam := 0;
     abstract_label := label; abstract_gsym := 0; abstract_field := 0;
     abstract_type := 0; abstract_literal := 0; abstract_func_call := 0 |}.

(** ** UTF-8 *)

(** The well-formed byte sequences and the code point each encodes. *)
Inductive encodes : bytes → N → Prop :=
| encodes1 c1 :
    (Byte.to_N c1 < 0x80)%N → encodes [c1] (Byte.to_N c1)
| encodes2 c1 c2 :
    (0xC2 ≤ Byte.to_N c1 < 0xE0)%N →
    is_continuation (Byte.to_N c2) = true →
    encodes [c1; c2]
            (Byte.to_N c1 * 64 + Byte.to_N c2 - (0xC0 * 64 + 0x80))%N
| encodes3 c1 c2 c3 :
    (0xE0 ≤ Byte.to_N c1 < 0xF0)%N →
    is_continuation (Byte.to_N c2) = true →
    (if (Byte.to_N c2 <? 0xA0)%N then (Byte.to_N c1 =? 0xE0)%N
     else (Byte.to_N c1 =? 0xED)%N) = false →
    is_continuation (Byte.to_N c3) = true →
    encodes [c1; c2; c3]
            (Byte.to_N c1 * 4096 + Byte.to_N c2 * 64 + Byte.to_N c3
             - (0xE0 * 4096 + 0x80 * 64 + 0x80))%N
| encodes4 c1 c2 c3 c4 :
    (0xF0 ≤ Byte.to_N c1 < 0xF5)%N →
    is_continuation (Byte.to_N c2) = true →
    (if (Byte.to_N c2 <? 0x90)%N then (Byte.to_N c1 =? 0xF0)%N
     else (Byte.to_N c1 =? 0xF4)%N) = false →
    is_continuation (Byte.to_N c3) = true →
    is_continuation (Byte.to_N c4) = true →
    encodes [c1; c2; c3; c4]
            (Byte.to_N c1 * 262144 + Byte.to_N c2 * 4096
             + Byte.to_N c3 * 64 + Byte.to_N c4
             - (0xF0 * 262144 + 0x80 * 4096 + 0x80 * 64 + 0x80))%N.

(** ** The comment pattern *)

Definition is_quote (q : N) : Prop := q = QUOTE ∨ q = DQUOTE.

(** The ways the pattern can match, or fail to match, at the head of a
    text. *)
Inductive match_view : str → option nat → Prop :=
| mv_nil : match_view [] None
| mv_line s2 :
    match_view (SLASH :: SLASH :: s2) (Some (2 + line_len s2))
| mv_block s2 k :
    block_len s2 = Some k →
    match_view (SLASH :: STAR :: s2) (Some (2 + k))
| mv_open_block s2 :
    block_len s2 = None → match_view (SLASH :: STAR :: s2) None
| mv_slash s1 :
    head s1 ≠ Some SLASH → head s1 ≠ Some STAR →
    match_view (SLASH :: s1) None
| mv_quoted q s1 k :
    is_quote q → quoted_len q s1 = Some k →
    match_view (q :: s1) (Some (S k))
| mv_open_quote q s1 :
    is_quote q → quoted_len q s1 = None → match_view (q :: s1) None
| mv_other c s1 :
    c ≠ SLASH → ¬ is_quote c → match_view (c :: s1) None.

(** The scan of a quoted body as an automaton: [esc] tells that the
    previous character was an unpaired backslash. [closes] tells whether
    the closing quote is found, [after] is the state at the end of a
    text. *)
Fixpoint closes (q : N) (esc : bool) (s : str) : bool :=
  match s with
  | [] => false
  | c :: s' =>
    if esc then closes q false s'
    else if (c =? q)%N then true
    else if (c =? BACKSLASH)%N then closes q true s'
    else closes q false s'
  end.

Fixpoint after (esc : bool) (s : str) : bool :=
  match s with
  | [] => esc
  | c :: s' => after (negb esc && (c =? BACKSLASH)%N) s'
  end.

(** ** Comment spans *)

Local Open Scope nat_scope.

(** Spans in ascending order without overlap, between [lo] and [hi]. *)
Fixpoint chain (lo hi : nat) (spans : list (nat * nat)) : Prop :=
  match spans with
  | [] => lo ≤ hi
  | (s, e) :: rest => lo ≤ s ∧ s ≤ e ∧ chain e hi rest
  end.

(** A well-formed tree: the children of a node lie inside its range,
    one after the other, and a comment is a token without children. *)
Fixpoint well_formed (n : Node) {struct n} : bool :=
  match n with
  | mkNode ty s e _ cs =>
    (s <=? e)
    && (negb (bool_decide (ty ∈ COMMENT_TYPES))
        || match cs with [] => true | _ :: _ => false end)
    && (fix wf_children (lo : nat) (cs : list Node) {struct cs} : bool :=
          match cs with
          | [] => lo <=? e
          | c :: cs' =>
            (lo <=? start_byte c) && well_formed c
            && wf_children (end_byte c) cs'
          end) s cs
  end.

(** The byte at [i] lies outside every span. *)
Definition outside (i : nat) (spans : list (nat * nat)) : Prop :=
  Forall (λ se, ¬ (se.1 ≤ i < se.2)) spans.

(** The result as the documentation words it: the ranges between the
    comments copied, each comment replaced by the newlines it holds. *)
Fixpoint copy_and_blank (code : bytes) (last : nat)
    (spans : list (nat * nat)) : bytes :=
  match spans with
  | [] => drop last code
  | (s, e) :: rest =>
    slice code last s ++ repeat x0a (count_nl (slice code s e))
    ++ copy_and_blank code e rest
  end.

(** ** The abstraction engine *)

(** The branches of the loop of [abstract_func_clike], in the order of
    the source. *)
Inductive category : Type :=
| FNAME | FPARAM | LVAR | FIELD | LABEL_DEF | LABEL_REF | VTYPE | LITERAL
| CALL | IDENT | DROPPED | OTHER.

#[global] Instance category_eq_dec : EqDecision category.
Proof. solve_decision. Defined.

(** The branch taken at node [n] with parent [p]: the conditions of the
    [if]/[elif] chain. *)
Definition classify (n p : NodeRef) : category :=
  let ty := type (node n) in
  let pty := type (node p) in
  if String.eqb pty "function_declarator" && is_declarator_of n p then FNAME
  else if String.eqb ty "identifier" && is_decl_fparam n then FPARAM
  else if String.eqb ty "identifier" && is_decl_lvar n then LVAR
  else if String.eqb ty "field_identifier" then FIELD
  else if String.eqb pty "labeled_statement"
          && String.eqb ty "statement_identifier" then LABEL_DEF
  else if String.eqb pty "goto_statement"
          && String.eqb ty "statement_identifier" then LABEL_REF
  else if bool_decide (ty ∈ [ "sized_type_specifier"; "primitive_type";
                              "type_identifier" ]) then VTYPE
  else if bool_decide (ty ∈ [ "concatenated_string"; "string_literal";
                              "char_literal"; "number_literal" ]) then LITERAL
  else if String.eqb pty "call_expression" && String.eqb ty "identifier"
  then CALL
  else if String.eqb ty "identifier" then IDENT
  else if contains "comment" ty || bool_decide (ty ∈ DROPPED_KEYWORDS)
  then DROPPED
  else OTHER.

Definition category_of (n : NodeRef) : option category :=
  classify n <$> parent n.

(** The nodes the loop of [abstract_func_clike] runs over. *)
Definition leaves (func : NodeRef) : list NodeRef :=
  traverse func is_inner is_leaf.

(** The placeholder with number [k] of a category. *)
Definition numbered (tag : string) (k : nat) : bytes :=
  b (tag ++ str_of_nat k).

(** The next number of a local variable. *)
Definition lvar_count (st : State) : nat := default 0 (counts st !! "LVAR").

(** The declarations of local variables among some nodes. *)
Definition lvar_decls (ns : list NodeRef) : list NodeRef :=
  filter (λ n, category_of n = Some LVAR) ns.

(** The nodes that are not dropped. *)
Definition emitted (ns : list NodeRef) : list NodeRef :=
  filter (λ n, category_of n ≠ Some DROPPED) ns.

(** [n] declares the name [name] as a parameter or local variable. *)
Definition declares (name : bytes) (n : NodeRef) : Prop :=
  (category_of n = Some LVAR ∨ category_of n = Some FPARAM)
  ∧ text n = name.

Definition with_func_call (v : Z) : Policy :=
  {| abstract_fname := 0; abstract_lvar := 0; abstract_fparam := 0;
     abstract_label := 0; abstract_gsym := 0; abstract_field := 0;
     abstract_type := 0; abstract_literal := 0; abstract_func_call := v |}.

(** ** More on UTF-8 *)

(** The code points that have an encoding: all but the surrogates, up to
    the end of the code space. *)
Definition encodable (ch : N) : Prop :=
  (ch < 0xD800 ∨ 0xE000 ≤ ch < 0x110000)%N.

#[global] Instance encodable_dec ch : Decision (encodable ch).
Proof. unfold encodable. apply _. Defined.

(** ** Renaming of variables *)

(** The categories whose names a renaming changes: parameters, local
    variables and the other identifiers. *)
Definition renamable (c : option category) : bool :=
  match c with
  | Some FPARAM | Some LVAR | Some IDENT => true
  | _ => false
  end.

(** [n'] is [n] with its name changed by [ρ]: the same branch of the
    loop, the same type, and the text renamed if the category is one of
    the three. *)
Definition renamed (ρ : bytes → bytes) (n n' : NodeRef) : Prop :=
  category_of n' = category_of n
  ∧ type (node n') = type (node n)
  ∧ text n' = if renamable (category_of n) then ρ (text n) else text n.

#[global] Instance renamed_dec ρ n n' : Decision (renamed ρ n n').
Proof. unfold renamed. apply _. Defined.

(** The renaming that exchanges two names. *)
Definition swap_names (x y : bytes) (t : bytes) : bytes :=
  if decide (t = x) then y else if decide (t = y) then x else t.

(** Two states of the loop that differ by the renaming of the keys of
    the two maps of identifiers. *)
Definition similar (ρ : bytes → bytes) (st st' : State) : Prop :=
  output st' = output st
  ∧ counts st' = counts st
  ∧ label_map st' = label_map st
  ∧ field_map st' = field_map st
  ∧ vtype_map st' = vtype_map st
  ∧ (∀ t, lvar_map st' !! ρ t = lvar_map st !! t)
  ∧ (∀ t, symbol_map st' !! ρ t = symbol_map st !! t).

Definition same_result (ρ : bytes → bytes) (r r' : result State) : Prop :=
  match r, r' with
  | Ok st, Ok st' => similar ρ st st'
  | Raise e, Raise e' => e = e'
  | _, _ => False
  end.

(** ** Numbered placeholders *)

(** The next number of the category [tag]. *)
Definition next_number (tag : string) (st : State) : nat :=
  default 0 (counts st !! tag).

(** Every placeholder of the map carries a number below [k]. *)
Definition numbered_below (tag : string) (m : gmap bytes bytes) (k : nat)
  : Prop :=
  ∀ t v, m !! t = Some v → ∃ j, (j < k)%nat ∧ v = numbered tag j.

(** No two names of the map share a placeholder. *)
Definition one_to_one (m : gmap bytes bytes) : Prop :=
  ∀ t t' v, m !! t = Some v → m !! t' = Some v → t = t'.

Definition with_type (v : Z) : Policy :=
  {| abstract_fname := 0; abstract_lvar := 0; abstract_fparam := 0;
     abstract_label := 0; abstract_gsym := 0; abstract_field := 0;
     abstract_type := v; abstract_literal := 0; abstract_func_call := 0 |}.

(** The invariant of a map of placeholders of the category [tag]: its
    placeholders carry the numbers given out so far, and no two names
    share one. *)
Definition tracked (tag : string) (the_map : State → gmap bytes bytes)
    (st : State) : Prop :=
  numbered_below tag (the_map st) (next_number tag st)
  ∧ one_to_one (the_map st).

Definition labelled (st : State) : Prop :=
  numbered_below "LABEL" (label_map st) (next_number "LABEL" st).

(** ** Traversals *)

(** The number of nodes below the nodes of a queue, these included. *)
Definition queue_size (queue : list NodeRef) : nat :=
  sum_list_with (λ n, node_count (node n)) queue.

(** ** The pieces of a byte string *)

(** A piece of the input of the decoder: a well-formed sequence, with
    the code point it encodes, or an undecodable span. *)
Definition piece_ok (p : bytes * option N) : Prop :=
  match p.2 with
  | Some ch => encodes p.1 ch
  | None => p.1 ≠ []
  end.

(** What decoding makes of the pieces: the code point of a sequence,
    and what the error handler says for a span. *)
Fixpoint decode_pieces (e : errors) (ps : list (bytes * option N))
  : result str :=
  match ps with
  | [] => Ok []
  | (_, Some ch) :: rest => emit ch (decode_pieces e rest)
  | (_, None) :: rest => on_error e (decode_pieces e rest)
  end.

(** ** Texts up to white space *)


(** ** The tokens and the source text *)

#[global] Instance outside_dec i spans : Decision (outside i spans).
Proof. unfold outside. apply _. Defined.






End Notions.

(* ===================================================================== *)
(** * Properties                                                          *)
(* ===================================================================== *)

Module RegistryFacts.

Import provider_re provider_tst codeparser Notions.

Lemma lang_mapping_unsupported lang :
  ¬ supported lang → lang_mapping !! lang = None.
Proof.
  intros Hn. unfold lang_mapping, supported in *.
  rewrite !lookup_insert_ne, lookup_singleton_ne by (intros ?; subst; naive_solver). done.
Qed.

Lemma lang_mapping_supported lang :
  supported lang → is_Some (lang_mapping !! lang).
Proof. intros [-> | [-> | ->]]; vm_compute; eauto. Qed.

Lemma get_language_unsupported lang :
  ¬ supported lang → get_language lang = Raise (KeyError lang).
Proof.
  intros Hn. unfold get_language. by rewrite lang_mapping_unsupported.
Qed.

Lemma get_language_supported lang :
  supported lang → ∃ l, get_language lang = Ok l.
Proof.
  intros Hs. unfold get_language.
  destruct (lang_mapping_supported lang Hs) as [l ->]. eauto.
Qed.

Lemma get_parser_unsupported lang :
  ¬ supported lang → get_parser lang = Raise (KeyError lang).
Proof.
  intros Hn. unfold get_parser. by rewrite get_language_unsupported.
Qed.

Lemma parse_ast_unsupported {TS : TreeSitter} s lang :
  ¬ supported lang → parse_ast s lang = Raise (KeyError lang).
Proof.
  intros Hn. unfold parse_ast. by rewrite get_parser_unsupported.
Qed.

Lemma remove_comments_ast_unsupported {TS : TreeSitter} s lang :
  ¬ supported lang → remove_comments_ast s lang = Raise (KeyError lang).
Proof.
  intros Hn. unfold remove_comments_ast. by rewrite parse_ast_unsupported.
Qed.

Lemma remove_comments_unsupported {TS : TreeSitter} code encoded lang :
  ¬ supported lang → utf8_encode code = Ok encoded →
  remove_comments code lang = Raise (KeyError lang).
Proof.
  intros Hn He. unfold remove_comments.
  rewrite bool_decide_eq_false_2.
  - rewrite He. cbn. by rewrite remove_comments_ast_unsupported.
  - rewrite !elem_of_cons, elem_of_nil. unfold supported in Hn. tauto.
Qed.

Lemma function_scope_unsupported {TS : TreeSitter} n lang :
  ¬ supported lang →
  function_scope n lang = Raise (ParseLangNotSupportError lang).
Proof.
  intros Hn. unfold function_scope, supported in *.
  destruct (String.eqb_spec lang "C"); [tauto|].
  destruct (String.eqb_spec lang "C++"); [tauto|].
  destruct (String.eqb_spec lang "Java"); [tauto|]. done.
Qed.

Lemma capture_function_definitions_unsupported {TS : TreeSitter} n lang :
  ¬ supported lang →
  capture_function_definitions n lang = Raise (ParseLangNotSupportError lang).
Proof.
  intros Hn. unfold capture_function_definitions, supported in *.
  replace (FUNCTION_DEFINITION_CAPTURES !! lang) with (@None string); [done|].
  unfold FUNCTION_DEFINITION_CAPTURES.
  rewrite !lookup_insert_ne, lookup_singleton_ne by (intros ?; subst; naive_solver). done.
Qed.

Lemma Go_unsupported : ¬ supported "Go".
Proof. unfold supported. intros [? | [? | ?]]; discriminate. Qed.

(** C4. With the unsupported tag ["Go"], scope resolution and function
    capture raise [ParseLangNotSupportError], but the registry
    ([get_language], [get_parser]) and with it parsing and
    [remove_comments] raise the [KeyError] of the dictionary lookup. *)
Theorem unsupported_language_raises_KeyError :
  get_language "Go" = Raise (KeyError "Go")
  ∧ get_parser "Go" = Raise (KeyError "Go")
  ∧ (∀ (TS : TreeSitter) s, parse_ast s "Go" = Raise (KeyError "Go"))
  ∧ (∀ (TS : TreeSitter),
       remove_comments (u "x") "Go" = Raise (KeyError "Go"))
  ∧ (∀ (TS : TreeSitter) n,
       function_scope n "Go" = Raise (ParseLangNotSupportError "Go"))
  ∧ (∀ (TS : TreeSitter) n,
       capture_function_definitions n "Go"
       = Raise (ParseLangNotSupportError "Go")).
Proof.
  pose proof Go_unsupported as Hn.
  split_and!; intros.
  - by apply get_language_unsupported.
  - by apply get_parser_unsupported.
  - by apply parse_ast_unsupported.
  - by apply (remove_comments_unsupported _ (b "x")).
  - by apply function_scope_unsupported.
  - by apply capture_function_definitions_unsupported.
Qed.

End RegistryFacts.

Module CaptureFacts.
Import provider_re provider_tst codeparser Samples Notions.

(** What the two filters of [capture_function_definitions] do ensure: no
    returned node lies strictly inside another returned node, and no
    returned node starts with a control keyword. *)
Lemma capture_function_definitions_filters {TS : TreeSitter} n lang r :
  capture_function_definitions n lang = Ok r →
  (∀ x y, x ∈ r → y ∈ r → inside x y = false)
  ∧ (∀ x kw, x ∈ r → kw ∈ CONTROL_KEYWORDS → startswith (text x) kw = false).
Proof.
  unfold capture_function_definitions.
  destruct (FUNCTION_DEFINITION_CAPTURES !! lang) as [capture|]; [|done].
  destruct (captures lang capture n) as [cs|]; [|done].
  unfold mbind, result_bind, bind. cbv zeta. intros [= <-]. split.
  - intros x y [[Hx Hnot]%filter_In _]%list_elem_of_In%filter_In
             [[Hy _]%filter_In _]%list_elem_of_In%filter_In.
    apply negb_true_iff in Hnot.
    destruct (inside x y) eqn:E; [|done]. exfalso.
    apply not_true_iff_false in Hnot. apply Hnot, existsb_exists. eauto.
  - intros x kw [_ Hnot]%list_elem_of_In%filter_In Hkw%list_elem_of_In.
    apply negb_true_iff in Hnot.
    destruct (startswith (text x) kw) eqn:E; [|done]. exfalso.
    apply not_true_iff_false in Hnot.
    change (existsb (startswith (text x)) CONTROL_KEYWORDS ≠ true) in Hnot.
    apply Hnot, existsb_exists. eauto.
Qed.

(** C1. For the text [void f() { void g() { }] the parser closes [f]
    with a missing brace of width zero, so [g] ends where [f] ends; the
    first filter keeps [g], and the two returned ranges overlap. *)
Theorem nested_function_sharing_its_end_is_returned :
  ∃ outer inner,
    capture_function_definitions (TS := sample_parser)
      (root_ref nested_unclosed_src nested_unclosed_tree) "C"
    = Ok [outer; inner]
    ∧ ranges [outer; inner] = [(0, 23); (11, 23)]
    ∧ start_byte (node outer) < start_byte (node inner)
      < end_byte (node outer)
    ∧ end_byte (node inner) <= end_byte (node outer).
Proof.
  eexists _, _. split; [vm_compute; reflexivity|].
  vm_compute. repeat split; lia.
Qed.

End CaptureFacts.

Module SelectorFacts.
Import provider_re provider_tst codeparser Samples Notions.

(** C5. With [abstract_field = ABST_WITH_NUM] fixed, the field [x] of
    [s.x] becomes [FIELD] when [abstract_lvar] is 0 and [FIELD0] when
    it is [ABST_WITH_NUM]; the label [e] behaves in the same way under
    [abstract_label = ABST_WITH_NUM]. *)
Theorem field_and_label_numbering_follow_abstract_lvar :
  abstract_func_clike (TS := sample_parser) (KS := no_known_symbols)
    (inl field_access_src) "C" (with_field_lvar ABST_WITH_NUM 0)
  = Ok (b <$> ["void"; "f"; "("; ")"; "{"; "s"; "."; "FIELD"; ";"; "}"])
  ∧ abstract_func_clike (TS := sample_parser) (KS := no_known_symbols)
      (inl field_access_src) "C" (with_field_lvar ABST_WITH_NUM ABST_WITH_NUM)
    = Ok (b <$> ["void"; "f"; "("; ")"; "{"; "s"; "."; "FIELD0"; ";"; "}"])
  ∧ abstract_func_clike (TS := sample_parser) (KS := no_known_symbols)
      (inl labels_src) "C" (with_label_lvar ABST_WITH_NUM 0)
    = Ok (b <$> ["void"; "f"; "("; ")"; "{"; "LABEL"; ":"; ";"; "}"])
  ∧ abstract_func_clike (TS := sample_parser) (KS := no_known_symbols)
      (inl labels_src) "C" (with_label_lvar ABST_WITH_NUM ABST_WITH_NUM)
    = Ok (b <$> ["void"; "f"; "("; ")"; "{"; "LABEL0"; ":"; ";"; "}"]).
Proof. split_and!; vm_compute; reflexivity. Qed.

End SelectorFacts.

Module Utf8Facts.

Import Notions.

Local Open Scope N_scope.

Lemma utf8_decode_cons e c1 s1 :
  utf8_decode e (c1 :: s1) =
    let ch := Byte.to_N c1 in
    if (ch <? 0x80)%N then emit ch (utf8_decode e s1)
    else if (ch <? 0xC2)%N then on_error e (utf8_decode e s1)
    else if (ch <? 0xE0)%N then
      match s1 with
      | [] => on_error e (Ok [])
      | c2 :: s2 =>
        let ch2 := Byte.to_N c2 in
        if negb (is_continuation ch2) then on_error e (utf8_decode e s1)
        else emit (ch * 64 + ch2 - (0xC0 * 64 + 0x80))%N (utf8_decode e s2)
      end
    else if (ch <? 0xF0)%N then
      match s1 with
      | [] => on_error e (Ok [])
      | c2 :: s2 =>
        let ch2 := Byte.to_N c2 in
        if negb (is_continuation ch2)
           || (if (ch2 <? 0xA0)%N then (ch =? 0xE0)%N else (ch =? 0xED)%N)
        then on_error e (utf8_decode e s1)
        else
          match s2 with
          | [] => on_error e (Ok [])
          | c3 :: s3 =>
            let ch3 := Byte.to_N c3 in
            if negb (is_continuation ch3) then on_error e (utf8_decode e s2)
            else emit (ch * 4096 + ch2 * 64 + ch3
                       - (0xE0 * 4096 + 0x80 * 64 + 0x80))%N
                      (utf8_decode e s3)
          end
      end
    else if (ch <? 0xF5)%N then
      match s1 with
      | [] => on_error e (Ok [])
      | c2 :: s2 =>
        let ch2 := Byte.to_N c2 in
        if negb (is_continuation ch2)
           || (if (ch2 <? 0x90)%N then (ch =? 0xF0)%N else (ch =? 0xF4)%N)
        then on_error e (utf8_decode e s1)
        else
          match s2 with
          | [] => on_error e (Ok [])
          | c3 :: s3 =>
            let ch3 := Byte.to_N c3 in
            if negb (is_continuation ch3) then on_error e (utf8_decode e s2)
            else
              match s3 with
              | [] => on_error e (Ok [])
              | c4 :: s4 =>
                let ch4 := Byte.to_N c4 in
                if negb (is_continuation ch4)
                then on_error e (utf8_decode e s3)
                else emit (ch * 262144 + ch2 * 4096 + ch3 * 64 + ch4
                           - (0xF0 * 262144 + 0x80 * 4096 + 0x80 * 64 + 0x80))%N
                          (utf8_decode e s4)
              end
          end
      end
    else on_error e (utf8_decode e s1).
Proof. destruct s1 as [|? [|? [|? ?]]]; reflexivity. Qed.

(** The decoder splits its input into well-formed sequences, which it
    decodes, and undecodable spans, which it hands to the error
    handler. *)
Lemma utf8_decode_ind (e : errors) (P : bytes → result str → Prop) :
  P [] (Ok []) →
  (∀ span rest, span ≠ [] →
     P rest (utf8_decode e rest) →
     P (span ++ rest) (on_error e (utf8_decode e rest))) →
  (∀ seq ch rest, encodes seq ch →
     P rest (utf8_decode e rest) →
     P (seq ++ rest) (emit ch (utf8_decode e rest))) →
  ∀ s, P s (utf8_decode e s).
Proof.
  intros Hnil Herr Hseq s.
  induction s as [s IH] using (induction_ltof1 _ (@length byte)).
  unfold ltof in IH.
  destruct s as [|c1 s1]; [exact Hnil|].
  rewrite utf8_decode_cons. cbv zeta.
  destruct (N.ltb_spec (Byte.to_N c1) 0x80).
  { apply (Hseq [c1]); [by constructor|]. apply IH. cbn. lia. }
  destruct (N.ltb_spec (Byte.to_N c1) 0xC2).
  { apply (Herr [c1]); [done|]. apply IH. cbn. lia. }
  destruct (N.ltb_spec (Byte.to_N c1) 0xE0).
  { destruct s1 as [|c2 s2].
    - apply (Herr [c1] []); [done|exact Hnil].
    - destruct (is_continuation (Byte.to_N c2)) eqn:E2; cbn [negb].
      + apply (Hseq [c1; c2]); [by constructor|]. apply IH. cbn. lia.
      + apply (Herr [c1]); [done|]. apply IH. cbn. lia. }
  destruct (N.ltb_spec (Byte.to_N c1) 0xF0).
  { destruct s1 as [|c2 s2].
    - apply (Herr [c1] []); [done|exact Hnil].
    - destruct (is_continuation (Byte.to_N c2)) eqn:E2; cbn [negb orb];
        [|apply (Herr [c1]); [done|]; apply IH; cbn; lia].
      destruct (if Byte.to_N c2 <? 160 then _ else _) eqn:E2';
        [apply (Herr [c1]); [done|]; apply IH; cbn; lia|].
      destruct s2 as [|c3 s3].
      + apply (Herr [c1; c2] []); [done|exact Hnil].
      + destruct (is_continuation (Byte.to_N c3)) eqn:E3; cbn [negb].
        * apply (Hseq [c1; c2; c3]); [by constructor|]. apply IH. cbn. lia.
        * apply (Herr [c1; c2]); [done|]. apply IH. cbn. lia. }
  destruct (N.ltb_spec (Byte.to_N c1) 0xF5).
  { destruct s1 as [|c2 s2].
    - apply (Herr [c1] []); [done|exact Hnil].
    - destruct (is_continuation (Byte.to_N c2)) eqn:E2; cbn [negb orb];
        [|apply (Herr [c1]); [done|]; apply IH; cbn; lia].
      destruct (if Byte.to_N c2 <? 144 then _ else _) eqn:E2';
        [apply (Herr [c1]); [done|]; apply IH; cbn; lia|].
      destruct s2 as [|c3 s3].
      + apply (Herr [c1; c2] []); [done|exact Hnil].
      + destruct (is_continuation (Byte.to_N c3)) eqn:E3; cbn [negb];
          [|apply (Herr [c1; c2]); [done|]; apply IH; cbn; lia].
        destruct s3 as [|c4 s4].
        * apply (Herr [c1; c2; c3] []); [done|exact Hnil].
        * destruct (is_continuation (Byte.to_N c4)) eqn:E4; cbn [negb].
          -- apply (Hseq [c1; c2; c3; c4]); [by constructor|].
             apply IH. cbn. lia.
          -- apply (Herr [c1; c2; c3]); [done|]. apply IH. cbn. lia. }
  apply (Herr [c1]); [done|]. apply IH. cbn. lia.
Qed.

(** Under [errors="ignore"] decoding never raises. *)
Lemma utf8_decode_ignore_total s : ∃ r, utf8_decode Ignore s = Ok r.
Proof.
  apply (utf8_decode_ind Ignore (λ _ res, ∃ r, res = Ok r)).
  - eauto.
  - intros _ rest _ [r ->]. eauto.
  - intros _ ch rest _ [r ->]. cbn. eauto.
Qed.

Lemma to_N_inj_at c n c' : Byte.to_N c = n → Byte.of_N n = Some c' → c = c'.
Proof. intros <- H. rewrite Byte.of_to_N in H. congruence. Qed.

(** Only the sequence [EF BF BD] encodes the replacement character. *)
Lemma encodes_replacement seq :
  encodes seq REPLACEMENT_CHARACTER → seq = [xef; xbf; xbd].
Proof.
  unfold REPLACEMENT_CHARACTER, is_continuation.
  inversion 1 as [c1 H1 E|c1 c2 H1 H2 E|c1 c2 c3 H1 H2 H2' H3 E
                 |c1 c2 c3 c4 H1 H2 H2' H3 H4 E]; subst.
  - lia.
  - apply andb_true_iff in H2 as [?%N.leb_le ?%N.ltb_lt]. lia.
  - apply andb_true_iff in H2 as [?%N.leb_le ?%N.ltb_lt].
    apply andb_true_iff in H3 as [?%N.leb_le ?%N.ltb_lt].
    assert (Byte.to_N c1 = 0xEF ∧ Byte.to_N c2 = 0xBF ∧ Byte.to_N c3 = 0xBD)
      as (E1 & E2 & E3) by lia.
    f_equal; [|f_equal; [|f_equal]];
      eapply to_N_inj_at; eauto.
  - apply andb_true_iff in H2 as [?%N.leb_le ?%N.ltb_lt].
    apply andb_true_iff in H3 as [?%N.leb_le ?%N.ltb_lt].
    apply andb_true_iff in H4 as [?%N.leb_le ?%N.ltb_lt].
    destruct (N.ltb_spec (Byte.to_N c2) 0x90);
      [apply N.eqb_neq in H2'|]; lia.
Qed.

(** Under [errors="ignore"] a replacement character in the result was
    spelled out in the input. *)
Lemma utf8_decode_ignore_no_replacement s r :
  utf8_decode Ignore s = Ok r → REPLACEMENT_CHARACTER ∈ r →
  ∃ l1 l2, s = l1 ++ [xef; xbf; xbd] ++ l2.
Proof.
  revert r.
  apply (utf8_decode_ind Ignore
           (λ s res, ∀ r, res = Ok r → REPLACEMENT_CHARACTER ∈ r →
                          ∃ l1 l2, s = l1 ++ [xef; xbf; xbd] ++ l2)).
  - intros r [= <-] []%elem_of_nil.
  - intros span rest _ IH r Hr Hin. cbn in Hr.
    destruct (IH r Hr Hin) as (l1 & l2 & ->).
    exists (span ++ l1), l2. by rewrite <- app_assoc.
  - intros seq ch rest Hseq IH r Hr Hin. unfold emit in Hr.
    destruct (utf8_decode Ignore rest) as [r'|]; [|done].
    cbn in Hr. injection Hr as <-.
    apply elem_of_cons in Hin as [<- | Hin].
    + apply encodes_replacement in Hseq as ->. by exists [], rest.
    + destruct (IH r' eq_refl Hin) as (l1 & l2 & ->).
      exists (seq ++ l1), l2. by rewrite <- app_assoc.
Qed.

(** ** The pieces of the input *)

Lemma pieces_error span rest :
  span ≠ [] →
  (∀ e, utf8_decode e (span ++ rest) = on_error e (utf8_decode e rest)) →
  (∃ ps, rest = concat ps.*1 ∧ Forall piece_ok ps
         ∧ ∀ e, utf8_decode e rest = decode_pieces e ps) →
  ∃ ps, span ++ rest = concat ps.*1 ∧ Forall piece_ok ps
        ∧ ∀ e, utf8_decode e (span ++ rest) = decode_pieces e ps.
Proof.
  intros Hne Heq (ps & Hc & Hok & Hd).
  exists ((span, None) :: ps). split_and!.
  - cbn. by rewrite <- Hc.
  - by constructor.
  - intros e. cbn. by rewrite Heq, Hd.
Qed.

Lemma pieces_sequence seq ch rest :
  encodes seq ch →
  (∀ e, utf8_decode e (seq ++ rest) = emit ch (utf8_decode e rest)) →
  (∃ ps, rest = concat ps.*1 ∧ Forall piece_ok ps
         ∧ ∀ e, utf8_decode e rest = decode_pieces e ps) →
  ∃ ps, seq ++ rest = concat ps.*1 ∧ Forall piece_ok ps
        ∧ ∀ e, utf8_decode e (seq ++ rest) = decode_pieces e ps.
Proof.
  intros Hne Heq (ps & Hc & Hok & Hd).
  exists ((seq, Some ch) :: ps). split_and!.
  - cbn. by rewrite <- Hc.
  - by constructor.
  - intros e. cbn. by rewrite Heq, Hd.
Qed.

Ltac decoded :=
  intros ?; cbn [app]; rewrite utf8_decode_cons; cbv zeta;
  repeat (match goal with
          | H : _ = true |- _ => rewrite H
          | H : _ = false |- _ => rewrite H
          end; cbn [negb orb]);
  reflexivity.

Ltac bounds :=
  repeat match goal with
         | H : (_ <? _) = true |- _ => apply N.ltb_lt in H
         | H : (_ <? _) = false |- _ => apply N.ltb_ge in H
         end.

(** The decoder cuts its input into well-formed sequences and
    undecodable spans, the same for every error handler. *)
Lemma utf8_decode_pieces s :
  ∃ ps, s = concat ps.*1 ∧ Forall piece_ok ps
        ∧ ∀ e, utf8_decode e s = decode_pieces e ps.
Proof.
  induction s as [s IH] using (induction_ltof1 _ (@length byte)).
  unfold ltof in IH.
  destruct s as [|c1 s1]; [by exists []|].
  destruct (Byte.to_N c1 <? 0x80) eqn:E1.
  { apply (pieces_sequence [c1] (Byte.to_N c1));
      [bounds; constructor; done|decoded|apply IH; cbn; lia]. }
  destruct (Byte.to_N c1 <? 0xC2) eqn:E2.
  { apply (pieces_error [c1]); [done|decoded|apply IH; cbn; lia]. }
  destruct (Byte.to_N c1 <? 0xE0) eqn:E3.
  { destruct s1 as [|c2 s2].
    - apply (pieces_error [c1] []); [done|decoded|by exists []].
    - destruct (is_continuation (Byte.to_N c2)) eqn:K2.
      + apply (pieces_sequence [c1; c2] _ s2 ltac:(bounds; constructor; done));
          [decoded|apply IH; cbn; lia].
      + apply (pieces_error [c1]); [done|decoded|apply IH; cbn; lia]. }
  destruct (Byte.to_N c1 <? 0xF0) eqn:E4.
  { destruct s1 as [|c2 s2].
    - apply (pieces_error [c1] []); [done|decoded|by exists []].
    - destruct (is_continuation (Byte.to_N c2)) eqn:K2;
        [|apply (pieces_error [c1]); [done|decoded|apply IH; cbn; lia]].
      destruct (if Byte.to_N c2 <? 160 then Byte.to_N c1 =? 224
                else Byte.to_N c1 =? 237) eqn:K2';
        [apply (pieces_error [c1]); [done|decoded|apply IH; cbn; lia]|].
      destruct s2 as [|c3 s3].
      + apply (pieces_error [c1; c2] []); [done|decoded|by exists []].
      + destruct (is_continuation (Byte.to_N c3)) eqn:K3.
        * apply (pieces_sequence [c1; c2; c3] _ s3
                   ltac:(bounds; constructor; done));
            [decoded|apply IH; cbn; lia].
        * apply (pieces_error [c1; c2]); [done|decoded|apply IH; cbn; lia]. }
  destruct (Byte.to_N c1 <? 0xF5) eqn:E5.
  { destruct s1 as [|c2 s2].
    - apply (pieces_error [c1] []); [done|decoded|by exists []].
    - destruct (is_continuation (Byte.to_N c2)) eqn:K2;
        [|apply (pieces_error [c1]); [done|decoded|apply IH; cbn; lia]].
      destruct (if Byte.to_N c2 <? 144 then Byte.to_N c1 =? 240
                else Byte.to_N c1 =? 244) eqn:K2';
        [apply (pieces_error [c1]); [done|decoded|apply IH; cbn; lia]|].
      destruct s2 as [|c3 s3].
      + apply (pieces_error [c1; c2] []); [done|decoded|by exists []].
      + destruct (is_continuation (Byte.to_N c3)) eqn:K3;
          [|apply (pieces_error [c1; c2]); [done|decoded|apply IH; cbn; lia]].
        destruct s3 as [|c4 s4].
        * apply (pieces_error [c1; c2; c3] []); [done|decoded|by exists []].
        * destruct (is_continuation (Byte.to_N c4)) eqn:K4.
          -- apply (pieces_sequence [c1; c2; c3; c4] _ s4
                      ltac:(bounds; constructor; done));
               [decoded|apply IH; cbn; lia].
          -- apply (pieces_error [c1; c2; c3]);
               [done|decoded|apply IH; cbn; lia]. }
  apply (pieces_error [c1]); [done|decoded|apply IH; cbn; lia].
Qed.

Lemma decode_pieces_ignore ps : decode_pieces Ignore ps = Ok (omap snd ps).
Proof.
  induction ps as [|[bs [ch|]] ps IH]; cbn; [done| |done].
  by rewrite IH.
Qed.

Lemma decode_pieces_replace ps :
  decode_pieces Replace ps
  = Ok ((λ p, default REPLACEMENT_CHARACTER p.2) <$> ps).
Proof. induction ps as [|[bs [ch|]] ps IH]; cbn; [done|..]; by rewrite IH. Qed.

Lemma decode_pieces_strict ps :
  decode_pieces Strict ps
  = if decide (Forall (λ p, is_Some p.2) ps) then Ok (omap snd ps)
    else Raise UnicodeDecodeError.
Proof.
  induction ps as [|[bs [ch|]] ps IH]; cbn.
  - by rewrite decide_True.
  - rewrite IH. destruct (decide (Forall _ ps)) as [H|H].
    + rewrite decide_True; [done|]. constructor; [by eexists|done].
    + rewrite decide_False; [done|]. by intros [_ ?]%Forall_cons.
  - rewrite decide_False; [done|].
    intros [[? [=]] _]%Forall_cons.
Qed.

End Utf8Facts.

Module FuncFacts.

Import provider_re provider_tst codeparser Samples Notions Utf8Facts.

(** C9, as stated, fails: the bytes [61 FF 62] are not valid UTF-8, and
    [Func.code] gives ["ab"], which holds no replacement character. *)
Lemma code_drops_invalid_bytes :
  utf8_decode Strict (code_bytes bad_utf8_func) = Raise UnicodeDecodeError
  ∧ code bad_utf8_func = Ok (u "ab")
  ∧ (REPLACEMENT_CHARACTER ∉ u "ab")
  ∧ utf8_decode Replace (code_bytes bad_utf8_func)
    = Ok [97%N; REPLACEMENT_CHARACTER; 98%N].
Proof.
  split_and!; try (vm_compute; reflexivity).
  intros Hin%list_elem_of_In. vm_compute in Hin. intuition discriminate.
Qed.

(** C9, amended. [Func.code] never raises. The bytes of the function
    are a sequence of pieces, each a well-formed UTF-8 sequence or a
    non-empty undecodable span; [Func.code], which decodes with
    [errors="ignore"], returns the code points of the well-formed
    sequences, in order, and nothing for an undecodable span. The
    pieces are those of the two other handlers: [errors="replace"] gives
    the same code points with U+FFFD for each undecodable span, and
    strict decoding gives the same text when there is no undecodable
    span and raises otherwise. A replacement character in the result was
    encoded in the bytes themselves. *)
Theorem code_never_raises_and_ignores_invalid_bytes (f : Func) :
  ∃ ps : list (bytes * option N),
    code_bytes f = concat ps.*1
    ∧ Forall piece_ok ps
    ∧ code f = Ok (omap snd ps)
    ∧ utf8_decode Replace (code_bytes f)
      = Ok ((λ p, default REPLACEMENT_CHARACTER p.2) <$> ps)
    ∧ utf8_decode Strict (code_bytes f)
      = (if decide (Forall (λ p, is_Some p.2) ps) then Ok (omap snd ps)
         else Raise UnicodeDecodeError)
    ∧ (REPLACEMENT_CHARACTER ∈ omap snd ps →
       ∃ l1 l2, code_bytes f = l1 ++ [xef; xbf; xbd] ++ l2).
Proof.
  destruct (utf8_decode_pieces (code_bytes f)) as (ps & Hc & Hok & Hd).
  exists ps. unfold code. rewrite !Hd.
  split_and!; [done|done|apply decode_pieces_ignore
              |apply decode_pieces_replace|apply decode_pieces_strict|].
  apply utf8_decode_ignore_no_replacement.
  by rewrite Hd, decode_pieces_ignore.
Qed.

Lemma Func_eq_spec self x c1 c2 :
  code self = Ok c1 →
  match x with inl f => code f | inr s => Ok s end = Ok c2 →
  Func_eq self x
  = Ok (bool_decide (remove_whitespace (remove_comments_regex c1)
                     = remove_whitespace (remove_comments_regex c2))).
Proof. intros H1 H2. unfold Func_eq. rewrite H1. cbn. by rewrite H2. Qed.




End FuncFacts.

Module RegexFacts.

Import provider_re Notions.
Local Open Scope N_scope.

(** ** Lengths of matches *)

Lemma line_len_le s : (line_len s ≤ length s)%nat.
Proof. induction s as [|c s IH]; cbn; [lia|]. case_match; lia. Qed.

Lemma block_len_bounds s k :
  block_len s = Some k → (2 ≤ k ≤ length s)%nat.
Proof.
  revert k. induction s as [|c s IH]; intros k; cbn; [done|].
  destruct (_ && _) eqn:E.
  - intros [= <-]. destruct s; [by rewrite andb_false_r in E|]. cbn. lia.
  - destruct (block_len s) as [k'|]; [|done]. intros [= <-].
    specialize (IH k' eq_refl). lia.
Qed.

Lemma quoted_len_bounds q s k :
  quoted_len q s = Some k → (1 ≤ k ≤ length s)%nat.
Proof.
  revert k.
  induction s as [s IH] using (induction_ltof1 _ (@length N)).
  unfold ltof in IH. intros k. destruct s as [|c s]; cbn; [done|].
  destruct (c =? q); [intros [= <-]; lia|].
  destruct (c =? BACKSLASH).
  - destruct s as [|d s]; [done|].
    destruct (quoted_len q s) as [k'|] eqn:E; [|done]. intros [= <-].
    apply IH in E; cbn in *; lia.
  - destruct (quoted_len q s) as [k'|] eqn:E; [|done]. intros [= <-].
    apply IH in E; cbn in *; lia.
Qed.

Lemma rx_match_bounds s n :
  rx_match s = Some n → (2 ≤ n ≤ length s)%nat.
Proof.
  destruct s as [|c s1]; cbn; [done|].
  destruct (c =? SLASH).
  - destruct s1 as [|d s2]; [done|].
    destruct (d =? SLASH).
    + intros [= <-]. pose proof (line_len_le s2). cbn. lia.
    + destruct (d =? STAR); [|done].
      destruct (block_len s2) as [k|] eqn:E; [|done]. intros [= <-].
      apply block_len_bounds in E. cbn. lia.
  - destruct (_ || _); [|done].
    destruct (quoted_len c s1) as [k|] eqn:E; [|done]. intros [= <-].
    apply quoted_len_bounds in E. cbn. lia.
Qed.

(** ** The substitution does not depend on spare fuel *)

Lemma re_sub_fuel f1 f2 s :
  (length s ≤ f1)%nat → (length s ≤ f2)%nat → re_sub f1 s = re_sub f2 s.
Proof.
  revert f2 s. induction f1 as [|f1 IH]; intros f2 s H1 H2.
  - destruct s; [|cbn in H1; lia]. by destruct f2.
  - destruct f2 as [|f2]; [destruct s; [done|cbn in H2; lia]|].
    cbn [re_sub]. destruct s as [|c s1]; [done|].
    destruct (rx_match (c :: s1)) as [n|] eqn:E.
    + f_equal. apply rx_match_bounds in E.
      apply IH; rewrite length_skipn; cbn in *; lia.
    + f_equal. apply IH; cbn in *; lia.
Qed.

Lemma remove_comments_regex_nil : remove_comments_regex [] = [].
Proof. done. Qed.

Lemma remove_comments_regex_cons c s1 :
  remove_comments_regex (c :: s1) =
    match rx_match (c :: s1) with
    | Some n => replacer (firstn n (c :: s1))
                ++ remove_comments_regex (skipn n (c :: s1))
    | None => c :: remove_comments_regex s1
    end.
Proof.
  unfold remove_comments_regex. cbn [length re_sub].
  destruct (rx_match (c :: s1)) as [n|] eqn:E; [|done].
  f_equal. apply rx_match_bounds in E.
  apply re_sub_fuel; rewrite ?length_skipn; cbn in *; lia.
Qed.

(** ** The shape of a match *)

Lemma rx_match_view s : match_view s (rx_match s).
Proof.
  destruct s as [|c s1]; cbn; [constructor|].
  destruct (N.eqb_spec c SLASH) as [->|Hc].
  - destruct s1 as [|d s2]; [by constructor|].
    destruct (N.eqb_spec d SLASH) as [->|Hd]; [constructor|].
    destruct (N.eqb_spec d STAR) as [->|Hd'].
    + destruct (block_len s2) eqn:E; cbn; by constructor.
    + constructor; cbn; congruence.
  - destruct (N.eqb_spec c QUOTE) as [->|Hq]; cbn.
    { destruct (quoted_len _ s1) eqn:E; cbn; constructor; unfold is_quote; auto. }
    destruct (N.eqb_spec c DQUOTE) as [->|Hq']; cbn.
    { destruct (quoted_len _ s1) eqn:E; cbn; constructor; unfold is_quote; auto. }
    constructor; unfold is_quote; [done|tauto].
Qed.

Abbreviation strip := remove_comments_regex.

(** ** The stripper, case by case *)

Lemma strip_line s2 :
  strip (SLASH :: SLASH :: s2) = SPACE :: strip (skipn (line_len s2) s2).
Proof. by rewrite remove_comments_regex_cons. Qed.

Lemma strip_block s2 k :
  block_len s2 = Some k →
  strip (SLASH :: STAR :: s2) = SPACE :: strip (skipn k s2).
Proof. intros E. rewrite remove_comments_regex_cons. cbn. by rewrite E. Qed.

Lemma rx_match_quote q s1 :
  is_quote q → rx_match (q :: s1) = S <$> quoted_len q s1.
Proof. by intros [-> | ->]. Qed.

Lemma strip_quoted q s1 k :
  is_quote q → quoted_len q s1 = Some k →
  strip (q :: s1) = q :: firstn k s1 ++ strip (skipn k s1).
Proof.
  intros Hq E. rewrite remove_comments_regex_cons, rx_match_quote, E by done.
  cbn. by destruct Hq as [-> | ->].
Qed.

Lemma strip_none c s1 :
  rx_match (c :: s1) = None → strip (c :: s1) = c :: strip s1.
Proof. intros E. by rewrite remove_comments_regex_cons, E. Qed.

Lemma rx_match_other c s1 :
  c ≠ SLASH → ¬ is_quote c → rx_match (c :: s1) = None.
Proof.
  intros Hc Hq. pose proof (rx_match_view (c :: s1)) as V.
  inversion V; subst; try done.
Qed.

(** Stripping keeps a first character other than a slash. *)
Lemma strip_head c s1 : c ≠ SLASH → ∃ t, strip (c :: s1) = c :: t.
Proof.
  intros Hc. pose proof (rx_match_view (c :: s1)) as V.
  inversion V as [| | | | |q ? k Hq E|q ? Hq E|]; subst; try done.
  - rewrite (strip_quoted _ _ k) by done. eauto.
  - rewrite strip_none by (by symmetry). eauto.
  - rewrite strip_none by (by symmetry). eauto.
Qed.

Lemma head_strip_slash s :
  head (strip s) = Some SLASH → head s = Some SLASH.
Proof.
  destruct s as [|c s1]; [done|].
  destruct (N.eq_dec c SLASH) as [->|Hc]; [done|].
  destruct (strip_head c s1 Hc) as [t ->]. done.
Qed.

(** ** Block comments: no new closing delimiter *)

Lemma block_len_cons c s :
  block_len (c :: s) =
    if (c =? STAR) && bool_decide (head s = Some SLASH) then Some 2%nat
    else S <$> block_len s.
Proof.
  destruct s as [|d s]; cbn [block_len head].
  - rewrite bool_decide_eq_false_2 by done. by rewrite !andb_false_r.
  - destruct (N.eqb_spec d SLASH) as [->|Hd].
    + by rewrite bool_decide_eq_true_2.
    + rewrite bool_decide_eq_false_2; [done|congruence].
Qed.

Lemma block_len_app_r m s :
  block_len (m ++ s) = None → block_len s = None.
Proof.
  induction m as [|c m IH]; [done|].
  rewrite <- app_comm_cons, block_len_cons.
  destruct (_ && _); [done|].
  destruct (block_len (m ++ s)); [done|]. auto.
Qed.

Lemma block_len_app_l m s :
  block_len (m ++ s) = None → block_len m = None.
Proof.
  induction m as [|c m IH]; [done|].
  rewrite <- app_comm_cons, !block_len_cons. intros H.
  assert (block_len (m ++ s) = None) as E.
  { destruct (block_len (m ++ s)); [|done]. by destruct (_ && _) in H. }
  rewrite (IH E).
  destruct (N.eqb_spec c STAR) as [->|Hc]; cbn [andb] in *; [|reflexivity].
  destruct (bool_decide (head m = _)) eqn:Hh; [|reflexivity]. exfalso.
  apply bool_decide_eq_true in Hh.
  destruct m as [|d m]; [done|]. cbn [app head] in *.
  by rewrite bool_decide_eq_true_2 in H.
Qed.

Lemma block_len_app_None m s :
  block_len m = None → block_len s = None →
  ¬ (last m = Some STAR ∧ head s = Some SLASH) →
  block_len (m ++ s) = None.
Proof.
  induction m as [|c m IH]; [done|].
  rewrite <- app_comm_cons, !block_len_cons. intros Hm Hs Hl.
  destruct m as [|d m].
  - cbn [app head] in *. rewrite Hs.
    destruct (N.eqb_spec c STAR) as [->|Hc]; [|reflexivity]. cbn [andb].
    destruct (bool_decide (head s = _)) eqn:Hh; [|reflexivity].
    apply bool_decide_eq_true in Hh. destruct Hl. done.
  - cbn [app head] in *. destruct (_ && _); [done|].
    destruct (block_len (d :: m)) eqn:E; [cbn in Hm; done|].
    rewrite IH; [reflexivity|done..].
Qed.

Lemma block_len_cons_strip c s1 :
  block_len (c :: s1) = None → block_len (strip s1) = None →
  block_len (c :: strip s1) = None.
Proof.
  rewrite !block_len_cons. intros H1 H2. rewrite H2.
  destruct (N.eqb_spec c STAR) as [->|Hc]; [|reflexivity]. cbn [andb] in *.
  destruct (bool_decide (head (strip s1) = _)) eqn:Hh; [|reflexivity].
  apply bool_decide_eq_true, head_strip_slash in Hh.
  by rewrite bool_decide_eq_true_2 in H1.
Qed.

Lemma quoted_len_cons q c s' :
  quoted_len q (c :: s') =
    if c =? q then Some 1%nat
    else if c =? BACKSLASH then
      match s' with
      | [] => None
      | _ :: s'' => (λ n, S (S n)) <$> quoted_len q s''
      end
    else S <$> quoted_len q s'.
Proof. by destruct s'. Qed.

(** The match of a quoted text ends with its quote. *)
Lemma quoted_len_firstn q s k :
  quoted_len q s = Some k → ∃ body, firstn k s = body ++ [q].
Proof.
  revert k. induction s as [s IH] using (induction_ltof1 _ (@length N)).
  unfold ltof in IH. intros k. destruct s as [|c s']; [done|].
  rewrite quoted_len_cons.
  destruct (N.eqb_spec c q) as [->|Hc]; [intros [= <-]; by exists []|].
  destruct (c =? BACKSLASH).
  - destruct s' as [|d s'']; [done|].
    destruct (quoted_len q s'') as [k'|] eqn:E; [|done]. intros [= <-].
    destruct (IH s'' ltac:(cbn; lia) k' E) as [body Hb].
    exists (c :: d :: body). cbn. by rewrite Hb.
  - destruct (quoted_len q s') as [k'|] eqn:E; [|done]. intros [= <-].
    destruct (IH s' ltac:(cbn; lia) k' E) as [body Hb].
    exists (c :: body). cbn. by rewrite Hb.
Qed.

(** The match of a quoted text depends on the matched text only. *)
Lemma quoted_len_app q s k t :
  quoted_len q s = Some k → quoted_len q (firstn k s ++ t) = Some k.
Proof.
  revert k. induction s as [s IH] using (induction_ltof1 _ (@length N)).
  unfold ltof in IH. intros k. destruct s as [|c s']; [done|].
  rewrite quoted_len_cons.
  destruct (N.eqb_spec c q) as [->|Hc].
  { intros [= <-]. cbn [firstn app]. rewrite quoted_len_cons.
    by rewrite N.eqb_refl. }
  destruct (c =? BACKSLASH) eqn:Eb.
  - destruct s' as [|d s'']; [done|].
    destruct (quoted_len q s'') as [k'|] eqn:E; [|done]. intros [= <-].
    cbn [firstn app]. rewrite quoted_len_cons.
    rewrite (proj2 (N.eqb_neq c q) Hc), Eb.
    by rewrite (IH s'' ltac:(cbn; lia) k' E).
  - destruct (quoted_len q s') as [k'|] eqn:E; [|done]. intros [= <-].
    cbn [firstn app]. rewrite quoted_len_cons.
    rewrite (proj2 (N.eqb_neq c q) Hc), Eb.
    by rewrite (IH s' ltac:(cbn; lia) k' E).
Qed.

Lemma block_len_firstn s k :
  block_len s = Some k → ∃ pre, firstn k s = pre ++ [STAR; SLASH].
Proof.
  revert k. induction s as [|c s IH]; intros k; [done|].
  rewrite block_len_cons.
  destruct (N.eqb_spec c STAR) as [->|Hc]; cbn [andb].
  - case_bool_decide as Hh.
    + intros [= <-]. destruct s as [|d s]; [done|]. cbn in Hh.
      injection Hh as ->. by exists [].
    + destruct (block_len s) as [k'|]; [|done]. intros [= <-].
      destruct (IH k' eq_refl) as [pre Hp]. exists (STAR :: pre).
      cbn. by rewrite Hp.
  - destruct (block_len s) as [k'|]; [|done]. intros [= <-].
    destruct (IH k' eq_refl) as [pre Hp]. exists (c :: pre).
    cbn. by rewrite Hp.
Qed.

Lemma line_len_skipn s :
  skipn (line_len s) s = [] ∨ ∃ t, skipn (line_len s) s = NEWLINE :: t.
Proof.
  induction s as [|c s IH]; [by left|]. cbn.
  destruct (N.eqb_spec c NEWLINE) as [->|Hc]; cbn; eauto.
Qed.

(** ** Quoted texts: no new closing quote *)

Lemma closes_plain q esc c s :
  c ≠ q → c ≠ BACKSLASH → closes q esc (c :: s) = closes q false s.
Proof.
  intros Hq Hb. cbn. destruct esc; [done|].
  by rewrite (proj2 (N.eqb_neq c q) Hq), (proj2 (N.eqb_neq c _) Hb).
Qed.

Lemma closes_app q esc m s :
  closes q esc (m ++ s) = closes q esc m || closes q (after esc m) s.
Proof.
  revert esc. induction m as [|c m IH]; intros esc; [done|].
  cbn. destruct esc; cbn [negb andb]; [apply IH|].
  destruct (c =? q); [done|]. destruct (c =? BACKSLASH); apply IH.
Qed.

Lemma after_snoc esc m c : c ≠ BACKSLASH → after esc (m ++ [c]) = false.
Proof.
  intros Hc. revert esc. induction m as [|d m IH]; intros esc; cbn.
  - rewrite (proj2 (N.eqb_neq c _) Hc). by rewrite andb_false_r.
  - apply IH.
Qed.

Lemma quoted_len_closes q s :
  q ≠ BACKSLASH →
  quoted_len q s = None ↔ closes q false s = false.
Proof.
  intros Hq. induction s as [s IH] using (induction_ltof1 _ (@length N)).
  unfold ltof in IH. destruct s as [|c s']; [done|].
  rewrite quoted_len_cons. cbn [closes].
  destruct (N.eqb_spec c q) as [->|Hc]; [done|].
  destruct (c =? BACKSLASH).
  - destruct s' as [|d s'']; cbn [closes]; [done|].
    rewrite <- IH by (cbn; lia). apply fmap_None.
  - rewrite <- IH by (cbn; lia). apply fmap_None.
Qed.

Lemma is_quote_ne q :
  is_quote q → q ≠ BACKSLASH ∧ q ≠ SPACE ∧ q ≠ NEWLINE ∧ q ≠ SLASH ∧ q ≠ STAR.
Proof. intros [-> | ->]; repeat split; discriminate. Qed.

Lemma rx_match_cases s :
  s = []
  ∨ (∃ s2, s = SLASH :: SLASH :: s2)
  ∨ (∃ s2 k, s = SLASH :: STAR :: s2 ∧ block_len s2 = Some k)
  ∨ (∃ s2, s = SLASH :: STAR :: s2 ∧ block_len s2 = None
           ∧ rx_match s = None)
  ∨ (∃ s1, s = SLASH :: s1 ∧ head s1 ≠ Some SLASH ∧ head s1 ≠ Some STAR
           ∧ rx_match s = None)
  ∨ (∃ q s1 k, s = q :: s1 ∧ is_quote q ∧ quoted_len q s1 = Some k)
  ∨ (∃ q s1, s = q :: s1 ∧ is_quote q ∧ quoted_len q s1 = None
             ∧ rx_match s = None)
  ∨ (∃ c s1, s = c :: s1 ∧ c ≠ SLASH ∧ ¬ is_quote c ∧ rx_match s = None).
Proof.
  pose proof (rx_match_view s) as V. inversion V; subst.
  - by left.
  - right; left. eauto.
  - do 2 right; left. eauto.
  - do 3 right; left. eauto.
  - do 4 right; left. eauto 10.
  - do 5 right; left. eauto 10.
  - do 6 right; left. eauto 10.
  - do 7 right. eauto 10.
Qed.

Ltac view s :=
  destruct (rx_match_cases s)
    as [-> | [(s2 & ->) | [(s2 & k & -> & Hk) | [(s2 & -> & Hk & E)
       | [(s1 & -> & Hs & Hs' & E) | [(q & s1 & k & -> & Hq & Hk)
       | [(q & s1 & -> & Hq & Hk & E) | (c & s1 & -> & Hc & Hq & E)]]]]]]].

(** Stripping creates no [*/]. *)
Lemma strip_block_len_None s :
  block_len s = None → block_len (strip s) = None.
Proof.
  induction s as [s IH] using (induction_ltof1 _ (@length N)).
  unfold ltof in IH. intros H. view s.
  - done.
  - rewrite strip_line, block_len_cons. cbn [N.eqb Pos.eqb SPACE STAR andb].
    rewrite IH; [reflexivity| |].
    + pose proof (line_len_le s2). rewrite length_skipn. cbn. lia.
    + apply (block_len_app_r (SLASH :: SLASH :: firstn (line_len s2) s2)).
      by rewrite <- !app_comm_cons, firstn_skipn.
  - exfalso. rewrite !block_len_cons, Hk in H. cbn [N.eqb Pos.eqb SLASH STAR andb] in H.
    by destruct (bool_decide _).
  - rewrite strip_none by done.
    apply block_len_cons_strip; [done|].
    rewrite (strip_none STAR) by reflexivity.
    apply (block_len_app_r [SLASH]) in H.
    apply block_len_cons_strip; [done|].
    apply IH; [cbn; lia|]. by apply (block_len_app_r [STAR]).
  - rewrite strip_none by done.
    apply block_len_cons_strip; [done|].
    apply IH; [cbn; lia|]. by apply (block_len_app_r [SLASH]).
  - rewrite (strip_quoted _ _ k) by done.
    pose proof (quoted_len_bounds _ _ _ Hk).
    rewrite <- (firstn_skipn k s1), app_comm_cons in H.
    rewrite app_comm_cons. apply block_len_app_None.
    + by apply block_len_app_l in H.
    + apply IH; [rewrite length_skipn; cbn; lia|].
      by apply block_len_app_r in H.
    + destruct (quoted_len_firstn _ _ _ Hk) as [body ->].
      rewrite app_comm_cons, last_snoc.
      destruct (is_quote_ne q Hq) as (? & ? & ? & ? & ?).
      intros [[= ?] _]. done.
  - rewrite strip_none by done.
    apply block_len_cons_strip; [done|].
    apply IH; [cbn; lia|]. by apply (block_len_app_r [q]).
  - rewrite strip_none by done.
    apply block_len_cons_strip; [done|].
    apply IH; [cbn; lia|]. by apply (block_len_app_r [c]).
Qed.

(** A text where nothing matches at the head, or a quoted text matches:
    the matched part [m] is copied. *)
Lemma closes_strip_copy q esc m t :
  closes q esc (m ++ t) = false →
  (∀ esc', closes q esc' t = false → closes q esc' (strip t) = false) →
  closes q esc (m ++ strip t) = false.
Proof.
  rewrite !closes_app. intros [H1 H2]%orb_false_iff IH.
  rewrite H1. cbn. by apply IH.
Qed.

(** Stripping creates no closing quote. *)
Lemma closes_strip p esc s :
  is_quote p → closes p esc s = false → closes p esc (strip s) = false.
Proof.
  intros Hquote. destruct (is_quote_ne p Hquote) as (Nb & Nsp & Nnl & Nsl & Nst).
  revert esc. induction s as [s IH] using (induction_ltof1 _ (@length N)).
  unfold ltof in IH. intros esc Hcl. view s.
  - done.
  - rewrite strip_line, closes_plain by done.
    rewrite <- (firstn_skipn (line_len s2) s2), !app_comm_cons in Hcl.
    rewrite closes_app in Hcl. apply orb_false_iff in Hcl as [_ Hcl].
    pose proof (line_len_le s2).
    destruct (line_len_skipn s2) as [-> | [t Ht]]; [done|].
    rewrite Ht in *. rewrite closes_plain in Hcl by done.
    rewrite (strip_none NEWLINE) by reflexivity.
    rewrite closes_plain by done. apply IH; [|done].
    apply (f_equal length) in Ht. rewrite length_skipn in Ht.
    cbn in *. lia.
  - rewrite (strip_block _ k), closes_plain by done.
    pose proof (block_len_bounds _ _ Hk).
    rewrite <- (firstn_skipn k s2), !app_comm_cons in Hcl.
    rewrite closes_app in Hcl. apply orb_false_iff in Hcl as [_ Hcl].
    destruct (block_len_firstn _ _ Hk) as [pre Hpre].
    rewrite Hpre in Hcl.
    replace (SLASH :: STAR :: pre ++ [STAR; SLASH])
      with ((SLASH :: STAR :: pre ++ [STAR]) ++ [SLASH]) in Hcl
      by (by rewrite <- !app_comm_cons, <- app_assoc).
    rewrite after_snoc in Hcl by done.
    apply IH; [|done]. rewrite length_skipn. cbn. lia.
  - rewrite strip_none by done.
    apply (closes_strip_copy p esc [SLASH]); [done|].
    intros esc'. apply IH. cbn. lia.
  - rewrite strip_none by done.
    apply (closes_strip_copy p esc [SLASH]); [done|].
    intros esc'. apply IH. cbn. lia.
  - rewrite (strip_quoted _ _ k) by done.
    pose proof (quoted_len_bounds _ _ _ Hk).
    rewrite <- (firstn_skipn k s1), app_comm_cons in Hcl.
    rewrite app_comm_cons. apply closes_strip_copy; [done|].
    intros esc'. apply IH. rewrite length_skipn. cbn. lia.
  - rewrite strip_none by done.
    apply (closes_strip_copy p esc [q]); [done|].
    intros esc'. apply IH. cbn. lia.
  - rewrite strip_none by done.
    apply (closes_strip_copy p esc [c]); [done|].
    intros esc'. apply IH. cbn. lia.
Qed.

(** Where nothing matched before stripping the rest, nothing matches
    after. *)
Lemma rx_match_None_strip a r :
  rx_match (a :: r) = None → rx_match (a :: strip r) = None.
Proof.
  intros H. remember (a :: r) as s eqn:Es. view s; try discriminate Es;
    injection Es as <- <-.
  - done.
  - cbn in H. by rewrite Hk in H.
  - rewrite (strip_none STAR) by reflexivity.
    cbn. by rewrite strip_block_len_None.
  - destruct s1 as [|d s2]; [done|].
    assert (d ≠ SLASH) as Hd by (cbn in Hs; congruence).
    assert (d ≠ STAR) as Hd' by (cbn in Hs'; congruence).
    destruct (strip_head d s2 Hd) as [t ->]. cbn.
    by rewrite (proj2 (N.eqb_neq d _) Hd), (proj2 (N.eqb_neq d _) Hd').
  - by rewrite rx_match_quote, Hk in H.
  - rewrite rx_match_quote by done.
    destruct (is_quote_ne q Hq) as (? & _).
    apply fmap_None, quoted_len_closes; [done|].
    apply closes_strip; [done|]. by apply quoted_len_closes.
  - by apply rx_match_other.
Qed.

(** The regular-expression stripper is idempotent. *)
Lemma remove_comments_regex_idempotent s :
  remove_comments_regex (remove_comments_regex s) = remove_comments_regex s.
Proof.
  induction s as [s IH] using (induction_ltof1 _ (@length N)).
  unfold ltof in IH. view s.
  - done.
  - rewrite strip_line, (strip_none SPACE) by reflexivity.
    pose proof (line_len_le s2).
    rewrite IH; [done|]. rewrite length_skipn. cbn. lia.
  - rewrite (strip_block _ k), (strip_none SPACE) by done.
    pose proof (block_len_bounds _ _ Hk).
    rewrite IH; [done|]. rewrite length_skipn. cbn. lia.
  - rewrite strip_none by done.
    rewrite strip_none by (by apply rx_match_None_strip).
    rewrite IH; [done|]. cbn. lia.
  - rewrite strip_none by done.
    rewrite strip_none by (by apply rx_match_None_strip).
    rewrite IH; [done|]. cbn. lia.
  - rewrite (strip_quoted _ _ k) by done.
    pose proof (quoted_len_bounds _ _ _ Hk).
    rewrite (strip_quoted _ _ k); [|done|by apply quoted_len_app].
    assert (length (firstn k s1) = k) as Hlen by (rewrite length_firstn; lia).
    rewrite take_app_length', drop_app_length' by done.
    rewrite IH; [done|]. rewrite length_skipn. cbn. lia.
  - rewrite strip_none by done.
    rewrite strip_none by (by apply rx_match_None_strip).
    rewrite IH; [done|]. cbn. lia.
  - rewrite strip_none by done.
    rewrite strip_none by (by apply rx_match_None_strip).
    rewrite IH; [done|]. cbn. lia.
Qed.

End RegexFacts.

Module TreeStripFacts.

Import provider_tst codeparser Notions.
Local Open Scope nat_scope.

(** ** Slices and newline counts *)

Lemma count_nl_app s t : count_nl (s ++ t) = count_nl s + count_nl t.
Proof. unfold count_nl. by rewrite filter_app, length_app. Qed.

Lemma count_nl_repeat k : count_nl (repeat x0a k) = k.
Proof.
  unfold count_nl. induction k as [|k IH]; [done|].
  cbn [repeat]. rewrite filter_cons_True by done. cbn. by rewrite IH.
Qed.

Lemma drop_slice {A} (s : list A) a c :
  a ≤ c → drop a s = slice s a c ++ drop c s.
Proof.
  intros H. unfold slice.
  replace c with (a + (c - a)) at 2 by lia.
  by rewrite <- drop_drop, take_drop.
Qed.

Lemma slice_split {A} (s : list A) a c d :
  a ≤ c → c ≤ d → slice s a d = slice s a c ++ slice s c d.
Proof.
  intros H1 H2. unfold slice.
  replace (d - a) with ((c - a) + (d - c)) by lia.
  rewrite <- take_take_drop. do 2 f_equal.
  rewrite drop_drop. f_equal. lia.
Qed.

Lemma slice_0 {A} (s : list A) i : slice s 0 i = take i s.
Proof. unfold slice. by rewrite Nat.sub_0_r. Qed.

Lemma slice_lookup {A} (s : list A) a c i x :
  a ≤ i → i < c → s !! i = Some x → slice s a c !! (i - a) = Some x.
Proof.
  intros H1 H2 Hx. unfold slice.
  rewrite lookup_take_lt by lia. rewrite lookup_drop.
  by replace (a + (i - a)) with i by lia.
Qed.

Lemma slice_take {A} (s : list A) a c i :
  a ≤ i → i ≤ c → take (i - a) (slice s a c) = slice s a i.
Proof.
  intros H1 H2. unfold slice. rewrite take_take. f_equal. lia.
Qed.

(** ** The loop and its closed form *)

Lemma rebuild_copy_and_blank code spans okcode last :
  rebuild code spans okcode last = okcode ++ copy_and_blank code last spans.
Proof.
  revert okcode last. induction spans as [|[s e] rest IH];
    intros okcode last; cbn; [done|].
  by rewrite IH, <- !app_assoc.
Qed.

Lemma chain_weaken lo lo' hi hi' spans :
  lo' ≤ lo → hi ≤ hi' → chain lo hi spans → chain lo' hi' spans.
Proof.
  revert lo lo'. induction spans as [|[s e] rest IH]; intros lo lo' H1 H2;
    cbn; [lia|].
  intros (? & ? & ?). split_and!; [lia..|]. by apply (IH e).
Qed.

Lemma chain_app lo mid hi l1 l2 :
  chain lo mid l1 → chain mid hi l2 → chain lo hi (l1 ++ l2).
Proof.
  revert lo. induction l1 as [|[s e] rest IH]; intros lo; cbn.
  - intros H1 H2. by apply (chain_weaken mid lo hi hi).
  - intros (? & ? & ?) H2. split_and!; [done..|]. by apply IH.
Qed.

Lemma chain_le lo hi spans : chain lo hi spans → lo ≤ hi.
Proof.
  revert lo. induction spans as [|[s e] rest IH]; intros lo; cbn; [done|].
  intros (? & ? & H%IH). lia.
Qed.

(** The newlines of the text from [last] on are kept. *)
Lemma copy_and_blank_count_nl code last hi spans :
  chain last hi spans →
  count_nl (copy_and_blank code last spans) = count_nl (drop last code).
Proof.
  revert last. induction spans as [|[s e] rest IH]; intros last;
    cbn [chain copy_and_blank]; [done|].
  intros (H1 & H2 & H3).
  rewrite !count_nl_app, count_nl_repeat, (IH e H3).
  rewrite (drop_slice code last s H1), (drop_slice code s e H2).
  by rewrite !count_nl_app.
Qed.

(** A byte outside the comments is copied, and as many newlines stand
    before it in the result as in the text. *)
Lemma copy_and_blank_position code last hi spans i c :
  chain last hi spans → last ≤ i → code !! i = Some c → outside i spans →
  ∃ j, copy_and_blank code last spans !! j = Some c
       ∧ count_nl (take j (copy_and_blank code last spans))
         = count_nl (slice code last i).
Proof.
  revert last. induction spans as [|[s e] rest IH]; intros last;
    cbn [chain copy_and_blank].
  - intros _ Hl Hc _. exists (i - last). split.
    + rewrite lookup_drop. by replace (last + (i - last)) with i by lia.
    + done.
  - intros (H1 & H2 & H3) Hl Hc Ho.
    apply Forall_cons in Ho as [Hi Ho]. cbn in Hi.
    pose proof (lookup_lt_Some _ _ _ Hc) as Hlen.
    destruct (decide (i < s)) as [Hlt|Hge].
    + exists (i - last).
      assert (i - last < length (slice code last s)) as Hin.
      { unfold slice. rewrite length_take, length_drop. lia. }
      split.
      * rewrite lookup_app_l by done. by apply slice_lookup.
      * rewrite take_app_le by lia. rewrite slice_take by lia. done.
    + assert (e ≤ i) as He by lia.
      destruct (IH e H3 He Hc Ho) as (j & Hj & Hn).
      set (A := slice code last s) in *.
      set (B := repeat x0a (count_nl (slice code s e))) in *.
      exists (length A + (length B + j)). split.
      * rewrite lookup_app_r by lia.
        replace (length A + (length B + j) - length A)
          with (length B + j) by lia.
        rewrite lookup_app_r by lia.
        by replace (length B + j - length B) with j by lia.
      * rewrite take_app_add', take_app_add' by done.
        rewrite !count_nl_app, Hn. unfold B. rewrite count_nl_repeat.
        rewrite (slice_split code last s i), (slice_split code s e i) by lia.
        by rewrite !count_nl_app.
Qed.

(** ** Spans of a well-formed tree *)

Lemma Node_ind' (P : Node → Prop) :
  (∀ ty s e f cs, Forall P cs → P (mkNode ty s e f cs)) → ∀ n, P n.
Proof.
  intros H. fix IH 1. intros [ty s e f cs]. apply H.
  induction cs as [|c cs IHcs]; constructor; [apply IH|apply IHcs].
Qed.

Lemma comment_spans_chain n :
  well_formed n = true →
  chain (start_byte n) (end_byte n) (comment_spans n).
Proof.
  induction n as [ty s e f cs IH] using Node_ind'.
  cbn [well_formed comment_spans start_byte end_byte type].
  intros [[Hse%Nat.leb_le Hleaf]%andb_true_iff Hcs]%andb_true_iff.
  destruct (bool_decide (ty ∈ COMMENT_TYPES)) eqn:Hty.
  - destruct cs; [|done]. cbn [andb].
    destruct (Nat.ltb_spec s e); cbn; lia.
  - cbn [andb app]. clear Hleaf Hty.
    clear Hse. revert Hcs. generalize s. clear s.
    induction cs as [|c cs IHcs]; intros lo; [by intros ?%Nat.leb_le|].
    intros [[H1%Nat.leb_le H2]%andb_true_iff H3]%andb_true_iff.
    apply Forall_cons in IH as [IHc IH].
    apply (chain_app _ (end_byte c)); [|by apply IHcs].
    apply (chain_weaken (start_byte c) lo (end_byte c) (end_byte c));
      [done..|]. by apply IHc.
Qed.

End TreeStripFacts.

Module CommentFacts.

Import provider_re provider_tst codeparser Samples Notions.
Import RegexFacts TreeStripFacts.
Local Open Scope nat_scope.

Lemma remove_comments_ast_supported {TS : TreeSitter} code lang l :
  get_language lang = Ok l →
  remove_comments_ast code lang
  = Ok (copy_and_blank code 0 (comment_spans (ts_parse l code))).
Proof.
  intros Hl. unfold remove_comments_ast, parse_ast, get_parser.
  rewrite Hl. cbn. unfold remove_comments_tree.
  by rewrite rebuild_copy_and_blank.
Qed.

(** C6. On a supported language, for a well-formed tree, the
    tree-accurate stripper returns a text that has as many newlines as
    the input, that is made of the ranges between the comments, copied,
    and of the newlines of each comment, and in which every byte that
    lies outside the comments stands on the line it stood on. *)
Theorem remove_comments_ast_keeps_lines {TS : TreeSitter} code lang l :
  get_language lang = Ok l →
  well_formed (ts_parse l code) = true →
  ∃ out,
    remove_comments_ast code lang = Ok out
    ∧ count_nl out = count_nl code
    ∧ out = copy_and_blank code 0 (comment_spans (ts_parse l code))
    ∧ ∀ i c, code !! i = Some c →
             outside i (comment_spans (ts_parse l code)) →
             ∃ j, out !! j = Some c
                  ∧ count_nl (take j out) = count_nl (take i code).
Proof.
  intros Hl Hwf. eexists. split; [by apply remove_comments_ast_supported|].
  apply comment_spans_chain in Hwf.
  apply (chain_weaken _ 0 _ (end_byte (ts_parse l code))) in Hwf; [|lia..].
  split_and!; [|done|].
  - by rewrite (copy_and_blank_count_nl _ _ _ _ Hwf).
  - intros i c Hc Ho.
    destruct (copy_and_blank_position code 0 _ _ i c Hwf ltac:(lia) Hc Ho)
      as (j & Hj & Hn).
    exists j. by rewrite Hn, slice_0.
Qed.

Lemma remove_comments_ast_keeps_lines_witness :
  get_language "C" = Ok tree_sitter_c
  ∧ well_formed (ts_parse (TreeSitter := sample_parser)
                          tree_sitter_c commented_src) = true
  ∧ ∃ out,
      remove_comments_ast (TS := sample_parser) commented_src "C" = Ok out
      ∧ count_nl out = count_nl commented_src.
Proof.
  split; [reflexivity|]. split; [vm_compute; reflexivity|].
  destruct (remove_comments_ast_keeps_lines (TS := sample_parser)
              commented_src "C" tree_sitter_c)
    as (out & H1 & H2 & _); [reflexivity|vm_compute; reflexivity|].
  exists out. by split.
Defined.

End CommentFacts.

Module AbstractionFacts.

Import provider_tst codeparser Samples Notions TreeStripFacts.
Local Open Scope nat_scope.

(** ** The loop body, branch by branch *)

Section Visit.
Context {KS : KnownSymbols}.
Variables (P : Policy) (st : State) (n p : NodeRef).
Hypothesis Hp : parent n = Some p.

Ltac branch :=
  unfold visit, classify; rewrite Hp; cbv zeta;
  repeat (match goal with
          | |- context [if ?c then _ else _] =>
              lazymatch c with
              | context [abstract_fname] => fail
              | context [abstract_fparam] => fail
              | context [abstract_lvar] => fail
              | context [abstract_field] => fail
              | context [abstract_label] => fail
              | context [abstract_type] => fail
              | context [abstract_literal] => fail
              | context [abstract_func_call] => fail
              | context [abstract_gsym] => fail
              | _ => destruct c eqn:?
              end
          end; try discriminate).

Lemma visit_FNAME :
  classify n p = FNAME →
  visit P st n =
    if (abstract_fname P =? 0)%Z then Ok (append (text n) st)
    else Ok (append (b "FNAME") st).
Proof. branch; done. Qed.

Lemma visit_LVAR :
  classify n p = LVAR →
  visit P st n =
    if (abstract_lvar P =? 0)%Z then Ok (append (text n) st)
    else if (abstract_lvar P =? ABST_WITH_NUM)%Z then
      let '(v, st) := alloc_number "LVAR" st in
      Ok (append v (set_lvar (text n) v st))
    else Ok (append (b "LVAR") (set_lvar (text n) (b "LVAR") st)).
Proof. branch; done. Qed.

Lemma visit_FPARAM :
  classify n p = FPARAM →
  visit P st n =
    if (abstract_fparam P =? 0)%Z then Ok (append (text n) st)
    else if (abstract_fparam P =? ABST_WITH_NUM)%Z then
      let '(v, st) := alloc_number "FPARAM" st in
      Ok (append v (set_lvar (text n) v st))
    else Ok (append (b "FPARAM") (set_lvar (text n) (b "FPARAM") st)).
Proof. branch; done. Qed.

Lemma visit_FIELD :
  classify n p = FIELD →
  visit P st n =
    if (abstract_field P =? 0)%Z then Ok (append (text n) st)
    else if (abstract_lvar P =? ABST_WITH_NUM)%Z then
      match field_map st !! text n with
      | Some v => Ok (append v st)
      | None =>
        let '(v, st) := alloc_number "FIELD" st in
        Ok (append v (set_field (text n) v st))
      end
    else Ok (append (b "FIELD") (set_field (text n) (b "FIELD") st)).
Proof. branch; done. Qed.

Lemma visit_LABEL_DEF :
  classify n p = LABEL_DEF →
  visit P st n =
    if (abstract_label P =? 0)%Z then Ok (append (text n) st)
    else if (abstract_lvar P =? ABST_WITH_NUM)%Z then
      let '(v, st) := alloc_number "LABEL" st in
      Ok (append v (set_label (text n) v st))
    else Ok (append (b "LABEL") st).
Proof. branch; done. Qed.

Lemma visit_LABEL_REF :
  classify n p = LABEL_REF →
  visit P st n =
    if (abstract_label P =? 0)%Z then Ok st
    else if (abstract_lvar P =? ABST_WITH_NUM)%Z then
      match label_map st !! text n with
      | Some v => Ok (append v st)
      | None =>
        let '(v, st) := alloc_number "LABEL" st in
        Ok (append v (set_label (text n) v st))
      end
    else Ok (append (b "LABEL") st).
Proof. branch; done. Qed.

Lemma visit_VTYPE :
  classify n p = VTYPE →
  visit P st n =
    if (abstract_type P =? 0)%Z then Ok (append (text n) st)
    else if (abstract_type P =? ABST_WITH_NUM)%Z then
      match vtype_map st !! text n with
      | Some v => Ok (append v st)
      | None =>
        let '(v, st) := alloc_number "VTYPE" st in
        Ok (append v (set_vtype (text n) v st))
      end
    else Ok (append (b "VTYPE") st).
Proof. branch; done. Qed.

Lemma visit_LITERAL :
  classify n p = LITERAL →
  visit P st n =
    if (abstract_literal P =? 0)%Z then Ok (append (text n) st)
    else if bool_decide (type (node n) ∈ [ "concatenated_string";
                                           "string_literal";
                                           "char_literal" ])
    then Ok (append (b "STR") st)
    else Ok (append (b "NUM") st).
Proof. branch; done. Qed.

Lemma visit_CALL :
  classify n p = CALL →
  visit P st n =
    if (abstract_func_call P =? 0)%Z then Ok (append (text n) st)
    else if negb (Z.land (abstract_func_call P) ABST_WITH_NUM =? 0)%Z then
      Raise NotImplementedError
    else if negb (Z.land (abstract_func_call P) ABST_NON_SYS =? 0)%Z then
      Ok (append (if bool_decide (text n ∈ SYS_FUNC) then text n
                  else b "FCALL") st)
    else Ok (append (b "FCALL") st).
Proof. branch; done. Qed.

Lemma visit_IDENT :
  classify n p = IDENT →
  visit P st n =
    match lvar_map st !! text n with
    | Some v => Ok (append v st)
    | None =>
      if negb (abstract_gsym P =? 0)%Z then
        if (abstract_gsym P =? ABST_WITH_NUM)%Z then
          match symbol_map st !! text n with
          | Some v => Ok (append v st)
          | None =>
            let '(v, st) := alloc_number "GSYM" st in
            Ok (append v (set_symbol (text n) v st))
          end
        else Ok (append (b "GSYM") st)
      else Ok (append (text n) st)
    end.
Proof. branch; done. Qed.

Lemma visit_DROPPED : classify n p = DROPPED → visit P st n = Ok st.
Proof. branch; done. Qed.

Lemma visit_OTHER :
  classify n p = OTHER → visit P st n = Ok (append (text n) st).
Proof. branch; done. Qed.

(** A node is dropped only if it is a comment or one of the seven
    keywords. *)
Lemma classify_DROPPED :
  classify n p = DROPPED →
  contains "comment" (type (node n)) = true
  ∨ type (node n) ∈ DROPPED_KEYWORDS.
Proof.
  unfold classify. cbv zeta.
  repeat (match goal with
          | |- context [if ?c then _ else _] => destruct c eqn:?
          end; try discriminate).
  intros _.
  match goal with
  | H : _ || _ = true |- _ =>
      apply orb_true_iff in H as [?|?%bool_decide_eq_true]; auto
  end.
Qed.

End Visit.

Lemma visit_no_parent {KS : KnownSymbols} P st n :
  parent n = None → visit P st n = Raise AttributeError.
Proof. intros H. unfold visit. by rewrite H. Qed.

Lemma category_of_Some n c :
  category_of n = Some c ↔ ∃ p, parent n = Some p ∧ classify n p = c.
Proof.
  unfold category_of. destruct (parent n) as [p|]; cbn.
  - split; [intros [= <-]; eauto|]. by intros (? & [= <-] & <-).
  - split; [done|]. by intros (? & ? & ?).
Qed.

(** Only the call branch raises, and only when the bit of
    [ABST_WITH_NUM] is set. *)
Lemma visit_Ok {KS : KnownSymbols} P st n :
  is_Some (parent n) →
  category_of n ≠ Some CALL
  ∨ Z.land (abstract_func_call P) ABST_WITH_NUM = 0%Z →
  ∃ st', visit P st n = Ok st'.
Proof.
  intros [p Hp] Hc. unfold category_of in Hc. rewrite Hp in Hc. cbn in Hc.
  destruct (classify n p) eqn:E.
  - rewrite (visit_FNAME _ _ _ _ Hp E). case_match; eauto.
  - rewrite (visit_FPARAM _ _ _ _ Hp E). repeat case_match; eauto.
  - rewrite (visit_LVAR _ _ _ _ Hp E). repeat case_match; eauto.
  - rewrite (visit_FIELD _ _ _ _ Hp E). repeat case_match; eauto.
  - rewrite (visit_LABEL_DEF _ _ _ _ Hp E). repeat case_match; eauto.
  - rewrite (visit_LABEL_REF _ _ _ _ Hp E). repeat case_match; eauto.
  - rewrite (visit_VTYPE _ _ _ _ Hp E). repeat case_match; eauto.
  - rewrite (visit_LITERAL _ _ _ _ Hp E). repeat case_match; eauto.
  - rewrite (visit_CALL _ _ _ _ Hp E).
    destruct Hc as [Hc|Hc]; [done|]. rewrite Hc. cbn.
    repeat case_match; eauto.
  - rewrite (visit_IDENT _ _ _ _ Hp E). repeat case_match; eauto.
  - rewrite (visit_DROPPED _ _ _ _ Hp E). eauto.
  - rewrite (visit_OTHER _ _ _ _ Hp E). eauto.
Qed.

(** ** The traversal *)

(** A yielded node is accepted by [ret]; it is the start node or it has
    a parent. *)
Lemma traverse_node_spec descend ret code anc nd n :
  n ∈ traverse_node descend ret code anc nd →
  ret n = true ∧ (n = mkRef code nd anc ∨ is_Some (parent n)).
Proof.
  revert anc. induction nd as [ty s e f cs IH] using Node_ind'.
  intros anc. cbn [traverse_node].
  set (this := mkRef code (mkNode ty s e f cs) anc).
  rewrite elem_of_app. intros [Hin|Hin].
  - destruct (ret this) eqn:Hr; [|by apply elem_of_nil in Hin].
    apply list_elem_of_singleton in Hin as ->. auto.
  - destruct (descend this); [|by apply elem_of_nil in Hin].
    subst this. revert Hin. generalize (mkNode ty s e f cs). intros pn.
    generalize 0.
    induction cs as [|c cs IHcs]; intros i Hin;
      [by apply elem_of_nil in Hin|].
    apply Forall_cons in IH as [IHc IH].
    apply elem_of_app in Hin as [Hin|Hin].
    + destruct (IHc _ Hin) as [Hr [-> | Hpar]]; [|by auto].
      split; [done|]. right. by eexists.
    + by apply (IHcs IH (S i)).
Qed.

Lemma leaves_have_parent func :
  is_Some (parent func) ∨ is_leaf func = false →
  Forall (λ n, is_Some (parent n)) (leaves func).
Proof.
  intros Hf. apply Forall_forall. intros n Hin.
  apply traverse_node_spec in Hin as [Hr [-> | Hpar]]; [|done].
  destruct func as [code nd anc]. cbn in *.
  destruct Hf as [Hf|Hf]; [done|congruence].
Qed.


End AbstractionFacts.

Module CallPolicyFacts.

Import provider_tst codeparser Samples Notions AbstractionFacts.
Local Open Scope nat_scope.

Section Run.
Context {KS : KnownSymbols}.
Variable P : Policy.
Hypothesis Hbit : Z.land (abstract_func_call P) ABST_WITH_NUM ≠ 0%Z.

Lemma visit_call_raises st n :
  category_of n = Some CALL → visit P st n = Raise NotImplementedError.
Proof.
  intros (p & Hp & Hc)%category_of_Some.
  rewrite (visit_CALL _ _ _ _ Hp Hc).
  destruct (Z.eqb_spec (abstract_func_call P) 0) as [E|_].
  { rewrite E in Hbit. done. }
  by rewrite (proj2 (Z.eqb_neq _ _) Hbit).
Qed.

Lemma run_call_raises st ns :
  Forall (λ n, is_Some (parent n)) ns →
  Exists (λ n, category_of n = Some CALL) ns →
  run P st ns = Raise NotImplementedError.
Proof.
  intros Hpar. revert st. induction Hpar as [|n ns Hn Hns IH];
    intros st Hex; [by apply Exists_nil in Hex|].
  cbn [run]. destruct (decide (category_of n = Some CALL)) as [Hc|Hc].
  - by rewrite visit_call_raises.
  - destruct (visit_Ok P st n Hn (or_introl Hc)) as [st' ->]. cbn.
    apply IH. by apply Exists_cons in Hex as [?|?].
Qed.

Lemma run_no_call_Ok st ns :
  Forall (λ n, is_Some (parent n)) ns →
  ¬ Exists (λ n, category_of n = Some CALL) ns →
  ∃ st', run P st ns = Ok st'.
Proof.
  intros Hpar. revert st. induction Hpar as [|n ns Hn Hns IH];
    intros st Hex; [by eexists|].
  cbn [run]. rewrite Exists_cons in Hex.
  destruct (visit_Ok P st n Hn) as [st' ->]; [left; tauto|]. cbn.
  apply IH. tauto.
Qed.

End Run.

(** C10, as stated, fails: the function [static int f(){return 1;}]
    calls nothing, and with [abstract_func_call = ABST_WITH_NUM] the
    engine returns its tokens. *)
Lemma numbered_call_policy_returns_without_a_call :
  Z.land (abstract_func_call (with_func_call ABST_WITH_NUM)) ABST_WITH_NUM
  ≠ 0%Z
  ∧ abstract_func_clike (TS := sample_parser) (KS := no_known_symbols)
      (inl static_fn_src) "C" (with_func_call ABST_WITH_NUM)
    = Ok (b <$> ["int"; "f"; "("; ")"; "{"; "return"; "1"; ";"; "}"]).
Proof. split; [done|]. vm_compute. reflexivity. Qed.

(** C10, amended. With the bit of [ABST_WITH_NUM] set in
    [abstract_func_call], the engine raises [NotImplementedError] when
    the traversal meets an identifier that is called; on a function
    without one it returns a token sequence. *)
Theorem numbered_call_policy_raises_at_a_call
    {KS : KnownSymbols} (P : Policy) (func : NodeRef) :
  Z.land (abstract_func_call P) ABST_WITH_NUM ≠ 0%Z →
  is_Some (parent func) ∨ is_leaf func = false →
  (Exists (λ n, category_of n = Some CALL) (leaves func) →
   abstract_node P func = Raise NotImplementedError)
  ∧ (¬ Exists (λ n, category_of n = Some CALL) (leaves func) →
     ∃ tokens, abstract_node P func = Ok tokens).
Proof.
  intros Hbit Hpar%leaves_have_parent. unfold abstract_node. split.
  - intros Hex. fold (leaves func).
    by rewrite (run_call_raises P Hbit initial _ Hpar Hex).
  - intros Hex. fold (leaves func).
    destruct (run_no_call_Ok P initial _ Hpar Hex) as [st' ->].
    cbn. eauto.
Qed.

Lemma numbered_call_policy_raises_at_a_call_witness :
  Z.land (abstract_func_call (with_func_call ABST_WITH_NUM)) ABST_WITH_NUM
  ≠ 0%Z
  ∧ is_leaf (root_ref call_fn_src call_fn_tree) = false
  ∧ Exists (λ n, category_of n = Some CALL)
           (leaves (root_ref call_fn_src call_fn_tree))
  ∧ abstract_node (KS := no_known_symbols) (with_func_call ABST_WITH_NUM)
      (root_ref call_fn_src call_fn_tree)
    = Raise NotImplementedError.
Proof.
  assert (Exists (λ n, category_of n = Some CALL)
                 (leaves (root_ref call_fn_src call_fn_tree))) as Hex.
  { apply (bool_decide_unpack _). vm_compute. exact I. }
  split; [done|]. split; [reflexivity|]. split; [exact Hex|].
  apply (numbered_call_policy_raises_at_a_call (KS := no_known_symbols)
           (with_func_call ABST_WITH_NUM)
           (root_ref call_fn_src call_fn_tree));
    [done|right; reflexivity|exact Hex].
Defined.

End CallPolicyFacts.

Module KeepEverythingFacts.

Import provider_re provider_tst codeparser Samples Notions AbstractionFacts.
Local Open Scope nat_scope.

Section Run.
Context {KS : KnownSymbols}.

Lemma visit_keep_everything st n :
  is_Some (parent n) →
  category_of n ≠ Some LABEL_REF →
  lvar_map st = ∅ →
  visit keep_everything st n =
    Ok (if decide (category_of n = Some DROPPED) then st
        else append (text n) st).
Proof.
  intros [p Hp] Hc Hl. unfold category_of in *. rewrite Hp in *.
  cbn in Hc |- *.
  destruct (classify n p) eqn:E;
    try (rewrite decide_False by done).
  - by rewrite (visit_FNAME _ _ _ _ Hp E).
  - by rewrite (visit_FPARAM _ _ _ _ Hp E).
  - by rewrite (visit_LVAR _ _ _ _ Hp E).
  - by rewrite (visit_FIELD _ _ _ _ Hp E).
  - by rewrite (visit_LABEL_DEF _ _ _ _ Hp E).
  - done.
  - by rewrite (visit_VTYPE _ _ _ _ Hp E).
  - by rewrite (visit_LITERAL _ _ _ _ Hp E).
  - by rewrite (visit_CALL _ _ _ _ Hp E).
  - by rewrite (visit_IDENT _ _ _ _ Hp E), Hl, lookup_empty.
  - by rewrite (visit_DROPPED _ _ _ _ Hp E), decide_True.
  - by rewrite (visit_OTHER _ _ _ _ Hp E).
Qed.

Lemma run_keep_everything st ns :
  Forall (λ n, is_Some (parent n)) ns →
  Forall (λ n, category_of n ≠ Some LABEL_REF) ns →
  lvar_map st = ∅ →
  ∃ st', run keep_everything st ns = Ok st'
         ∧ output st' = output st ++ (text <$> emitted ns).
Proof.
  intros Hpar. revert st. induction Hpar as [|n ns Hn Hns IH];
    intros st Hlab Hl.
  { exists st. by rewrite app_nil_r. }
  apply Forall_cons in Hlab as [Hc Hlab].
  cbn [run]. rewrite (visit_keep_everything st n Hn Hc Hl).
  destruct (decide (category_of n = Some DROPPED)) as [Hd|Hd].
  - destruct (IH st Hlab Hl) as (st' & Hr & Ho).
    exists st'. split; [done|].
    unfold emitted. rewrite filter_cons_False by tauto. done.
  - destruct (IH (append (text n) st) Hlab Hl) as (st' & Hr & Ho).
    exists st'. split; [done|].
    unfold emitted. rewrite filter_cons_True by done.
    rewrite Ho. cbn. by rewrite <- app_assoc.
Qed.

End Run.


End KeepEverythingFacts.

Module NumberingFacts.

Import provider_tst codeparser Samples Notions AbstractionFacts.
Local Open Scope nat_scope.

(** ** Placeholders with different numbers differ *)

Lemma append_inj_r (s t t' : string) :
  (s ++ t)%string = (s ++ t')%string → t = t'.
Proof. induction s as [|a s IH]; cbn; [done|]. intros [= ?]. auto. Qed.

Lemma str_of_nat_inj k k' : str_of_nat k = str_of_nat k' → k = k'.
Proof.
  unfold str_of_nat. intros H.
  apply Unsigned.to_uint_inj.
  assert (Some (Nat.to_uint k) = Some (Nat.to_uint k')) as [= E]; [|done].
  by rewrite <- !NilEmpty.usu, H.
Qed.

Lemma numbered_inj tag k k' : numbered tag k = numbered tag k' → k = k'.
Proof.
  unfold numbered, b. intros H.
  apply str_of_nat_inj, (append_inj_r tag).
  by rewrite <- (string_of_list_byte_of_string (tag ++ str_of_nat k)%string),
       H, string_of_list_byte_of_string.
Qed.

(** ** The counter and the map of local variables along a run *)

Section Run.
Context {KS : KnownSymbols}.
Variable P : Policy.
Hypothesis Hnum : abstract_lvar P = ABST_WITH_NUM.

Ltac steps :=
  unfold alloc_number in *; cbv beta iota zeta in *;
  repeat (case_match; try discriminate); simplify_eq;
  cbn [output lvar_map counts append set_lvar set_field set_label
       set_vtype set_symbol alloc_number] in *.

(** A declaration of a local variable takes the next number. *)
Lemma visit_lvar_decl st d :
  category_of d = Some LVAR →
  ∃ st', visit P st d = Ok st'
         ∧ output st' = output st ++ [numbered "LVAR" (lvar_count st)]
         ∧ lvar_map st' !! text d = Some (numbered "LVAR" (lvar_count st))
         ∧ lvar_count st' = S (lvar_count st).
Proof.
  intros (p & Hp & Hc)%category_of_Some.
  rewrite (visit_LVAR _ _ _ _ Hp Hc), Hnum. cbn.
  eexists. split; [done|]. unfold lvar_count. cbn.
  by rewrite !lookup_insert_eq.
Qed.

(** Any other node leaves the counter of local variables alone. *)
Lemma visit_lvar_count st n st' :
  visit P st n = Ok st' → category_of n ≠ Some LVAR →
  lvar_count st' = lvar_count st.
Proof.
  intros Hv Hc. destruct (parent n) as [p|] eqn:Hp;
    [|by rewrite visit_no_parent in Hv].
  unfold category_of in Hc. rewrite Hp in Hc. cbn in Hc.
  unfold lvar_count.
  destruct (classify n p) eqn:E.
  - rewrite (visit_FNAME _ _ _ _ Hp E) in Hv. by steps.
  - rewrite (visit_FPARAM _ _ _ _ Hp E) in Hv.
    steps; by rewrite ?lookup_insert_ne.
  - done.
  - rewrite (visit_FIELD _ _ _ _ Hp E) in Hv.
    steps; by rewrite ?lookup_insert_ne.
  - rewrite (visit_LABEL_DEF _ _ _ _ Hp E) in Hv.
    steps; by rewrite ?lookup_insert_ne.
  - rewrite (visit_LABEL_REF _ _ _ _ Hp E) in Hv.
    steps; by rewrite ?lookup_insert_ne.
  - rewrite (visit_VTYPE _ _ _ _ Hp E) in Hv.
    steps; by rewrite ?lookup_insert_ne.
  - rewrite (visit_LITERAL _ _ _ _ Hp E) in Hv. by steps.
  - rewrite (visit_CALL _ _ _ _ Hp E) in Hv. by steps.
  - rewrite (visit_IDENT _ _ _ _ Hp E) in Hv.
    steps; by rewrite ?lookup_insert_ne.
  - rewrite (visit_DROPPED _ _ _ _ Hp E) in Hv. by simplify_eq.
  - rewrite (visit_OTHER _ _ _ _ Hp E) in Hv. by steps.
Qed.

(** Only a declaration of [name] changes what [name] is mapped to. *)
Lemma visit_lvar_map st n st' name :
  visit P st n = Ok st' → ¬ declares name n →
  lvar_map st' !! name = lvar_map st !! name.
Proof.
  intros Hv Hd. destruct (parent n) as [p|] eqn:Hp;
    [|by rewrite visit_no_parent in Hv].
  unfold declares, category_of in Hd. rewrite Hp in Hd. cbn in Hd.
  destruct (classify n p) eqn:E.
  - rewrite (visit_FNAME _ _ _ _ Hp E) in Hv. by steps.
  - rewrite (visit_FPARAM _ _ _ _ Hp E) in Hv.
    steps; try done; rewrite lookup_insert_ne; try done;
      intros ?; apply Hd; auto.
  - rewrite (visit_LVAR _ _ _ _ Hp E) in Hv.
    steps; try done; rewrite lookup_insert_ne; try done;
      intros ?; apply Hd; auto.
  - rewrite (visit_FIELD _ _ _ _ Hp E) in Hv. by steps.
  - rewrite (visit_LABEL_DEF _ _ _ _ Hp E) in Hv. by steps.
  - rewrite (visit_LABEL_REF _ _ _ _ Hp E) in Hv. by steps.
  - rewrite (visit_VTYPE _ _ _ _ Hp E) in Hv. by steps.
  - rewrite (visit_LITERAL _ _ _ _ Hp E) in Hv. by steps.
  - rewrite (visit_CALL _ _ _ _ Hp E) in Hv. by steps.
  - rewrite (visit_IDENT _ _ _ _ Hp E) in Hv. by steps.
  - rewrite (visit_DROPPED _ _ _ _ Hp E) in Hv. by simplify_eq.
  - rewrite (visit_OTHER _ _ _ _ Hp E) in Hv. by steps.
Qed.

Lemma run_cons_Ok st n ns st' :
  run P st (n :: ns) = Ok st' →
  ∃ st1, visit P st n = Ok st1 ∧ run P st1 ns = Ok st'.
Proof.
  cbn [run]. destruct (visit P st n) as [st1|]; [|done]. eauto.
Qed.

Lemma run_lvar_count st ns st' :
  run P st ns = Ok st' →
  lvar_count st' = lvar_count st + length (lvar_decls ns).
Proof.
  revert st. induction ns as [|n ns IH]; intros st.
  { intros [= <-]. cbn. lia. }
  intros (st1 & Hv & Hr)%run_cons_Ok. rewrite (IH _ Hr).
  unfold lvar_decls. rewrite filter_cons.
  destruct (decide (category_of n = Some LVAR)) as [Hc|Hc].
  - destruct (visit_lvar_decl st n Hc) as (st1' & Hv' & _ & _ & Hk).
    rewrite Hv in Hv'. injection Hv' as ->. rewrite Hk. cbn. lia.
  - by rewrite (visit_lvar_count _ _ _ Hv Hc).
Qed.

Lemma run_lvar_map st ns st' name :
  run P st ns = Ok st' → Forall (λ n, ¬ declares name n) ns →
  lvar_map st' !! name = lvar_map st !! name.
Proof.
  revert st. induction ns as [|n ns IH]; intros st.
  { by intros [= <-]. }
  intros (st1 & Hv & Hr)%run_cons_Ok [Hn Hns]%Forall_cons.
  by rewrite (IH _ Hr Hns), (visit_lvar_map _ _ _ _ Hv Hn).
Qed.

(** A use of a mapped name emits what the name is mapped to. *)
Lemma visit_use st n v :
  category_of n = Some IDENT → lvar_map st !! text n = Some v →
  visit P st n = Ok (append v st).
Proof.
  intros (p & Hp & Hc)%category_of_Some Hl.
  by rewrite (visit_IDENT _ _ _ _ Hp Hc), Hl.
Qed.

(** What a step of the loop does to the map of local variables: it
    leaves it alone, or binds the text of the node to the next [LVAR]
    placeholder, or binds it to a placeholder that is no [LVAR]
    placeholder. *)
Lemma visit_lvar_step st n st' :
  visit P st n = Ok st' →
  (lvar_map st' = lvar_map st ∧ lvar_count st' = lvar_count st)
  ∨ (lvar_map st' = <[text n := numbered "LVAR" (lvar_count st)]> (lvar_map st)
     ∧ lvar_count st' = S (lvar_count st))
  ∨ (∃ v, lvar_map st' = <[text n := v]> (lvar_map st)
          ∧ (∀ j, v ≠ numbered "LVAR" j)
          ∧ lvar_count st' = lvar_count st).
Proof.
  intros Hv. destruct (parent n) as [p|] eqn:Hp;
    [|by rewrite visit_no_parent in Hv].
  unfold lvar_count.
  destruct (classify n p) eqn:E.
  - rewrite (visit_FNAME _ _ _ _ Hp E) in Hv. left. by steps.
  - rewrite (visit_FPARAM _ _ _ _ Hp E) in Hv. steps.
    + by left.
    + right. right. eexists. split; [done|].
      rewrite lookup_insert_ne by done. split; [|done].
      intros j. unfold numbered. discriminate.
    + right. right. eexists. split; [done|]. split; [|done].
      intros j. unfold numbered. discriminate.
  - rewrite (visit_LVAR _ _ _ _ Hp E), Hnum in Hv. cbn in Hv.
    injection Hv as <-. right. left. cbn. by rewrite lookup_insert_eq.
  - rewrite (visit_FIELD _ _ _ _ Hp E) in Hv. left.
    steps; by rewrite ?lookup_insert_ne.
  - rewrite (visit_LABEL_DEF _ _ _ _ Hp E) in Hv. left.
    steps; by rewrite ?lookup_insert_ne.
  - rewrite (visit_LABEL_REF _ _ _ _ Hp E) in Hv. left.
    steps; by rewrite ?lookup_insert_ne.
  - rewrite (visit_VTYPE _ _ _ _ Hp E) in Hv. left.
    steps; by rewrite ?lookup_insert_ne.
  - rewrite (visit_LITERAL _ _ _ _ Hp E) in Hv. left. by steps.
  - rewrite (visit_CALL _ _ _ _ Hp E) in Hv. left. by steps.
  - rewrite (visit_IDENT _ _ _ _ Hp E) in Hv. left.
    steps; by rewrite ?lookup_insert_ne.
  - rewrite (visit_DROPPED _ _ _ _ Hp E) in Hv. left. by simplify_eq.
  - rewrite (visit_OTHER _ _ _ _ Hp E) in Hv. left. by steps.
Qed.

(** The numbers of the [LVAR] placeholders of the map have been given
    out. *)
Lemma run_lvar_numbers st ns st' :
  run P st ns = Ok st' →
  (∀ t j, lvar_map st !! t = Some (numbered "LVAR" j) → j < lvar_count st) →
  ∀ t j, lvar_map st' !! t = Some (numbered "LVAR" j) → j < lvar_count st'.
Proof.
  revert st. induction ns as [|n ns IH]; intros st.
  { by intros [= <-]. }
  intros (st1 & Hv & Hr)%run_cons_Ok Hst. apply (IH _ Hr).
  intros t j.
  destruct (visit_lvar_step _ _ _ Hv)
    as [[-> ->]|[[-> ->]|(v & -> & Hne & ->)]].
  - apply Hst.
  - destruct (decide (text n = t)) as [->|Hne].
    + rewrite lookup_insert_eq. intros [= ->%numbered_inj]. lia.
    + rewrite lookup_insert_ne by done. intros ?%Hst. lia.
  - destruct (decide (text n = t)) as [->|Hne'].
    + rewrite lookup_insert_eq. intros [= ->]. by destruct (Hne j).
    + rewrite lookup_insert_ne by done. apply Hst.
Qed.

(** A placeholder that has been given out stays with its name: no other
    name is bound to it later. *)
Lemma run_lvar_owner k name st ns st' :
  run P st ns = Ok st' →
  k < lvar_count st →
  (∀ t, lvar_map st !! t = Some (numbered "LVAR" k) → t = name) →
  ∀ t, lvar_map st' !! t = Some (numbered "LVAR" k) → t = name.
Proof.
  revert st. induction ns as [|n ns IH]; intros st.
  { by intros [= <-]. }
  intros (st1 & Hv & Hr)%run_cons_Ok Hk Hst.
  destruct (visit_lvar_step _ _ _ Hv)
    as [[Hm Hc]|[[Hm Hc]|(v & Hm & Hne & Hc)]];
    apply (IH _ Hr); rewrite ?Hc; try lia; rewrite Hm; try done.
  - intros t. destruct (decide (text n = t)) as [->|Hne].
    + rewrite lookup_insert_eq. intros [= ?%numbered_inj]. lia.
    + rewrite lookup_insert_ne by done. apply Hst.
  - intros t. destruct (decide (text n = t)) as [->|Hne'].
    + rewrite lookup_insert_eq. intros [= ->]. by destruct (Hne k).
    + rewrite lookup_insert_ne by done. apply Hst.
Qed.

End Run.

(** C2, as stated, fails: in [void f(){{int i;i;}{int i;}}] the name [i]
    is declared twice, and the two declarations are emitted as [LVAR0]
    and [LVAR1]. *)
Lemma redeclared_name_gets_two_placeholders :
  abstract_lvar default_policy = ABST_WITH_NUM
  ∧ text <$> leaves (root_ref redeclared_src redeclared_tree)
    = b <$> ["void"; "f"; "("; ")"; "{"; "{"; "int"; "i"; ";"; "i"; ";";
             "}"; "{"; "int"; "i"; ";"; "}"; "}"]
  ∧ abstract_func_clike (TS := sample_parser) (KS := no_known_symbols)
      (inl redeclared_src) "C" default_policy
    = Ok (b <$> ["void"; "FNAME"; "("; ")"; "{"; "{"; "int"; "LVAR0"; ";";
                 "LVAR0"; ";"; "}"; "{"; "int"; "LVAR1"; ";"; "}"; "}"]).
Proof. split_and!; vm_compute; reflexivity. Qed.

(** The test of the branch of the local variables, in the words of the
    source: an identifier for which [is_decl_lvar] holds and that is not
    the declarator of a function declarator. The branch of the
    parameters, tested before, takes no such node. *)
Lemma lvar_branch_test n :
  category_of n = Some LVAR
  ↔ ∃ p, parent n = Some p
         ∧ type (node n) = "identifier"
         ∧ is_decl_lvar n = true
         ∧ (String.eqb (type (node p)) "function_declarator"
            && is_declarator_of n p) = false.
Proof.
  rewrite category_of_Some. unfold classify. cbv zeta. split.
  - intros (p & Hp & Hc). exists p. split; [done|].
    destruct (_ && is_declarator_of n p); [done|].
    destruct (_ && is_decl_fparam n); [done|].
    destruct (String.eqb_spec (type (node n)) "identifier") as [Hty|Hty];
      cbn [andb] in Hc.
    + destruct (is_decl_lvar n); [done|]. exfalso. revert Hc.
      repeat (match goal with
              | |- context [if ?c then _ else _] => destruct c
              end; try discriminate).
    + exfalso. revert Hc.
      repeat (match goal with
              | |- context [if ?c then _ else _] => destruct c
              end; try discriminate).
  - intros (p & Hp & Hty & Hl & Hf). exists p. split; [done|].
    rewrite Hf, Hty, Hl. cbn.
    unfold is_decl_lvar in Hl. unfold is_decl_fparam.
    apply String.eqb_eq in Hl. by rewrite Hl.
Qed.

(** In [int a,b=1;] the engine takes [a] for a declaration and [b] for
    a plain identifier: [is_decl_lvar] climbs from [b] to its
    [init_declarator], which is not the first [declarator] child of the
    declaration, and stops there. Under the default policy [b] is then
    numbered as a global symbol, at its declaration and at its use. *)
Lemma later_declarator_is_a_plain_identifier :
  let ls := leaves (root_ref two_declarators_src two_declarators_tree) in
  text <$> ls
  = b <$> ["void"; "f"; "("; ")"; "{"; "int"; "a"; ","; "b"; "="; "1"; ";";
           "b"; ";"; "}"]
  ∧ category_of <$> ls !! 6 = Some (Some LVAR)
  ∧ is_decl_lvar <$> ls !! 8 = Some false
  ∧ category_of <$> ls !! 8 = Some (Some IDENT)
  ∧ abstract_node (KS := no_known_symbols) default_policy
      (root_ref two_declarators_src two_declarators_tree)
    = Ok (b <$> ["void"; "FNAME"; "("; ")"; "{"; "int"; "LVAR0"; ",";
                 "GSYM0"; "="; "1"; ";"; "GSYM0"; ";"; "}"]).
Proof. split_and!; vm_compute; reflexivity. Qed.

(** C2, amended. Under [abstract_lvar = ABST_WITH_NUM] a node taken by
    the branch of the local variables (see [lvar_branch_test]: an
    identifier for which [is_decl_lvar] holds, so the first declarator
    of a declaration and not the later ones) is emitted as [LVARk],
    where [k] counts the nodes taken by that branch before it; every
    later plain use of the declared name is emitted as the same
    placeholder as long as no such node, and no parameter, declares the
    name again; every later node of that branch, of this or of another
    name, is emitted as a different placeholder; and a later plain use
    of another name that is bound to a placeholder of a local variable
    or parameter is emitted as that placeholder, which is a different
    one. *)
Theorem numbered_lvar_placeholders
    {KS : KnownSymbols} (P : Policy) (pre : list NodeRef) (d : NodeRef)
    (s0 : State) :
  abstract_lvar P = ABST_WITH_NUM →
  category_of d = Some LVAR →
  run P initial pre = Ok s0 →
  let tok := numbered "LVAR" (length (lvar_decls pre)) in
  ∃ s1,
    visit P s0 d = Ok s1
    ∧ output s1 = output s0 ++ [tok]
    ∧ ∀ mid s2, run P s1 mid = Ok s2 →
        (∀ use, category_of use = Some IDENT → text use = text d →
                Forall (λ n, ¬ declares (text d) n) mid →
                ∃ s3, visit P s2 use = Ok s3
                      ∧ output s3 = output s2 ++ [tok])
        ∧ (∀ d', category_of d' = Some LVAR →
                 ∃ s3 tok', visit P s2 d' = Ok s3
                            ∧ output s3 = output s2 ++ [tok']
                            ∧ tok' ≠ tok)
        ∧ (∀ use v, category_of use = Some IDENT → text use ≠ text d →
                    lvar_map s2 !! text use = Some v →
                    ∃ s3, visit P s2 use = Ok s3
                          ∧ output s3 = output s2 ++ [v]
                          ∧ v ≠ tok).
Proof.
  intros Hnum Hd Hpre tok.
  pose proof (run_lvar_count P Hnum _ _ _ Hpre) as Hk0.
  change (lvar_count initial) with 0 in Hk0. cbn [Nat.add] in Hk0.
  destruct (visit_lvar_decl P Hnum s0 d Hd) as (s1 & Hv & Ho & Hm & Hk1).
  rewrite Hk0 in Ho, Hm, Hk1. fold tok in Ho, Hm.
  exists s1. split_and!; [done..|].
  intros mid s2 Hmid. split_and!.
  - intros use Hu Ht Hno. exists (append tok s2). split; [|done].
    apply visit_use; [done|].
    by rewrite Ht, (run_lvar_map P _ _ _ _ Hmid Hno).
  - intros d' Hd'.
    destruct (visit_lvar_decl P Hnum s2 d' Hd') as (s3 & Hv' & Ho' & _).
    exists s3, (numbered "LVAR" (lvar_count s2)). split_and!; [done..|].
    intros Heq%numbered_inj.
    pose proof (run_lvar_count P Hnum _ _ _ Hmid). lia.
  - intros use v Hu Hne Hl. exists (append v s2).
    split; [by apply visit_use|]. split; [done|]. intros ->.
    apply Hne.
    apply (run_lvar_owner P Hnum (length (lvar_decls pre)) (text d)
             s1 mid s2 Hmid); [lia| |done].
    intros t Ht.
    assert (run P s0 [d] = Ok s1) as Hd1 by (cbn [run]; by rewrite Hv).
    destruct (decide (t = text d)) as [|Hne']; [done|].
    assert (lvar_map s1 !! t = lvar_map s0 !! t) as E.
    { apply (run_lvar_map P s0 [d] s1 t Hd1).
      constructor; [|done]. intros [_ ?]. done. }
    rewrite E in Ht.
    pose proof (run_lvar_numbers P Hnum initial pre s0 Hpre
                  ltac:(intros ? ?; unfold initial; cbn [lvar_map]; by rewrite lookup_empty) t _ Ht). lia.
Qed.

Lemma numbered_lvar_placeholders_witness :
  let ls := leaves (root_ref redeclared_src redeclared_tree) in
  let pre := take 7 ls in
  let d := default (root_ref redeclared_src redeclared_tree) (ls !! 7) in
  abstract_lvar default_policy = ABST_WITH_NUM
  ∧ category_of d = Some LVAR
  ∧ ∃ s0, run (KS := no_known_symbols) default_policy initial pre = Ok s0
          ∧ ∃ s1, visit (KS := no_known_symbols) default_policy s0 d = Ok s1
                  ∧ output s1
                    = output s0 ++ [numbered "LVAR" (length (lvar_decls pre))].
Proof.
  intros ls pre d.
  split; [reflexivity|]. split; [vm_compute; reflexivity|].
  eexists. split; [vm_compute; reflexivity|].
  edestruct (numbered_lvar_placeholders (KS := no_known_symbols)
               default_policy pre d) as (s1 & Hv & Ho & _);
    [reflexivity|vm_compute; reflexivity|vm_compute; reflexivity|].
  exists s1. split; [exact Hv|exact Ho].
Defined.

End NumberingFacts.

Module TextFacts.

Import provider_re provider_tst codeparser vuddy_util Samples Notions.
Import Utf8Facts.
Local Open Scope nat_scope.

(** ** [str.replace] of one character *)

Lemma replace_char_absent {A} `{EqDecision A} (old : A) new s :
  old ∉ s → replace_char old new s = s.
Proof.
  unfold replace_char. induction s as [|c s IH]; [done|].
  intros [Hc Hs]%not_elem_of_cons. cbn.
  rewrite decide_False by done. cbn. by rewrite IH.
Qed.

Lemma replace_char_Forall {A} `{EqDecision A} (P : A → Prop) (old : A) new s :
  Forall P new → Forall (λ c, c ≠ old → P c) s →
  Forall P (replace_char old new s).
Proof.
  intros Hnew. unfold replace_char. induction 1 as [|c s Hc Hs IH]; [done|].
  cbn. apply Forall_app. split; [|done].
  destruct (decide (c = old)); [done|]. apply Forall_singleton. auto.
Qed.

Lemma replace_char_removes {A} `{EqDecision A} (old : A) new s :
  old ∉ new → old ∉ replace_char old new s.
Proof.
  intros Hnew Hin.
  assert (Forall (λ c, c ≠ old) (replace_char old new s)) as HF.
  { apply replace_char_Forall.
    - apply Forall_forall. intros x Hx ->. done.
    - apply Forall_forall. auto. }
  rewrite Forall_forall in HF. by apply (HF old).
Qed.

Lemma replace_char_length_one {A} `{EqDecision A} (old new : A) s :
  length (replace_char old [new] s) = length s.
Proof.
  unfold replace_char. induction s as [|c s IH]; [done|].
  cbn. rewrite length_app, IH. by destruct (decide (c = old)).
Qed.

Lemma replace_char_two_length (old n1 n2 : N) (s : str) :
  length (replace_char old [n1; n2] s)
  = length s + length (filter (λ c, c = old) s).
Proof.
  unfold replace_char. induction s as [|c s IH]; [done|].
  cbn [flat_map]. rewrite length_app, IH.
  destruct (decide (c = old)) as [->|Hc].
  - rewrite filter_cons_True by done. cbn [length]. lia.
  - rewrite filter_cons_False by done. cbn [length]. lia.
Qed.

Lemma replace_char_two_count (old n1 n2 x : N) (s : str) :
  n1 ≠ x → n2 ≠ x →
  length (replace_char old [n1; n2] s)
  + length (filter (λ c, c = x) (replace_char old [n1; n2] s))
  ≤ 2 * length s.
Proof.
  intros H1 H2. unfold replace_char. induction s as [|c s IH]; [done|].
  cbn [flat_map]. rewrite filter_app, !length_app.
  destruct (decide (c = old)) as [->|Hc].
  - rewrite filter_cons_False, filter_cons_False by done.
    cbn [length filter list_filter]. lia.
  - destruct (decide (c = x)) as [->|Hx].
    + rewrite filter_cons_True by done. cbn [length filter list_filter]. lia.
    + rewrite filter_cons_False by done. cbn [length filter list_filter]. lia.
Qed.

(** ** [str.rstrip] *)

Lemma rstrip_split s : ∃ w, s = rstrip s ++ w ∧ Forall (λ c, isspace c = true) w.
Proof.
  induction s as [|c s (w & Hs & Hw)]; [by exists []|].
  cbn [rstrip]. destruct (rstrip s) as [|r0 r] eqn:E.
  - destruct (isspace c) eqn:Hc.
    + exists (c :: s). split; [done|]. cbn in Hs. subst w. by constructor.
    + exists w. split; [by rewrite Hs at 1|done].
  - exists w. split; [|done]. rewrite Hs at 1. done.
Qed.

Lemma rstrip_last s c : last (rstrip s) = Some c → isspace c = false.
Proof.
  induction s as [|c0 s IH]; [done|].
  cbn [rstrip]. destruct (rstrip s) as [|r0 r] eqn:E.
  - destruct (isspace c0) eqn:Hc; [done|]. cbn. by intros [= <-].
  - intros Hl. apply IH. exact Hl.
Qed.

Lemma rstrip_fixed s :
  (∀ c, last s = Some c → isspace c = false) → rstrip s = s.
Proof.
  induction s as [|c0 s IH]; [done|]. intros Hl.
  cbn [rstrip]. destruct s as [|c1 s].
  - cbn. by rewrite (Hl c0).
  - rewrite IH; [done|]. intros c Hc. apply Hl. exact Hc.
Qed.

Lemma rstrip_idempotent s : rstrip (rstrip s) = rstrip s.
Proof. apply rstrip_fixed, rstrip_last. Qed.

Lemma rstrip_elem_of s c : c ∈ rstrip s → c ∈ s.
Proof.
  destruct (rstrip_split s) as (w & Hs & _). intros Hc.
  rewrite Hs. apply elem_of_app. by left.
Qed.

(** ** [splitlines] *)

Section Split.
Context {A : Type} `{EqDecision A} `{Newlines A}.

Lemma split_newlines_length (cur s : list A) :
  length (split_newlines cur s) = S (length (filter (λ c, c = LF) s)).
Proof.
  revert cur. induction s as [|c s IH]; intros cur; [done|].
  cbn [split_newlines]. destruct (decide (c = LF)) as [->|Hc].
  - rewrite filter_cons_True by done. cbn. by rewrite IH.
  - rewrite filter_cons_False by done.
    destruct (decide (c = CR)) as [->|Hr]; [|apply IH].
    destruct s as [|d s]; [done|].
    destruct (decide (d = LF)) as [->|Hd]; [|apply IH].
    specialize (IH []). cbn [split_newlines] in IH.
    rewrite decide_True in IH by done. done.
Qed.

Lemma split_newlines_Forall (P : A → Prop) (cur s : list A) :
  Forall P cur → Forall (λ c, c ≠ LF → P c) s →
  Forall (Forall P) (split_newlines cur s).
Proof.
  intros Hcur Hs. revert cur Hcur.
  induction Hs as [|c s Hc Hs IH]; intros cur Hcur.
  { cbn. constructor; [|done]. by apply Forall_rev. }
  cbn [split_newlines]. destruct (decide (c = LF)) as [->|Hne].
  - constructor; [by apply Forall_rev|]. by apply IH.
  - destruct (decide (c = CR)) as [->|Hr]; [|apply IH; auto].
    destruct s as [|d s].
    { constructor; [|done]. apply Forall_rev. auto. }
    destruct (decide (d = LF)) as [->|Hd]; [|apply IH; auto].
    constructor; [by apply Forall_rev|].
    specialize (IH [] (Forall_nil_2 _)). cbn [split_newlines] in IH.
    rewrite decide_True in IH by done. by apply Forall_cons in IH as [_ IH].
Qed.

Lemma split_newlines_not_nil (cur s : list A) : split_newlines cur s ≠ [].
Proof.
  intros E. pose proof (split_newlines_length cur s) as Hl.
  by rewrite E in Hl.
Qed.

Lemma join_cons (sep p : list A) rest :
  rest ≠ [] → join sep (p :: rest) = p ++ sep ++ join sep rest.
Proof. by destruct rest. Qed.

Lemma split_newlines_join (cur s : list A) :
  CR ∉ s → join [LF] (split_newlines cur s) = rev cur ++ s.
Proof.
  revert cur. induction s as [|c s IH]; intros cur Hs.
  { cbn. by rewrite app_nil_r. }
  apply not_elem_of_cons in Hs as [Hc Hs].
  cbn [split_newlines]. destruct (decide (c = LF)) as [->|Hne].
  - rewrite join_cons by apply split_newlines_not_nil.
    by rewrite (IH [] Hs).
  - rewrite decide_False by done. rewrite (IH _ Hs). cbn.
    by rewrite <- app_assoc.
Qed.

(** A piece followed by a newline is split off as it is when it holds no
    newline and does not end in a carriage return. *)
Lemma split_newlines_line (cur l rest : list A) :
  LF ∉ l → last l ≠ Some CR →
  split_newlines cur (l ++ LF :: rest)
  = (rev cur ++ l) :: split_newlines [] rest.
Proof.
  revert cur. induction l as [|c l IH]; intros cur Hl Hlast.
  { cbn [app split_newlines]. rewrite decide_True by done.
    by rewrite app_nil_r. }
  apply not_elem_of_cons in Hl as [Hc Hl].
  assert (last l ≠ Some CR ∨ l = []) as Hl'.
  { destruct l as [|d l]; [by right|left].
    intros E. apply Hlast. exact E. }
  cbn [app split_newlines]. rewrite decide_False by done.
  destruct (decide (c = CR)) as [->|Hr].
  - destruct l as [|d l]; [done|].
    destruct Hl' as [Hl'|?]; [|done].
    cbn [app]. rewrite decide_False by (intros ->; apply Hl; left).
    change (d :: l ++ LF :: rest) with ((d :: l) ++ LF :: rest).
    rewrite (IH _ Hl Hl'). cbn. by rewrite <- app_assoc.
  - destruct Hl' as [Hl'| ->].
    + rewrite (IH _ Hl Hl'). cbn. by rewrite <- app_assoc.
    + cbn [app split_newlines]. rewrite decide_True by done.
      cbn. done.
Qed.

Lemma splitlines_lines (f : list A → list A) (ls : list (list A)) :
  Forall (λ l, (LF ∉ f l) ∧ last (f l) ≠ Some CR) ls →
  splitlines (concat ((λ l, f l ++ [LF]) <$> ls)) = (f <$> ls) ++ [[]].
Proof.
  unfold splitlines. induction 1 as [|l ls [Hl1 Hl2] Hls IH]; [done|].
  cbn [fmap list_fmap concat]. rewrite <- app_assoc. cbn [app].
  rewrite split_newlines_line by done. cbn. by f_equal.
Qed.

End Split.

Lemma splitlines_no_newline {A} `{EqDecision A} `{Newlines A} (s : list A) :
  Forall (λ l, LF ∉ l) (splitlines s).
Proof.
  unfold splitlines.
  assert (Forall (Forall (λ c : A, c ≠ LF)) (split_newlines [] s)) as HF.
  { apply split_newlines_Forall; [done|]. apply Forall_forall. auto. }
  eapply Forall_impl; [exact HF|]. cbn. intros l Hl Hin.
  rewrite Forall_forall in Hl. by apply (Hl LF).
Qed.

(** X24. [splitlines] cuts a text at every newline: it returns one piece
    more than the text has newline characters, and no piece holds a
    newline. *)
Theorem splitlines_pieces {A} `{EqDecision A} `{Newlines A} (s : list A) :
  length (splitlines s) = S (length (filter (λ c, c = LF) s))
  ∧ Forall (λ l, LF ∉ l) (splitlines s).
Proof.
  split; [apply split_newlines_length|apply splitlines_no_newline].
Qed.

(** X25. On a text without carriage returns, joining the pieces of
    [splitlines] with newlines gives the text back. *)
Theorem splitlines_join {A} `{EqDecision A} `{Newlines A} (s : list A) :
  CR ∉ s → join [LF] (splitlines s) = s.
Proof. intros Hs. unfold splitlines. by rewrite split_newlines_join. Qed.

Lemma splitlines_join_witness :
  (13%N ∉ u "ab" ++ [10%N] ++ u "c")
  ∧ join [10%N] (splitlines (u "ab" ++ [10%N] ++ u "c"))
    = u "ab" ++ [10%N] ++ u "c".
Proof.
  assert (13%N ∉ u "ab" ++ [10%N] ++ u "c") as Hs.
  { apply (bool_decide_unpack _). vm_compute. exact I. }
  split; [exact Hs|].
  exact (splitlines_join (A := N) (u "ab" ++ [10%N] ++ u "c") Hs).
Defined.

(** ** [normalization] *)

Lemma foldl_app_concat {A B} (g : B → list A) (a : list A) (ls : list B) :
  foldl (λ acc l, acc ++ g l) a ls = a ++ concat (g <$> ls).
Proof.
  revert a. induction ls as [|l ls IH]; intros a; cbn.
  - by rewrite app_nil_r.
  - by rewrite IH, <- app_assoc.
Qed.

Lemma normalization_lines code :
  normalization code
  = concat ((λ l, rstrip l ++ [10%N])
              <$> splitlines (replace_char 9%N [32; 32; 32; 32]%N code)).
Proof.
  unfold normalization. cbv zeta.
  by rewrite (foldl_app_concat (λ l, rstrip l ++ [10%N])).
Qed.

Lemma rstrip_line_ok (l : str) :
  10%N ∉ l → (10%N ∉ rstrip l) ∧ last (rstrip l) ≠ Some 13%N.
Proof.
  intros Hl. split.
  - intros Hin. by apply Hl, rstrip_elem_of.
  - intros E. by apply rstrip_last in E.
Qed.

(** X26. [normalization] leaves no tab in the text; its lines are the
    lines of the text, tabs replaced, without the white space at their
    ends, followed by one empty line; so normalizing a normalized text
    adds one more newline at its end. *)
Theorem normalization_lines_and_growth (code : str) :
  (9%N ∉ normalization code)
  ∧ splitlines (normalization code)
    = (rstrip <$> splitlines (replace_char 9%N [32; 32; 32; 32]%N code))
      ++ [[]]
  ∧ normalization (normalization code) = normalization code ++ [10%N].
Proof.
  set (code' := replace_char 9%N [32; 32; 32; 32]%N code).
  assert (Forall (λ l : str, 10%N ∉ l) (splitlines code')) as Hnl
    by exact (splitlines_no_newline (A := N) code').
  assert (Forall (Forall (λ c : N, c ≠ 9%N)) (splitlines code')) as Htab.
  { apply (split_newlines_Forall (A := N)); [done|].
    apply Forall_forall. intros c Hc _ ->.
    revert Hc. apply replace_char_removes.
    apply (bool_decide_unpack _). vm_compute. exact I. }
  assert (splitlines (normalization code)
          = (rstrip <$> splitlines code') ++ [[]]) as Hlines.
  { rewrite normalization_lines. fold code'.
    refine (splitlines_lines (A := N) rstrip (splitlines code') _).
    eapply Forall_impl; [exact Hnl|]. exact rstrip_line_ok. }
  assert (9%N ∉ normalization code) as Hnotab.
  { rewrite normalization_lines. fold code'. intros Hin.
    assert (Forall (λ c : N, c ≠ 9%N)
              (concat ((λ l, rstrip l ++ [10%N]) <$> splitlines code')))
      as HF.
    { apply Forall_concat, Forall_fmap.
      eapply Forall_impl; [exact Htab|]. cbn. intros l Hl.
      apply Forall_app. split; [|by apply Forall_singleton].
      apply Forall_forall. intros c Hc%rstrip_elem_of.
      rewrite Forall_forall in Hl. by apply Hl. }
    rewrite Forall_forall in HF. by apply (HF _ Hin). }
  split; [done|]. split; [done|].
  rewrite (normalization_lines (normalization code)).
  rewrite (replace_char_absent _ _ _ Hnotab), Hlines.
  rewrite fmap_app, concat_app. cbn.
  rewrite <- list_fmap_compose.
  rewrite normalization_lines. fold code'. f_equal.
  f_equal. apply list_fmap_ext. intros _ l _. cbn.
  by rewrite rstrip_idempotent.
Qed.

(** ** [Func.__repr__] *)

(** X23. [repr] of a function never raises and is one line: the result
    holds no newline and no carriage return, and at most 208
    characters. *)
Theorem Func_repr_one_line (f : Func) :
  ∃ r, Func_repr f = Ok r
       ∧ (10%N ∉ r) ∧ (13%N ∉ r) ∧ length r ≤ 208.
Proof.
  unfold Func_repr, code.
  destruct (utf8_decode_ignore_total (code_bytes f)) as [c ->].
  cbn [mbind result_bind bind]. cbv zeta. eexists. split; [reflexivity|].
  set (inner := replace_char 10%N (u "\n") (take 100 c)).
  set (outer := replace_char 13%N (u "\r") inner).
  assert (Forall (λ x : N, x ≠ 10%N) inner) as Hinner.
  { apply replace_char_Forall.
    - apply (bool_decide_unpack _). vm_compute. exact I.
    - apply Forall_forall. auto. }
  assert (Forall (λ x : N, x ≠ 10%N ∧ x ≠ 13%N) outer) as Houter.
  { apply replace_char_Forall.
    - apply (bool_decide_unpack _). vm_compute. exact I.
    - eapply Forall_impl; [exact Hinner|]. cbn. auto. }
  assert (length outer ≤ 200) as Hlen.
  { pose proof (replace_char_two_count 10%N 92%N 110%N 13%N (take 100 c)
                  ltac:(done) ltac:(done)) as H1.
    pose proof (replace_char_two_length 13%N 92%N 114%N inner) as H2.
    change [92%N; 110%N] with (u "\n") in H1.
    change [92%N; 114%N] with (u "\r") in H2.
    fold inner in H1. fold outer in H2.
    rewrite length_take in H1. lia. }
  assert (∀ x, x ∈ u "Func(" ++ [34%N] ++ outer ++ u ")" ++ [34%N] →
               x ≠ 10%N ∧ x ≠ 13%N) as Hall.
  { intros x. rewrite !elem_of_app. rewrite Forall_forall in Houter.
    intros [Hx|[Hx|[Hx|[Hx|Hx]]]]; [| |by apply Houter| |];
      revert x Hx; apply Forall_forall;
      apply (bool_decide_unpack _); vm_compute; exact I. }
  split; [intros Hx; by apply Hall in Hx as [? _]|].
  split; [intros Hx; by apply Hall in Hx as [_ ?]|].
  rewrite !length_app. cbn [length].
  change (length (u "Func(")) with 5. change (length (u ")")) with 1. lia.
Qed.

(** ** [escape] *)

(** X29. [escape] leaves no slash in a name, keeps its length, and
    escaping twice is escaping once. *)
Theorem escape_removes_slashes (s : str) :
  (47%N ∉ escape s)
  ∧ length (escape s) = length s
  ∧ escape (escape s) = escape s.
Proof.
  assert (47%N ∉ escape s) as Hs.
  { apply replace_char_removes.
    apply (bool_decide_unpack _). vm_compute. exact I. }
  split; [done|]. split; [apply replace_char_length_one|].
  unfold escape at 1. by apply replace_char_absent.
Qed.

(** ** The path rewriting of [patch_hidx] *)

Lemma rsplit_slash_spec (s : str) :
  match rsplit_slash s with
  | None => 47%N ∉ s
  | Some (d, f) => s = d ++ 47%N :: f ∧ 47%N ∉ f
  end.
Proof.
  induction s as [|c s IH]; [apply not_elem_of_nil|].
  cbn [rsplit_slash]. destruct (rsplit_slash s) as [[d f]|].
  - destruct IH as [-> Hf]. by split.
  - destruct (N.eqb_spec c 47) as [->|Hc].
    + by split.
    + apply not_elem_of_cons. by split.
Qed.

(** X30. The path of an entry is rewritten when it holds a slash: the
    file name behind the last slash is kept, every dot before it becomes
    [#], and the length stays the same; a path without a slash is an
    error. *)
Theorem patch_file_keeps_the_file_name (s : str) :
  match patch_file s with
  | None => 47%N ∉ s
  | Some r =>
    ∃ d f, s = d ++ 47%N :: f ∧ (47%N ∉ f)
           ∧ r = replace_char 46%N [35%N] d ++ 47%N :: f
           ∧ (46%N ∉ replace_char 46%N [35%N] d)
           ∧ length r = length s
  end.
Proof.
  unfold patch_file. pose proof (rsplit_slash_spec s) as Hs.
  destruct (rsplit_slash s) as [[d f]|]; [|done].
  destruct Hs as [-> Hf]. exists d, f. split_and!; try done.
  - apply replace_char_removes.
    apply (bool_decide_unpack _). vm_compute. exact I.
  - cbn [app]. by rewrite !length_app, replace_char_length_one.
Qed.

End TextFacts.

Module Utf8RoundTrip.

Import provider_tst codeparser Samples Notions Utf8Facts.
Local Open Scope N_scope.

Lemma to_N_byte_of_N n : n < 256 → Byte.to_N (byte_of_N n) = n.
Proof.
  intros Hn. unfold byte_of_N. destruct (Byte.of_N n) as [c|] eqn:E.
  - cbn. by apply Byte.to_of_N.
  - apply Byte.of_N_None_iff in E. lia.
Qed.

Lemma byte_of_N_to_N c : byte_of_N (Byte.to_N c) = c.
Proof. unfold byte_of_N. by rewrite Byte.of_to_N. Qed.

Lemma to_N_inj c d : Byte.to_N c = Byte.to_N d → c = d.
Proof.
  intros E. pose proof (Byte.of_to_N c) as Hc. rewrite E, Byte.of_to_N in Hc.
  congruence.
Qed.

Lemma to_N_lt c : Byte.to_N c < 256.
Proof. pose proof (Byte.to_N_bounded c). lia. Qed.

Lemma divmod64 a r : r < 64 → (a * 64 + r) / 64 = a ∧ (a * 64 + r) mod 64 = r.
Proof.
  intros Hr. split.
  - symmetry. apply (N.div_unique _ _ _ r); lia.
  - symmetry. apply (N.mod_unique _ _ a); lia.
Qed.

Lemma div4096 ch : ch / 4096 = ch / 64 / 64.
Proof. by rewrite N.Div0.div_div. Qed.

Lemma div262144 ch : ch / 262144 = ch / 64 / 64 / 64.
Proof. by rewrite !N.Div0.div_div. Qed.

Lemma is_continuation_spec ch :
  is_continuation ch = true ↔ 0x80 ≤ ch < 0xC0.
Proof.
  unfold is_continuation. rewrite andb_true_iff, N.leb_le, N.ltb_lt. done.
Qed.

(** The decoder reads a well-formed sequence as the code point it
    encodes, under every error handler. *)
Lemma encodes_decode e seq ch rest :
  encodes seq ch →
  utf8_decode e (seq ++ rest) = emit ch (utf8_decode e rest).
Proof.
  destruct 1 as [c1 H1|c1 c2 H1 H2|c1 c2 c3 H1 H2 H2' H3
                |c1 c2 c3 c4 H1 H2 H2' H3 H4];
    cbn [app]; rewrite utf8_decode_cons; cbv zeta.
  - by rewrite (proj2 (N.ltb_lt _ _) H1).
  - rewrite (proj2 (N.ltb_ge _ 0x80)), (proj2 (N.ltb_ge _ 0xC2)),
      (proj2 (N.ltb_lt _ 0xE0)) by lia.
    by rewrite H2.
  - rewrite (proj2 (N.ltb_ge _ 0x80)), (proj2 (N.ltb_ge _ 0xC2)),
      (proj2 (N.ltb_ge _ 0xE0)), (proj2 (N.ltb_lt _ 0xF0)) by lia.
    by rewrite H2, H2', H3.
  - rewrite (proj2 (N.ltb_ge _ 0x80)), (proj2 (N.ltb_ge _ 0xC2)),
      (proj2 (N.ltb_ge _ 0xE0)), (proj2 (N.ltb_ge _ 0xF0)),
      (proj2 (N.ltb_lt _ 0xF5)) by lia.
    by rewrite H2, H2', H3, H4.
Qed.

Ltac ranges :=
  repeat match goal with
         | H : is_continuation _ = true |- _ =>
             apply is_continuation_spec in H
         | H : (if (?a <? ?b)%N then _ else _) = false |- _ =>
             destruct (N.ltb_spec a b); apply N.eqb_neq in H
         end.

(** The encoder, one character at a time. *)
Lemma encodes_at seq ch ch' : encodes seq ch' → ch = ch' → encodes seq ch.
Proof. by intros H ->. Qed.

Lemma utf8_encode_cons_encodes ch s :
  encodable ch →
  ∃ seq, encodes seq ch
         ∧ utf8_encode (ch :: s) = (r ← utf8_encode s; Ok (seq ++ r)).
Proof.
  intros Hch. unfold encodable in Hch. cbn [utf8_encode].
  pose proof (N.div_mod ch 64 ltac:(done)) as E1.
  pose proof (N.mod_lt ch 64 ltac:(done)) as L1.
  pose proof (N.div_mod (ch / 64) 64 ltac:(done)) as E2.
  pose proof (N.mod_lt (ch / 64) 64 ltac:(done)) as L2.
  pose proof (N.div_mod (ch / 64 / 64) 64 ltac:(done)) as E3.
  pose proof (N.mod_lt (ch / 64 / 64) 64 ltac:(done)) as L3.
  pose proof (N.le_0_l (ch mod 64)) as P1.
  pose proof (N.le_0_l ((ch / 64) mod 64)) as P2.
  pose proof (N.le_0_l ((ch / 64 / 64) mod 64)) as P3.
  pose proof (N.le_0_l (ch / 64)) as Q1.
  pose proof (N.le_0_l (ch / 64 / 64)) as Q2.
  pose proof (N.le_0_l (ch / 64 / 64 / 64)) as Q3.
  rewrite div4096, div262144.
  destruct (N.ltb_spec ch 0x80) as [Hlt|Hge1].
  { exists [byte_of_N ch]. split; [|done].
    assert (Byte.to_N (byte_of_N ch) = ch) as T1
      by (apply to_N_byte_of_N; lia).
    eapply encodes_at; [apply encodes1|]; lia. }
  destruct (N.ltb_spec ch 0x800) as [Hlt|Hge2].
  { eexists [_; _]. split; [|reflexivity].
    set (c1 := byte_of_N _). set (c2 := byte_of_N _).
    assert (Byte.to_N c1 = 0xC0 + ch / 64) as T1
      by (apply to_N_byte_of_N; lia).
    assert (Byte.to_N c2 = 0x80 + ch mod 64) as T2
      by (apply to_N_byte_of_N; lia).
    eapply encodes_at; [apply encodes2|lia]; [lia|].
    apply is_continuation_spec. lia. }
  destruct ((0xD800 <=? ch) && (ch <? 0xE000) || (0x110000 <=? ch)) eqn:Hbad.
  { exfalso. apply orb_true_iff in Hbad as [Hbad|Hbad].
    - apply andb_true_iff in Hbad as [?%N.leb_le ?%N.ltb_lt]. lia.
    - apply N.leb_le in Hbad. lia. }
  destruct (N.ltb_spec ch 0x10000) as [Hlt|Hge3].
  { eexists [_; _; _]. split; [|reflexivity].
    set (c1 := byte_of_N _). set (c2 := byte_of_N _). set (c3 := byte_of_N _).
    assert (Byte.to_N c1 = 0xE0 + ch / 64 / 64) as T1
      by (apply to_N_byte_of_N; lia).
    assert (Byte.to_N c2 = 0x80 + (ch / 64) mod 64) as T2
      by (apply to_N_byte_of_N; lia).
    assert (Byte.to_N c3 = 0x80 + ch mod 64) as T3
      by (apply to_N_byte_of_N; lia).
    eapply encodes_at; [apply encodes3|lia];
      [lia|apply is_continuation_spec; lia| |apply is_continuation_spec; lia].
    destruct (N.ltb_spec (Byte.to_N c2) 0xA0);
      [apply N.eqb_neq|apply N.eqb_neq]; lia. }
  eexists [_; _; _; _]. split; [|reflexivity].
  set (c1 := byte_of_N _). set (c2 := byte_of_N _).
  set (c3 := byte_of_N _). set (c4 := byte_of_N _).
  assert (Byte.to_N c1 = 0xF0 + ch / 64 / 64 / 64) as T1
    by (apply to_N_byte_of_N; lia).
  assert (Byte.to_N c2 = 0x80 + (ch / 64 / 64) mod 64) as T2
    by (apply to_N_byte_of_N; lia).
  assert (Byte.to_N c3 = 0x80 + (ch / 64) mod 64) as T3
    by (apply to_N_byte_of_N; lia).
  assert (Byte.to_N c4 = 0x80 + ch mod 64) as T4
    by (apply to_N_byte_of_N; lia).
  eapply encodes_at; [apply encodes4|lia];
    [lia|apply is_continuation_spec; lia| |
     apply is_continuation_spec; lia|apply is_continuation_spec; lia].
  destruct (N.ltb_spec (Byte.to_N c2) 0x90);
    [apply N.eqb_neq|apply N.eqb_neq]; lia.
Qed.

Lemma utf8_encode_cons_bad ch s :
  ¬ encodable ch → utf8_encode (ch :: s) = Raise UnicodeEncodeError.
Proof.
  unfold encodable. intros Hch. cbn [utf8_encode].
  rewrite (proj2 (N.ltb_ge _ 0x80)), (proj2 (N.ltb_ge _ 0x800)) by lia.
  destruct ((0xD800 <=? ch) && (ch <? 0xE000) || (0x110000 <=? ch)) eqn:Hbad;
    [done|].
  apply orb_false_iff in Hbad as [Hb1 ?%N.leb_gt].
  apply andb_false_iff in Hb1 as [?%N.leb_gt|?%N.ltb_ge]; lia.
Qed.

(** A code point has one encoding. *)
Lemma encodes_encodable seq ch : encodes seq ch → encodable ch.
Proof.
  unfold encodable.
  destruct 1 as [c1 H1|c1 c2 H1 H2|c1 c2 c3 H1 H2 H2' H3
                |c1 c2 c3 c4 H1 H2 H2' H3 H4];
    repeat match goal with
           | H : is_continuation _ = true |- _ =>
               apply is_continuation_spec in H
           end.
  - lia.
  - lia.
  - destruct (N.ltb_spec (Byte.to_N c2) 0xA0);
      apply N.eqb_neq in H2'; lia.
  - destruct (N.ltb_spec (Byte.to_N c2) 0x90);
      apply N.eqb_neq in H2'; lia.
Qed.

Lemma encodes_length seq ch : encodes seq ch → (1 ≤ length seq ≤ 4)%nat.
Proof. destruct 1; cbn; lia. Qed.

Lemma encodes_inj seq seq' ch : encodes seq ch → encodes seq' ch → seq = seq'.
Proof.
  intros H1 H2.
  pose proof (encodes_decode Strict seq ch [] H1) as D1.
  pose proof (encodes_decode Strict seq' ch [] H2) as D2.
  destruct (utf8_encode_cons_encodes ch [] (encodes_encodable _ _ H1))
    as (seq0 & H0 & _).
  assert (∀ sq, encodes sq ch → sq = seq0) as Huniq.
  { clear seq seq' H1 H2 D1 D2. intros sq Hsq.
    destruct Hsq as [c1 H1|c1 c2 H1 H2|c1 c2 c3 H1 H2 H2' H3
                    |c1 c2 c3 c4 H1 H2 H2' H3 H4];
      inversion H0 as [d1 G1 Eq1 Eq2|d1 d2 G1 G2 Eq1 Eq2
                      |d1 d2 d3 G1 G2 G2' G3 Eq1 Eq2
                      |d1 d2 d3 d4 G1 G2 G2' G3 G4 Eq1 Eq2];
      ranges; try lia;
      repeat f_equal; apply to_N_inj; lia. }
  by rewrite (Huniq _ H1), (Huniq _ H2).
Qed.

Lemma utf8_encode_cons_seq seq ch s :
  encodes seq ch →
  utf8_encode (ch :: s) = (r ← utf8_encode s; Ok (seq ++ r)).
Proof.
  intros Hseq.
  destruct (utf8_encode_cons_encodes ch s (encodes_encodable _ _ Hseq))
    as (seq' & Hseq' & ->).
  by rewrite (encodes_inj _ _ _ Hseq Hseq').
Qed.

Lemma utf8_encode_decode e s bs :
  utf8_encode s = Ok bs → utf8_decode e bs = Ok s.
Proof.
  revert bs. induction s as [|ch s IH]; intros bs.
  { by intros [= <-]. }
  destruct (decide (encodable ch)) as [Hch|Hch].
  - destruct (utf8_encode_cons_encodes ch s Hch) as (seq & Hseq & ->).
    destruct (utf8_encode s) as [r|]; [|done]. cbn. intros [= <-].
    rewrite (encodes_decode _ _ _ _ Hseq), (IH r eq_refl). done.
  - by rewrite utf8_encode_cons_bad.
Qed.

Lemma utf8_decode_encode bs s :
  utf8_decode Strict bs = Ok s → utf8_encode s = Ok bs.
Proof.
  revert s.
  apply (utf8_decode_ind Strict
           (λ bs res, ∀ s, res = Ok s → utf8_encode s = Ok bs)).
  - by intros s [= <-].
  - done.
  - intros seq ch rest Hseq IH s. unfold emit.
    destruct (utf8_decode Strict rest) as [r|]; [|done].
    cbn. intros [= <-].
    rewrite (utf8_encode_cons_seq _ _ _ Hseq), (IH r eq_refl). done.
Qed.

(** Strict encoding and strict decoding are inverse to each other: a
    text encodes to some bytes exactly when these bytes decode to the
    text. *)
Lemma utf8_encode_iff_decode (s : str) (bs : bytes) :
  utf8_encode s = Ok bs ↔ utf8_decode Strict bs = Ok s.
Proof. split; [apply utf8_encode_decode|apply utf8_decode_encode]. Qed.

(** ** The encoder with an error handler *)

Lemma utf8_encode_with_strict s : utf8_encode_with Strict s = utf8_encode s.
Proof.
  induction s as [|ch s IH]; [done|].
  cbn [utf8_encode_with utf8_encode]. rewrite IH. done.
Qed.

Lemma utf8_encode_with_cons_ok e ch s :
  encodable ch → utf8_encode_with e (ch :: s)
  = (r ← utf8_encode_with e s; r1 ← utf8_encode [ch]; Ok (r1 ++ r)).
Proof.
  intros Hch. unfold encodable in Hch. cbn [utf8_encode_with utf8_encode].
  destruct (N.ltb_spec ch 0x80);
    [by destruct (utf8_encode_with e s)|].
  destruct (N.ltb_spec ch 0x800);
    [by destruct (utf8_encode_with e s)|].
  destruct ((0xD800 <=? ch) && (ch <? 0xE000) || (0x110000 <=? ch)) eqn:Hbad.
  { exfalso. apply orb_true_iff in Hbad as [Hbad|Hbad].
    - apply andb_true_iff in Hbad as [?%N.leb_le ?%N.ltb_lt]. lia.
    - apply N.leb_le in Hbad. lia. }
  destruct (N.ltb_spec ch 0x10000); by destruct (utf8_encode_with e s).
Qed.

Lemma utf8_encode_with_cons_bad e ch s :
  ¬ encodable ch →
  utf8_encode_with e (ch :: s)
  = match e with
    | Strict => Raise UnicodeEncodeError
    | Ignore => utf8_encode_with e s
    | Replace => r ← utf8_encode_with e s; Ok (x3f :: r)
    end.
Proof.
  unfold encodable. intros Hch. cbn [utf8_encode_with].
  rewrite (proj2 (N.ltb_ge _ 0x80)), (proj2 (N.ltb_ge _ 0x800)) by lia.
  destruct ((0xD800 <=? ch) && (ch <? 0xE000) || (0x110000 <=? ch)) eqn:Hbad;
    [done|].
  apply orb_false_iff in Hbad as [Hb1 ?%N.leb_gt].
  apply andb_false_iff in Hb1 as [?%N.leb_gt|?%N.ltb_ge]; lia.
Qed.

(** Encoding with [errors="ignore"] never raises; it is the strict
    encoding of the text without the characters that have none. *)
Lemma utf8_encode_ignore s :
  ∃ bs, utf8_encode_with Ignore s = Ok bs
        ∧ utf8_encode (filter encodable s) = Ok bs.
Proof.
  induction s as [|ch s (bs & E1 & E2)]; [by exists []|].
  destruct (decide (encodable ch)) as [Hch|Hch].
  - rewrite filter_cons_True by done.
    destruct (utf8_encode_cons_encodes ch [] Hch) as (seq & Hseq & E).
    assert (utf8_encode [ch] = Ok seq) as E'
      by (rewrite E; cbn; by rewrite app_nil_r).
    rewrite (utf8_encode_with_cons_ok _ _ _ Hch), E1.
    rewrite (utf8_encode_cons_seq seq ch (filter encodable s) Hseq), E2.
    cbn [mbind result_bind bind]. rewrite E'. eauto.
  - rewrite filter_cons_False by done.
    rewrite (utf8_encode_with_cons_bad _ _ _ Hch). eauto.
Qed.

(** Encoding with [errors="ignore"] never raises, and decoding its
    result gives the text without the characters that cannot be encoded
    (lone surrogates); a text that encodes strictly is encoded the same
    way. *)
Lemma utf8_encode_ignore_drops_unencodable (s : str) :
  ∃ bs, utf8_encode_with Ignore s = Ok bs
        ∧ utf8_decode Strict bs = Ok (filter encodable s)
        ∧ (∀ bs', utf8_encode s = Ok bs' → bs' = bs).
Proof.
  destruct (utf8_encode_ignore s) as (bs & E1 & E2).
  exists bs. split; [done|]. split; [by apply utf8_encode_decode|].
  intros bs' E. rewrite <- E2 in E1.
  assert (filter encodable s = s) as Hs.
  { clear E1 E2. revert bs' E. induction s as [|ch s IH]; intros bs' E; [done|].
    destruct (decide (encodable ch)) as [Hch|Hch].
    - rewrite filter_cons_True by done. f_equal.
      destruct (utf8_encode_cons_encodes ch s Hch) as (seq & _ & E').
      rewrite E' in E. destruct (utf8_encode s) as [r|]; [|done].
      by apply (IH r).
    - by rewrite utf8_encode_cons_bad in E. }
  rewrite Hs in E2. congruence.
Qed.

(** X21. The code of a function whose bytes are the encoding of a text is
    that text: on valid UTF-8 [Func.code] loses nothing. *)
Theorem code_of_encoded_text (f : Func) (s : str) :
  utf8_encode s = Ok (code_bytes f) → code f = Ok s.
Proof. intros E. unfold code. by apply utf8_encode_decode. Qed.

Lemma code_of_encoded_text_witness :
  utf8_encode (u "int foo(){return 1;}") = Ok (code_bytes (func_of_code foo_src))
  ∧ code (func_of_code foo_src) = Ok (u "int foo(){return 1;}").
Proof.
  assert (utf8_encode (u "int foo(){return 1;}")
          = Ok (code_bytes (func_of_code foo_src))) as E
    by (vm_compute; reflexivity).
  split; [exact E|].
  exact (code_of_encoded_text (func_of_code foo_src) _ E).
Defined.

End Utf8RoundTrip.

Module StripFacts.

Import provider_re provider_tst codeparser Samples Notions RegexFacts.
Local Open Scope N_scope.

Lemma replacer_bounds m :
  (2 ≤ length m)%nat →
  (length (replacer m) ≤ length m)%nat
  ∧ (length (filter (λ c, c = NEWLINE) (replacer m))
     ≤ length (filter (λ c, c = NEWLINE) m))%nat.
Proof.
  intros Hm. destruct m as [|c m]; [done|]. cbn [replacer].
  destruct (N.eqb_spec c SLASH) as [->|Hc]; [|done].
  split; [cbn in *; lia|].
  rewrite (filter_cons_False _ SPACE) by done. cbn. lia.
Qed.

(** X15. The regular-expression stripper never makes a text longer and
    never adds a line: the result has at most as many characters and at
    most as many newlines as the text. *)
Theorem remove_comments_regex_shrinks (s : str) :
  (length (remove_comments_regex s) ≤ length s)%nat
  ∧ (length (filter (λ c, c = NEWLINE) (remove_comments_regex s))
     ≤ length (filter (λ c, c = NEWLINE) s))%nat.
Proof.
  induction s as [s IH] using (induction_ltof1 _ (@length N)).
  unfold ltof in IH. destruct s as [|c s1]; [done|].
  rewrite remove_comments_regex_cons.
  destruct (rx_match (c :: s1)) as [n|] eqn:E.
  - apply rx_match_bounds in E.
    destruct (IH (skipn n (c :: s1))) as [IH1 IH2].
    { rewrite length_skipn. cbn in *. lia. }
    destruct (replacer_bounds (firstn n (c :: s1))) as [R1 R2].
    { rewrite length_take. cbn in *. lia. }
    pose proof (f_equal length (take_drop n (c :: s1))) as L1.
    pose proof (f_equal (λ l, length (filter (λ c, c = NEWLINE) l))
                  (take_drop n (c :: s1))) as L2.
    cbv beta in L2. rewrite filter_app in L2. rewrite length_app in L1, L2.
    rewrite !filter_app, !length_app. lia.
  - destruct (IH s1) as [IH1 IH2]; [cbn; lia|].
    split; [cbn; lia|].
    destruct (decide (c = NEWLINE)) as [->|Hc].
    + rewrite !filter_cons_True by done. cbn. lia.
    + rewrite !filter_cons_False by done. done.
Qed.

(** X16. A text without a slash holds no comment: the stripper returns it
    unchanged, quotes or not. *)
Theorem remove_comments_regex_without_slash (s : str) :
  SLASH ∉ s → remove_comments_regex s = s.
Proof.
  induction s as [s IH] using (induction_ltof1 _ (@length N)).
  unfold ltof in IH. destruct s as [|c s1]; [done|]. intros Hs.
  pose proof Hs as [Hc Hs1]%not_elem_of_cons.
  rewrite remove_comments_regex_cons.
  destruct (rx_match (c :: s1)) as [n|] eqn:E.
  - pose proof (rx_match_bounds _ _ E) as Hn.
    destruct n as [|n]; [lia|]. cbn [firstn skipn replacer].
    rewrite (proj2 (N.eqb_neq c SLASH)) by congruence. rewrite IH.
    + cbn. by rewrite take_drop.
    + rewrite length_skipn. cbn. lia.
    + intros Hin. apply Hs1. by apply (subseteq_drop n s1).
  - f_equal. apply IH; [cbn; lia|done].
Qed.

Lemma remove_comments_regex_without_slash_witness :
  (SLASH ∉ u "char c = '*';")
  ∧ remove_comments_regex (u "char c = '*';") = u "char c = '*';".
Proof.
  assert (SLASH ∉ u "char c = '*';") as Hs.
  { apply (bool_decide_unpack _). vm_compute. exact I. }
  split; [exact Hs|].
  exact (remove_comments_regex_without_slash (u "char c = '*';") Hs).
Defined.

(** X17. A string or character literal at the scan position is copied
    as it stands, whatever comment markers it holds, and the scan goes on
    behind its closing quote. *)
Theorem remove_comments_regex_keeps_literal (q : N) (body rest : str) :
  is_quote q →
  quoted_len q body = Some (length body) →
  remove_comments_regex (q :: body ++ rest)
  = q :: body ++ remove_comments_regex rest.
Proof.
  intros Hq Hbody.
  pose proof (quoted_len_app q body (length body) rest Hbody) as E.
  rewrite firstn_all in E.
  rewrite (strip_quoted q (body ++ rest) (length body) Hq E).
  by rewrite take_app_length, drop_app_length.
Qed.

Lemma remove_comments_regex_keeps_literal_witness :
  is_quote DQUOTE
  ∧ quoted_len DQUOTE (u "/*x*/" ++ [DQUOTE])
    = Some (length (u "/*x*/" ++ [DQUOTE]))
  ∧ remove_comments_regex (DQUOTE :: (u "/*x*/" ++ [DQUOTE]) ++ u "//y")
    = DQUOTE :: (u "/*x*/" ++ [DQUOTE]) ++ remove_comments_regex (u "//y").
Proof.
  assert (is_quote DQUOTE) as Hq by (by right).
  assert (quoted_len DQUOTE (u "/*x*/" ++ [DQUOTE])
          = Some (length (u "/*x*/" ++ [DQUOTE]))) as Hb
    by (vm_compute; reflexivity).
  split; [exact Hq|]. split; [exact Hb|].
  exact (remove_comments_regex_keeps_literal DQUOTE _ (u "//y") Hq Hb).
Defined.

(** ** The dispatcher [remove_comments] *)

Lemma supported_iff lang :
  supported lang ↔ lang ∈ [ "C"; "C++"; "Java" ].
Proof.
  unfold supported. rewrite !elem_of_cons, elem_of_nil. tauto.
Qed.

Lemma utf8_encode_result s :
  (∃ bs, utf8_encode s = Ok bs) ∨ utf8_encode s = Raise UnicodeEncodeError.
Proof.
  induction s as [|ch s IH]; [left; by eexists|].
  cbn [utf8_encode].
  destruct IH as [[bs ->]| ->]; repeat case_match; cbn; eauto.
Qed.

(** X18. [remove_comments] strips with the regular expression for the
    three supported languages, without parsing and without raising; for
    every other tag it raises, so the tree-based stripper never gives it
    a result. *)
Theorem remove_comments_dispatch {TS : TreeSitter} (code : str) (lang : string) :
  (supported lang
   ∧ remove_comments code lang = Ok (remove_comments_regex code))
  ∨ (¬ supported lang
     ∧ (remove_comments code lang = Raise (KeyError lang)
        ∨ remove_comments code lang = Raise UnicodeEncodeError)).
Proof.
  unfold remove_comments. destruct (decide (supported lang)) as [Hs|Hs].
  - left. split; [done|].
    by rewrite bool_decide_eq_true_2 by (by apply supported_iff).
  - right. split; [done|].
    rewrite bool_decide_eq_false_2 by (by rewrite <- supported_iff).
    destruct (utf8_encode_result code) as [[bs ->]| ->]; [|by right].
    left. cbn. unfold remove_comments_ast, parse_ast, get_parser, get_language.
    by rewrite (RegistryFacts.lang_mapping_unsupported lang Hs).
Qed.

End StripFacts.

Module ExtractionFacts.

Import provider_re provider_tst codeparser Samples Notions.
Import RegistryFacts Utf8RoundTrip TreeStripFacts.
Local Open Scope nat_scope.

(** ** The captures *)

Lemma List_filter_sublist {A} (f : A → bool) (l : list A) :
  List.filter f l `sublist_of` l.
Proof.
  induction l as [|x l IH]; [constructor|].
  cbn. destruct (f x); by constructor.
Qed.

Lemma definition_captures_supported lang :
  supported lang → is_Some (FUNCTION_DEFINITION_CAPTURES !! lang).
Proof. intros [-> | [-> | ->]]; by eexists. Qed.

(** X8. What [capture_function_definitions] returns for a supported
    language: the captured nodes in the order of the captures, without
    those that lie strictly inside another captured node or start with a
    control keyword, and all the others. *)
Theorem capture_function_definitions_filters_captures
    {TS : TreeSitter} (n : NodeRef) (lang : string) :
  supported lang →
  ∃ pat l r,
    FUNCTION_DEFINITION_CAPTURES !! lang = Some pat
    ∧ get_language lang = Ok l
    ∧ capture_function_definitions n lang = Ok r
    ∧ let caps := (ts_captures {| query_language := l; pattern := pat |} n).*1
      in r `sublist_of` caps
         ∧ ∀ x, x ∈ caps →
             (x ∈ r ↔
              (∀ y, y ∈ caps → inside x y = false)
              ∧ (∀ kw, kw ∈ CONTROL_KEYWORDS →
                       startswith (text x) kw = false)).
Proof.
  intros Hs. destruct (definition_captures_supported lang Hs) as [pat Hpat].
  destruct (lang_mapping_supported lang Hs) as [l Hl].
  exists pat, l. eexists. split; [done|].
  unfold capture_function_definitions, captures, get_query, get_language.
  rewrite Hpat, Hl. cbn. split; [done|]. split; [reflexivity|].
  set (caps := (ts_captures _ n).*1). split.
  - etrans; apply List_filter_sublist.
  - intros x Hx. split.
    + intros Hr. apply list_elem_of_In, filter_In in Hr as [Hr H2].
      apply filter_In in Hr as [_ H1].
      apply negb_true_iff in H1. apply negb_true_iff in H2. split.
      * intros y Hy. destruct (inside x y) eqn:E; [|done]. exfalso.
        apply not_true_iff_false in H1.
        apply H1, existsb_exists. exists y.
        split; [by apply list_elem_of_In|done].
      * intros kw Hkw. destruct (startswith (text x) kw) eqn:E; [|done].
        exfalso. apply not_true_iff_false in H2.
        change (existsb (startswith (text x)) CONTROL_KEYWORDS ≠ true) in H2.
        apply H2, existsb_exists. exists kw.
        split; [by apply list_elem_of_In|done].
    + intros [H1 H2].
      assert (existsb (inside x) caps = false) as F1.
      { apply not_true_iff_false.
        intros (y & Hy%list_elem_of_In & E)%existsb_exists.
        by rewrite H1 in E. }
      assert (existsb (startswith (text x)) CONTROL_KEYWORDS = false) as F2.
      { apply not_true_iff_false.
        intros (kw & Hkw%list_elem_of_In & E)%existsb_exists.
        by rewrite H2 in E. }
      apply list_elem_of_In, filter_In.
      split; [apply filter_In; split; [by apply list_elem_of_In|]|].
      * cbv beta. by rewrite F1.
      * change (negb (existsb (startswith (text x)) CONTROL_KEYWORDS) = true).
        by rewrite F2.
Qed.

Lemma capture_function_definitions_filters_captures_witness :
  supported "C"
  ∧ ∃ r, capture_function_definitions (TS := sample_parser)
           (root_ref static_fn_src static_fn_tree) "C" = Ok r
         ∧ ∀ x y, x ∈ r → y ∈ r → inside x y = false.
Proof.
  assert (supported "C") as Hs by (by left).
  split; [exact Hs|].
  destruct (capture_function_definitions_filters_captures
              (TS := sample_parser)
              (root_ref static_fn_src static_fn_tree) "C" Hs)
    as (pat & l & r & _ & _ & Hr & Hsub & Hin).
  exists r. split; [exact Hr|].
  intros x y Hx Hy.
  apply (proj1 (Hin x (sublist_subseteq _ _ Hsub x Hx)) Hx).
  exact (sublist_subseteq _ _ Hsub y Hy).
Defined.

(** X9. Classes are captured for C++ only: for every other tag, the
    supported tags [C] and [Java] included, [capture_class] and
    [capture_class_name] raise [ParseLangNotSupportError]; for C++ each
    returns the nodes, without the capture names and in the order of the
    library, that its pattern captures below the node. *)
Theorem capture_class_only_for_cpp {TS : TreeSitter} (n : NodeRef) :
  (∀ lang, lang ≠ "C++" →
     capture_class n lang = Raise (ParseLangNotSupportError lang)
     ∧ capture_class_name n lang = Raise (ParseLangNotSupportError lang))
  ∧ capture_class n "C++"
    = Ok (ts_captures
            {| query_language := tree_sitter_cpp;
               pattern := "(class_specifier) @class (struct_specifier) @class" |}
            n).*1
  ∧ capture_class_name n "C++"
    = Ok (ts_captures
            {| query_language := tree_sitter_cpp;
               pattern := "(class_specifier name: _ @name) @class (struct_specifier name: _ @name) @class" |}
            n).*1.
Proof.
  split; [|split; reflexivity].
  intros lang Hne. unfold capture_class, capture_class_name,
    CLASS_QUERY, CLASS_NAME_QUERY.
  by rewrite !lookup_singleton_ne.
Qed.

(** ** The name of a function *)

Lemma unqualify_not_qualified code anc n r :
  unqualify code anc n = Some r → type (node r) ≠ "qualified_identifier".
Proof.
  revert anc. induction n as [ty s e f cs IH] using Node_ind'. intros anc.
  cbn [unqualify]. destruct (String.eqb_spec ty "qualified_identifier").
  - generalize (mkNode ty s e f cs). intros pn. generalize 0.
    induction cs as [|c cs IHcs]; intros i; [done|].
    apply Forall_cons in IH as [IHc IH].
    destruct (bool_decide (field_name c = Some "name")); [apply IHc|].
    by apply IHcs.
  - by intros [= <-].
Qed.

(** X10. The node [capture_function_name] returns as the name of a
    function is never a qualified identifier when the language is C++,
    and for the other languages its text is never a reserved word. *)
Theorem capture_function_name_result
    {TS : TreeSitter} (n : NodeRef) (lang : string) (r : NodeRef) :
  capture_function_name n lang = Ok (Some r) →
  (lang = "C++" → type (node r) ≠ "qualified_identifier")
  ∧ (lang ≠ "C++" →
     ∃ t, utf8_decode Strict (text r) = Ok t ∧ t ∉ CLIKE_BAD_FUNCNAME).
Proof.
  unfold capture_function_name.
  destruct (FUNCTION_DECL_CAPTURES !! lang) as [capture|]; [|done].
  destruct (captures lang capture n) as [[|[first cname] rest]|]; [done| |done].
  cbn [mbind result_bind bind].
  destruct (utf8_decode Strict (text first)) as [t|] eqn:Et; [|done].
  cbn [mbind result_bind bind]. case_bool_decide as Hbad; [done|].
  destruct (String.eqb_spec lang "C++") as [->|Hne].
  - intros [= Hr]. split; [|done]. intros _.
    by apply unqualify_not_qualified in Hr.
  - intros [= <-]. split; [done|]. intros _. eauto.
Qed.

Lemma capture_function_name_result_witness :
  ∃ r, capture_function_name (TS := declarator_parser)
         (root_ref static_fn_src static_fn_tree) "C" = Ok (Some r)
       ∧ ∃ t, utf8_decode Strict (text r) = Ok t ∧ t ∉ CLIKE_BAD_FUNCNAME.
Proof.
  eexists. split; [vm_compute; reflexivity|].
  eapply (capture_function_name_result (TS := declarator_parser)
            (root_ref static_fn_src static_fn_tree) "C");
    [vm_compute; reflexivity|done].
Defined.

(** ** The loop of [extract_ast_functions] *)

Lemma collect_functions_idx he keep lang ctx k caps :
  idx <$> collect_functions he keep lang ctx k caps
  = seq k (length (collect_functions he keep lang ctx k caps)).
Proof.
  revert k. induction caps as [|n caps IH]; intros k; [done|].
  cbn [collect_functions]. destruct (he n && negb keep); [apply IH|].
  cbn. by rewrite IH.
Qed.

Lemma collect_functions_fnode he keep lang ctx k caps :
  fnode <$> collect_functions he keep lang ctx k caps
  = List.filter (λ n, negb (he n && negb keep)) caps.
Proof.
  revert k. induction caps as [|n caps IH]; intros k; [done|].
  cbn [collect_functions List.filter].
  destruct (he n && negb keep); cbn; by rewrite IH.
Qed.

Lemma collect_functions_fields he keep lang0 ctx k caps :
  Forall (λ f, lang f = lang0 ∧ ctx_code f = ctx)
         (collect_functions he keep lang0 ctx k caps).
Proof.
  revert k. induction caps as [|n caps IH]; intros k; [done|].
  cbn [collect_functions]. destruct (he n && negb keep); [apply IH|].
  constructor; [done|apply IH].
Qed.

Lemma collect_functions_keep he lang ctx k caps :
  collect_functions he true lang ctx k caps
  = collect_functions (λ _, false) true lang ctx k caps.
Proof.
  revert k. induction caps as [|n caps IH]; intros k; [done|].
  cbn [collect_functions]. rewrite andb_false_r. cbn. by rewrite IH.
Qed.

(** X11. The functions [extract_ast_functions] returns are numbered
    0, 1, 2, ... without a gap, also when nodes with errors are left
    out; they are the captured nodes, in order, without the nodes with
    an error unless these are kept; each carries the language and the
    text of the root. *)
Theorem extract_ast_functions_numbers
    {TS : TreeSitter} (has_error : NodeRef → bool) (tree : Tree)
    (lang : string) (keep_error_node : bool) (fs : list Func) :
  extract_ast_functions has_error tree lang keep_error_node = Ok fs →
  idx <$> fs = seq 0 (length fs)
  ∧ (∃ caps, capture_function_definitions (tree_root tree) lang = Ok caps
             ∧ fnode <$> fs
               = List.filter
                   (λ n, negb (has_error n && negb keep_error_node)) caps)
  ∧ Forall (λ f, codeparser.lang f = lang
                 ∧ ctx_code f = text (tree_root tree)) fs.
Proof.
  unfold extract_ast_functions.
  destruct (capture_function_definitions (tree_root tree) lang)
    as [caps|]; [|done].
  cbn. intros [= <-]. split; [apply collect_functions_idx|]. split.
  - exists caps. split; [done|]. apply collect_functions_fnode.
  - apply collect_functions_fields.
Qed.

Lemma extract_ast_functions_numbers_witness :
  ∃ fs,
    extract_ast_functions (TS := sample_parser) no_errors
      {| tree_source := nested_unclosed_src;
         root_node := nested_unclosed_tree |} "C" false = Ok fs
    ∧ idx <$> fs = seq 0 (length fs).
Proof.
  eexists. split; [vm_compute; reflexivity|].
  eapply (extract_ast_functions_numbers (TS := sample_parser) no_errors
            {| tree_source := nested_unclosed_src;
               root_node := nested_unclosed_tree |} "C" false).
  vm_compute. reflexivity.
Defined.

(** ** [extract_functions] *)

Lemma extract_ast_functions_supported
    {TS : TreeSitter} he tree lang keep :
  supported lang →
  ∃ fs, extract_ast_functions he tree lang keep = Ok fs.
Proof.
  intros Hs. unfold extract_ast_functions.
  destruct (definition_captures_supported lang Hs) as [pat Hpat].
  destruct (lang_mapping_supported lang Hs) as [l Hl].
  unfold capture_function_definitions, captures, get_query, get_language.
  rewrite Hpat, Hl. cbn. eauto.
Qed.

(** X12. For a supported language [extract_functions] returns, whether
    it is given a text, bytes or a tree, with or without the removal of
    comments, and the functions it returns are numbered from 0
    without a gap. *)
Theorem extract_functions_returns
    {TS : TreeSitter} (has_error : NodeRef → bool) (src : Source)
    (lang : string) (_remove_comments keep_error_node : bool) :
  supported lang →
  ∃ fs, extract_functions has_error src lang _remove_comments keep_error_node
        = Ok fs
        ∧ idx <$> fs = seq 0 (length fs).
Proof.
  intros Hs. unfold extract_functions.
  destruct (lang_mapping_supported lang Hs) as [l Hl].
  assert (∀ tree, ∃ fs,
            extract_ast_functions has_error tree lang keep_error_node = Ok fs
            ∧ idx <$> fs = seq 0 (length fs)) as Hex.
  { intros tree.
    destruct (extract_ast_functions_supported has_error tree lang
                keep_error_node Hs) as [fs Hfs].
    exists fs. split; [done|].
    unfold extract_ast_functions in Hfs.
    destruct (capture_function_definitions (tree_root tree) lang); [|done].
    cbn in Hfs. injection Hfs as <-. apply collect_functions_idx. }
  assert (∀ s, parse_ast s lang = Ok (ts_parse l s)) as Hparse.
  { intros s. unfold parse_ast, get_parser, get_language. by rewrite Hl. }
  destruct src as [s|s|t]; cbn.
  - assert (∃ s', (if _remove_comments then remove_comments s lang else Ok s)
                  = Ok s') as [s' ->].
    { destruct _remove_comments; [|by eexists].
      unfold remove_comments.
      rewrite bool_decide_eq_true_2; [by eexists|].
      unfold supported in Hs. rewrite !elem_of_cons. tauto. }
    cbn. destruct (utf8_encode_ignore s') as (bs & -> & _). cbn.
    rewrite Hparse. cbn. apply Hex.
  - rewrite Hparse. cbn. apply Hex.
  - apply Hex.
Qed.

Lemma extract_functions_returns_witness :
  supported "C"
  ∧ ∃ fs,
      extract_functions (TS := sample_parser) no_errors
        (SrcBytes nested_unclosed_src) "C" false true = Ok fs
      ∧ idx <$> fs = seq 0 (length fs).
Proof.
  assert (supported "C") as Hs by (by left).
  split; [exact Hs|].
  exact (extract_functions_returns (TS := sample_parser) no_errors
           (SrcBytes nested_unclosed_src) "C" false true Hs).
Defined.

(** X20. A text is handled as its bytes: [extract_functions] on a [str]
    returns what it returns on the bytes that decode to the text without
    the characters that cannot be encoded (lone surrogates), which the
    encoding with [errors="ignore"] leaves out. *)
Theorem extract_functions_of_text
    {TS : TreeSitter} (has_error : NodeRef → bool) (s : str)
    (lang : string) (keep_error_node : bool) :
  ∃ bs, utf8_decode Strict bs = Ok (filter encodable s)
        ∧ extract_functions has_error (SrcStr s) lang false keep_error_node
          = extract_functions has_error (SrcBytes bs) lang false
              keep_error_node.
Proof.
  destruct (utf8_encode_ignore s) as (bs & E1 & E2).
  exists bs. split; [by apply utf8_encode_decode|].
  unfold extract_functions. cbn. by rewrite E1.
Qed.

(** X13. For an unsupported language [extract_functions] raises, and the
    kind of the error depends on what it is given: [KeyError] from the
    registry for bytes, and for a text whose comments are kept;
    [ParseLangNotSupportError] from the captures for a tree. *)
Theorem extract_functions_unsupported
    {TS : TreeSitter} (has_error : NodeRef → bool) (lang : string)
    (_remove_comments keep_error_node : bool) :
  ¬ supported lang →
  (∀ s, extract_functions has_error (SrcBytes s) lang _remove_comments
          keep_error_node = Raise (KeyError lang))
  ∧ (∀ s, extract_functions has_error (SrcStr s) lang false
            keep_error_node = Raise (KeyError lang))
  ∧ (∀ t, extract_functions has_error (SrcTree t) lang _remove_comments
            keep_error_node = Raise (ParseLangNotSupportError lang)).
Proof.
  intros Hs. unfold extract_functions. split_and!.
  - intros s. cbn. by rewrite (parse_ast_unsupported s lang Hs).
  - intros s. cbn. destruct (utf8_encode_ignore s) as (bs & -> & _). cbn.
    by rewrite (parse_ast_unsupported bs lang Hs).
  - intros t. cbn. unfold extract_ast_functions.
    by rewrite (capture_function_definitions_unsupported _ lang Hs).
Qed.

Lemma extract_functions_unsupported_witness :
  ¬ supported "Go"
  ∧ extract_functions (TS := sample_parser) no_errors
      (SrcBytes static_fn_src) "Go" false true = Raise (KeyError "Go")
  ∧ extract_functions (TS := sample_parser) no_errors
      (SrcTree {| tree_source := static_fn_src;
                  root_node := static_fn_tree |}) "Go" false true
    = Raise (ParseLangNotSupportError "Go").
Proof.
  pose proof Go_unsupported as Hs.
  split; [exact Hs|].
  destruct (extract_functions_unsupported (TS := sample_parser) no_errors
              "Go" false true Hs) as (Hb & _ & Ht).
  split; [apply Hb|apply Ht].
Defined.

(** X14. [extract_function_declarations] returns what
    [extract_functions] returns on the same bytes when nodes with errors
    are kept. *)
Theorem extract_function_declarations_agrees
    {TS : TreeSitter} (has_error : NodeRef → bool) (code : bytes)
    (lang : string) (_remove_comments : bool) :
  extract_function_declarations code lang
  = extract_functions has_error (SrcBytes code) lang _remove_comments true.
Proof.
  unfold extract_function_declarations, extract_functions,
    _extract_functions_declarations, extract_ast_functions.
  cbn. destruct (parse_ast code lang) as [root|]; [|done]. cbn.
  unfold tree_root. cbn.
  destruct (capture_function_definitions (root_ref code root) lang)
    as [caps|]; [|done].
  cbn. by rewrite (collect_functions_keep has_error).
Qed.

End ExtractionFacts.

Module EqualityFacts.

Import provider_re provider_tst codeparser Samples Notions.
Import Utf8Facts FuncFacts RegexFacts.

Lemma Func_eq_codes (f g : Func) :
  ∃ c1 c2, code f = Ok c1 ∧ code g = Ok c2
           ∧ Func_eq f (inl g)
             = Ok (bool_decide (remove_whitespace (remove_comments_regex c1)
                                = remove_whitespace (remove_comments_regex c2))).
Proof.
  destruct (utf8_decode_ignore_total (code_bytes f)) as [c1 H1].
  destruct (utf8_decode_ignore_total (code_bytes g)) as [c2 H2].
  exists c1, c2. split; [done|]. split; [done|].
  by apply (Func_eq_spec f (inl g)).
Qed.

(** X22. [==] is an equivalence on functions: reflexive, symmetric and
    transitive. It looks at the bytes of the two nodes only, not at the
    language, the index or the context; and a function equals its own
    code with the comments stripped. *)
Theorem Func_eq_equivalence :
  (∀ f, Func_eq f (inl f) = Ok true)
  ∧ (∀ f g, Func_eq f (inl g) = Func_eq g (inl f))
  ∧ (∀ f g h, Func_eq f (inl g) = Ok true → Func_eq g (inl h) = Ok true →
              Func_eq f (inl h) = Ok true)
  ∧ (∀ f g, code_bytes f = code_bytes g → Func_eq f (inl g) = Ok true)
  ∧ (∀ f c, code f = Ok c →
            Func_eq f (inr (remove_comments_regex c)) = Ok true).
Proof.
  split_and!.
  - intros f. destruct (Func_eq_codes f f) as (c1 & c2 & H1 & H2 & ->).
    rewrite H1 in H2. injection H2 as <-. by rewrite bool_decide_eq_true_2.
  - intros f g.
    destruct (Func_eq_codes f g) as (c1 & c2 & H1 & H2 & ->).
    destruct (Func_eq_codes g f) as (c2' & c1' & H2' & H1' & ->).
    rewrite H1 in H1'. rewrite H2 in H2'. simplify_eq.
    f_equal. apply bool_decide_ext. split; congruence.
  - intros f g h.
    destruct (Func_eq_codes f g) as (c1 & c2 & H1 & H2 & ->).
    destruct (Func_eq_codes g h) as (c2' & c3 & H2' & H3 & ->).
    destruct (Func_eq_codes f h) as (c1' & c3' & H1' & H3' & ->).
    rewrite H1 in H1'. rewrite H2 in H2'. rewrite H3 in H3'. simplify_eq.
    intros [= E1%bool_decide_eq_true] [= E2%bool_decide_eq_true].
    f_equal. apply bool_decide_eq_true. congruence.
  - intros f g Hb.
    destruct (Func_eq_codes f g) as (c1 & c2 & H1 & H2 & ->).
    unfold code in H1, H2. rewrite Hb in H1. rewrite H1 in H2.
    injection H2 as <-. by rewrite bool_decide_eq_true_2.
  - intros f c Hc.
    rewrite (Func_eq_spec f (inr (remove_comments_regex c)) c
               (remove_comments_regex c) Hc eq_refl).
    by rewrite remove_comments_regex_idempotent, bool_decide_eq_true_2.
Qed.

End EqualityFacts.

Module EngineFacts.

Import provider_tst codeparser Samples Notions AbstractionFacts NumberingFacts.
Local Open Scope nat_scope.

Ltac steps :=
  unfold alloc_number in *; cbv beta iota zeta in *;
  repeat (case_match; try discriminate); simplify_eq;
  cbn [output lvar_map symbol_map label_map field_map vtype_map counts
       append set_lvar set_field set_label set_vtype set_symbol
       alloc_number] in *.

(** The cases of [visit] at a node of category [c]. *)
Ltac by_category Hv Hp E :=
  match type of E with
  | classify _ _ = FNAME => rewrite (visit_FNAME _ _ _ _ Hp E) in Hv
  | classify _ _ = FPARAM => rewrite (visit_FPARAM _ _ _ _ Hp E) in Hv
  | classify _ _ = LVAR => rewrite (visit_LVAR _ _ _ _ Hp E) in Hv
  | classify _ _ = FIELD => rewrite (visit_FIELD _ _ _ _ Hp E) in Hv
  | classify _ _ = LABEL_DEF => rewrite (visit_LABEL_DEF _ _ _ _ Hp E) in Hv
  | classify _ _ = LABEL_REF => rewrite (visit_LABEL_REF _ _ _ _ Hp E) in Hv
  | classify _ _ = VTYPE => rewrite (visit_VTYPE _ _ _ _ Hp E) in Hv
  | classify _ _ = LITERAL => rewrite (visit_LITERAL _ _ _ _ Hp E) in Hv
  | classify _ _ = CALL => rewrite (visit_CALL _ _ _ _ Hp E) in Hv
  | classify _ _ = IDENT => rewrite (visit_IDENT _ _ _ _ Hp E) in Hv
  | classify _ _ = DROPPED => rewrite (visit_DROPPED _ _ _ _ Hp E) in Hv
  | classify _ _ = OTHER => rewrite (visit_OTHER _ _ _ _ Hp E) in Hv
  end.

Section Run.
Context {KS : KnownSymbols}.
Variable P : Policy.

(** One turn of the loop appends at most one token. *)
Lemma visit_output st n st' :
  visit P st n = Ok st' →
  output st' = output st ∨ ∃ tok, output st' = output st ++ [tok].
Proof.
  intros Hv. destruct (parent n) as [p|] eqn:Hp;
    [|by rewrite visit_no_parent in Hv].
  destruct (classify n p) eqn:E; by_category Hv Hp E; steps; eauto.
Qed.

Lemma run_output_length st ns st' :
  run P st ns = Ok st' →
  length (output st') ≤ length (output st) + length ns.
Proof.
  revert st. induction ns as [|n ns IH]; intros st.
  { intros [= <-]. lia. }
  intros (st1 & Hv & Hr)%run_cons_Ok. specialize (IH _ Hr).
  destruct (visit_output _ _ _ Hv) as [E|[tok E]]; rewrite E in IH;
    rewrite ?length_app in IH; cbn in *; lia.
Qed.

Lemma run_Ok st ns :
  Z.land (abstract_func_call P) ABST_WITH_NUM = 0%Z →
  Forall (λ n, is_Some (parent n)) ns →
  ∃ st', run P st ns = Ok st'.
Proof.
  intros Hbit Hpar. revert st.
  induction Hpar as [|n ns Hn Hns IH]; intros st; [by eexists|].
  cbn [run]. destruct (visit_Ok P st n Hn (or_intror Hbit)) as [st' ->].
  cbn. apply IH.
Qed.

End Run.

(** X2. Unless numbered placeholders are asked for called functions,
    the engine returns for every function node that has a parent or has
    children, and it returns at most one token for each node the
    traversal yields. *)
Theorem abstract_node_returns_tokens
    {KS : KnownSymbols} (P : Policy) (func : NodeRef) :
  Z.land (abstract_func_call P) ABST_WITH_NUM = 0%Z →
  is_Some (parent func) ∨ is_leaf func = false →
  ∃ tokens, abstract_node P func = Ok tokens
            ∧ length tokens ≤ length (leaves func).
Proof.
  intros Hbit Hpar%leaves_have_parent. unfold abstract_node.
  fold (leaves func).
  destruct (run_Ok P initial _ Hbit Hpar) as [st' Hr]. rewrite Hr. cbn.
  eexists. split; [done|].
  by apply run_output_length in Hr.
Qed.

Lemma abstract_node_returns_tokens_witness :
  Z.land (abstract_func_call default_policy) ABST_WITH_NUM = 0%Z
  ∧ is_leaf (root_ref redeclared_src redeclared_tree) = false
  ∧ ∃ tokens,
      abstract_node (KS := no_known_symbols) default_policy
        (root_ref redeclared_src redeclared_tree) = Ok tokens
      ∧ length tokens
        ≤ length (leaves (root_ref redeclared_src redeclared_tree)).
Proof.
  split; [reflexivity|]. split; [reflexivity|].
  apply (abstract_node_returns_tokens (KS := no_known_symbols)
           default_policy (root_ref redeclared_src redeclared_tree));
    [reflexivity|right; reflexivity].
Defined.

End EngineFacts.

Module RenamingFacts.

Import provider_tst codeparser Samples Notions AbstractionFacts NumberingFacts.
Import EngineFacts.
Local Open Scope nat_scope.

Lemma swap_names_inj x y : Inj (=) (=) (swap_names x y).
Proof.
  intros s t. unfold swap_names.
  repeat case_decide; congruence.
Qed.

Section Renaming.
Context {KS : KnownSymbols}.
Variables (P : Policy) (ρ : bytes → bytes).
Hypothesis Hinj : Inj (=) (=) ρ.
Hypothesis Hlvar : abstract_lvar P ≠ 0%Z.
Hypothesis Hfparam : abstract_fparam P ≠ 0%Z.
Hypothesis Hgsym : abstract_gsym P ≠ 0%Z.

Lemma insert_renamed (m m' : gmap bytes bytes) k v :
  (∀ t, m' !! ρ t = m !! t) →
  ∀ t, <[ρ k := v]> m' !! ρ t = <[k := v]> m !! t.
Proof.
  intros Hm t. destruct (decide (k = t)) as [->|Hne].
  - by rewrite !lookup_insert_eq.
  - rewrite !lookup_insert_ne; [done|done|].
    intros E. by apply Hinj in E.
Qed.

Ltac flags :=
  repeat match goal with
         | |- context [(?x =? 0)%Z] =>
             lazymatch goal with
             | H : x ≠ 0%Z |- _ => rewrite (proj2 (Z.eqb_neq x 0) H)
             end
         end; cbn [negb].

Lemma visit_renamed st st' n n' :
  renamed ρ n n' → similar ρ st st' →
  same_result ρ (visit P st n) (visit P st' n').
Proof.
  intros (Hc & Hty & Ht) (Ho & Hcnt & Hl & Hf & Hv & Hlv & Hsy).
  destruct (parent n) as [p|] eqn:Hp.
  2:{ assert (parent n' = None) as Hp'.
      { unfold category_of in Hc. rewrite Hp in Hc.
        by destruct (parent n'). }
      by rewrite !visit_no_parent. }
  assert (category_of n = Some (classify n p)) as Hcat
    by (unfold category_of; by rewrite Hp).
  rewrite Hcat in Hc, Ht.
  apply category_of_Some in Hc as (p' & Hp' & Hc).
  destruct (classify n p) eqn:E; cbn [renamable] in Ht.
  - rewrite (visit_FNAME _ _ _ _ Hp E), (visit_FNAME _ _ _ _ Hp' Hc), Ht.
    unfold same_result, similar. steps. all: rewrite ?Ho; by split_and!.
  - rewrite (visit_FPARAM _ _ _ _ Hp E), (visit_FPARAM _ _ _ _ Hp' Hc), Ht.
    flags. unfold same_result, similar. rewrite ?Hcnt.
    steps. all: rewrite ?Ho, ?Hcnt; split_and!; try done;
      by apply insert_renamed.
  - rewrite (visit_LVAR _ _ _ _ Hp E), (visit_LVAR _ _ _ _ Hp' Hc), Ht.
    flags. unfold same_result, similar. rewrite ?Hcnt.
    steps. all: rewrite ?Ho, ?Hcnt; split_and!; try done;
      by apply insert_renamed.
  - rewrite (visit_FIELD _ _ _ _ Hp E), (visit_FIELD _ _ _ _ Hp' Hc), Ht.
    unfold same_result, similar. rewrite ?Hf, ?Hcnt.
    steps. all: rewrite ?Ho, ?Hcnt, ?Hf; by split_and!.
  - rewrite (visit_LABEL_DEF _ _ _ _ Hp E),
      (visit_LABEL_DEF _ _ _ _ Hp' Hc), Ht.
    unfold same_result, similar. rewrite ?Hl, ?Hcnt.
    steps. all: rewrite ?Ho, ?Hcnt, ?Hl; by split_and!.
  - rewrite (visit_LABEL_REF _ _ _ _ Hp E),
      (visit_LABEL_REF _ _ _ _ Hp' Hc), Ht.
    unfold same_result, similar. rewrite ?Hl, ?Hcnt.
    steps. all: rewrite ?Ho, ?Hcnt, ?Hl; by split_and!.
  - rewrite (visit_VTYPE _ _ _ _ Hp E), (visit_VTYPE _ _ _ _ Hp' Hc), Ht.
    unfold same_result, similar. rewrite ?Hv, ?Hcnt.
    steps. all: rewrite ?Ho, ?Hcnt, ?Hv; by split_and!.
  - rewrite (visit_LITERAL _ _ _ _ Hp E),
      (visit_LITERAL _ _ _ _ Hp' Hc), Ht, Hty.
    unfold same_result, similar.
    steps. all: rewrite ?Ho; by split_and!.
  - rewrite (visit_CALL _ _ _ _ Hp E), (visit_CALL _ _ _ _ Hp' Hc), Ht.
    unfold same_result, similar.
    steps. all: rewrite ?Ho; first [done|by split_and!].
  - rewrite (visit_IDENT _ _ _ _ Hp E), (visit_IDENT _ _ _ _ Hp' Hc), Ht.
    flags. rewrite Hlv, Hsy.
    unfold same_result, similar. rewrite ?Hcnt.
    steps. all: rewrite ?Ho, ?Hcnt; split_and!; try done;
      by apply insert_renamed.
  - rewrite (visit_DROPPED _ _ _ _ Hp E), (visit_DROPPED _ _ _ _ Hp' Hc).
    by split_and!.
  - rewrite (visit_OTHER _ _ _ _ Hp E), (visit_OTHER _ _ _ _ Hp' Hc), Ht.
    unfold same_result, similar. cbn. rewrite Ho. by split_and!.
Qed.

Lemma run_renamed st st' ns ns' :
  Forall2 (renamed ρ) ns ns' → similar ρ st st' →
  same_result ρ (run P st ns) (run P st' ns').
Proof.
  intros Hns. revert st st'.
  induction Hns as [|n n' ns ns' Hn Hns IH]; intros st st' Hst; [done|].
  cbn [run]. pose proof (visit_renamed st st' n n' Hn Hst) as Hv.
  destruct (visit P st n) as [s1|e], (visit P st' n') as [s1'|e'];
    cbn in Hv; try done.
  cbn. by apply IH.
Qed.

End Renaming.

(** X1. With the selectors of local variables, parameters and global
    symbols all set to abstract, the tokens do not depend on the names
    of the variables: two functions whose traversed nodes agree in
    category and type, and in text up to a one-to-one renaming of the
    parameters, local variables and other identifiers, give the same
    result. *)
Theorem abstraction_ignores_variable_names
    {KS : KnownSymbols} (P : Policy) (ρ : bytes → bytes)
    (func func' : NodeRef) :
  Inj (=) (=) ρ →
  abstract_lvar P ≠ 0%Z → abstract_fparam P ≠ 0%Z → abstract_gsym P ≠ 0%Z →
  Forall2 (renamed ρ) (leaves func) (leaves func') →
  abstract_node P func' = abstract_node P func.
Proof.
  intros Hinj Hl Hf Hg Hns. unfold abstract_node. fold (leaves func) (leaves func').
  assert (similar ρ initial initial) as H0 by (by split_and!).
  pose proof (run_renamed P ρ Hinj Hl Hf Hg _ _ _ _ Hns H0) as Hr.
  destruct (run P initial (leaves func)) as [s|e],
           (run P initial (leaves func')) as [s'|e']; cbn in Hr; try done.
  - destruct Hr as (Ho & _). cbn. by rewrite Ho.
  - by subst.
Qed.

Lemma abstraction_ignores_variable_names_witness :
  let ρ := swap_names (b "i") (b "j") in
  let func := root_ref redeclared_src redeclared_tree in
  let func' := root_ref redeclared_renamed_src redeclared_tree in
  Inj (=) (=) ρ
  ∧ abstract_lvar default_policy ≠ 0%Z
  ∧ abstract_fparam default_policy ≠ 0%Z
  ∧ abstract_gsym default_policy ≠ 0%Z
  ∧ Forall2 (renamed ρ) (leaves func) (leaves func')
  ∧ abstract_node (KS := no_known_symbols) default_policy func'
    = abstract_node (KS := no_known_symbols) default_policy func.
Proof.
  intros ρ func func'.
  assert (Forall2 (renamed ρ) (leaves func) (leaves func')) as Hns.
  { apply (bool_decide_unpack _). vm_compute. exact I. }
  split; [apply swap_names_inj|]. split; [done|]. split; [done|].
  split; [done|]. split; [exact Hns|].
  apply (abstraction_ignores_variable_names (KS := no_known_symbols)
           default_policy ρ func func');
    [apply swap_names_inj|done|done|done|exact Hns].
Defined.

End RenamingFacts.

Module PlaceholderFacts.

Import provider_tst codeparser Samples Notions AbstractionFacts NumberingFacts.
Import EngineFacts.
Local Open Scope nat_scope.

Lemma run_app_Ok {KS : KnownSymbols} P st ns1 ns2 st' :
  run P st (ns1 ++ ns2) = Ok st' →
  ∃ st1, run P st ns1 = Ok st1 ∧ run P st1 ns2 = Ok st'.
Proof.
  revert st. induction ns1 as [|n ns1 IH]; intros st; [by eauto|].
  cbn [app]. intros (s1 & Hv & Hr)%run_cons_Ok.
  destruct (IH _ Hr) as (st1 & H1 & H2).
  exists st1. split; [|done]. cbn [run]. by rewrite Hv.
Qed.

Lemma numbered_below_insert tag m k t :
  numbered_below tag m k →
  numbered_below tag (<[t := numbered tag k]> m) (S k).
Proof.
  intros Hm t' v. destruct (decide (t = t')) as [->|Hne].
  - rewrite lookup_insert_eq. intros [= <-]. exists k. split; [lia|done].
  - rewrite lookup_insert_ne by done. intros (j & Hj & ->)%Hm.
    exists j. split; [lia|done].
Qed.

Lemma one_to_one_insert tag m k t :
  numbered_below tag m k → one_to_one m → m !! t = None →
  one_to_one (<[t := numbered tag k]> m).
Proof.
  intros Hb Hm Ht t1 t2 v.
  destruct (decide (t = t1)) as [<-|H1], (decide (t = t2)) as [<-|H2];
    rewrite ?lookup_insert_eq, ?lookup_insert_ne by done; try done.
  - intros [= <-] (j & Hj & E%numbered_inj)%Hb. lia.
  - intros (j & Hj & E)%Hb [= <-]. apply numbered_inj in E. lia.
  - apply Hm.
Qed.

(** ** Categories that look a name up before they take a number *)

Section Tracked.
Context {KS : KnownSymbols}.
Variables (P : Policy) (tag : string) (the_map : State → gmap bytes bytes)
          (c : category).

Hypothesis at_category : ∀ st n,
  category_of n = Some c →
  match the_map st !! text n with
  | Some v => visit P st n = Ok (append v st)
  | None =>
    ∃ st', visit P st n = Ok st'
           ∧ output st' = output st ++ [numbered tag (next_number tag st)]
           ∧ the_map st' = <[text n := numbered tag (next_number tag st)]>
                             (the_map st)
           ∧ next_number tag st' = S (next_number tag st)
  end.

Hypothesis elsewhere : ∀ st n st',
  category_of n ≠ Some c → visit P st n = Ok st' →
  the_map st' = the_map st ∧ next_number tag st' = next_number tag st.

Hypothesis the_map_append : ∀ v st, the_map (append v st) = the_map st.

Lemma visit_tracked st n st' :
  visit P st n = Ok st' → tracked tag the_map st →
  tracked tag the_map st'
  ∧ (∀ t v, the_map st !! t = Some v → the_map st' !! t = Some v).
Proof.
  intros Hv [Hb Ho]. destruct (decide (category_of n = Some c)) as [Hc|Hc].
  - pose proof (at_category st n Hc) as Hat.
    destruct (the_map st !! text n) as [v|] eqn:E.
    + rewrite Hv in Hat. injection Hat as ->.
      split; [|by rewrite the_map_append].
      split; rewrite the_map_append; [exact Hb|exact Ho].
    + destruct Hat as (st1 & Hv' & _ & Hm & Hk).
      rewrite Hv in Hv'. injection Hv' as <-. unfold tracked.
      rewrite Hm, Hk. split; [split|].
      * by apply numbered_below_insert.
      * by apply (one_to_one_insert tag).
      * intros t v Ht. rewrite lookup_insert_ne; [done|]. congruence.
  - destruct (elsewhere st n st' Hc Hv) as [Hm Hk].
    unfold tracked. by rewrite Hm, Hk.
Qed.

Lemma run_tracked st ns st' :
  run P st ns = Ok st' → tracked tag the_map st →
  tracked tag the_map st'
  ∧ (∀ t v, the_map st !! t = Some v → the_map st' !! t = Some v).
Proof.
  revert st. induction ns as [|n ns IH]; intros st.
  { intros [= <-]. auto. }
  intros (st1 & Hv & Hr)%run_cons_Ok Hst.
  destruct (visit_tracked _ _ _ Hv Hst) as [H1 Hk1].
  destruct (IH _ Hr H1) as [H2 Hk2]. split; [done|]. auto.
Qed.

Lemma visit_tracked_emit st n :
  category_of n = Some c →
  ∃ st' tok, visit P st n = Ok st'
             ∧ output st' = output st ++ [tok]
             ∧ the_map st' !! text n = Some tok.
Proof.
  intros Hc. pose proof (at_category st n Hc) as Hat.
  destruct (the_map st !! text n) as [v|] eqn:E.
  - eexists _, v. split; [done|]. split; [done|].
    by rewrite the_map_append.
  - destruct Hat as (st' & Hv & Ho & Hm & _).
    eexists _, _. split; [done|]. split; [done|].
    by rewrite Hm, lookup_insert_eq.
Qed.

(** Two nodes of the category get the same placeholder exactly when
    they have the same text. *)
Lemma tracked_placeholders pre s0 a d :
  tracked tag the_map initial →
  category_of a = Some c → category_of d = Some c →
  run P initial pre = Ok s0 →
  ∃ s1 ta,
    visit P s0 a = Ok s1
    ∧ output s1 = output s0 ++ [ta]
    ∧ ∀ mid s2, run P s1 mid = Ok s2 →
        ∃ s3 td, visit P s2 d = Ok s3
                 ∧ output s3 = output s2 ++ [td]
                 ∧ (td = ta ↔ text d = text a).
Proof.
  intros H0 Ha Hd Hpre.
  destruct (run_tracked _ _ _ Hpre H0) as [Hs0 _].
  destruct (visit_tracked_emit s0 a Ha) as (s1 & ta & Hva & Hoa & Hma).
  exists s1, ta. split; [done|]. split; [done|].
  intros mid s2 Hmid.
  destruct (visit_tracked _ _ _ Hva Hs0) as [Hs1 _].
  destruct (run_tracked _ _ _ Hmid Hs1) as [Hs2 Hk2].
  destruct (visit_tracked_emit s2 d Hd) as (s3 & td & Hvd & Hod & Hmd).
  exists s3, td. split; [done|]. split; [done|].
  destruct (visit_tracked _ _ _ Hvd Hs2) as [[_ Ho3] Hk3].
  pose proof (Hk3 _ _ (Hk2 _ _ Hma)) as Hma3.
  split.
  - intros ->. by apply (Ho3 _ _ _ Hmd Hma3).
  - intros E. rewrite E in Hmd. congruence.
Qed.

End Tracked.

Lemma tracked_initial tag the_map :
  the_map initial = ∅ → tracked tag the_map initial.
Proof.
  intros E. unfold tracked. rewrite E. split.
  - intros t v. by rewrite lookup_empty.
  - intros t t' v. by rewrite lookup_empty.
Qed.

Ltac other_tag :=
  unfold next_number;
  cbn [output lvar_map symbol_map label_map field_map vtype_map counts
       append set_lvar set_field set_label set_vtype set_symbol];
  rewrite ?lookup_insert_ne by done; try done.

(** ** Types *)

Section Types.
Context {KS : KnownSymbols}.
Variable P : Policy.
Hypothesis Htype : abstract_type P = ABST_WITH_NUM.

Lemma vtype_at st n :
  category_of n = Some VTYPE →
  match vtype_map st !! text n with
  | Some v => visit P st n = Ok (append v st)
  | None =>
    ∃ st', visit P st n = Ok st'
           ∧ output st' = output st ++ [numbered "VTYPE" (next_number "VTYPE" st)]
           ∧ vtype_map st' = <[text n := numbered "VTYPE" (next_number "VTYPE" st)]>
                               (vtype_map st)
           ∧ next_number "VTYPE" st' = S (next_number "VTYPE" st)
  end.
Proof.
  intros (p & Hp & Hc)%category_of_Some.
  rewrite (visit_VTYPE _ _ _ _ Hp Hc), Htype. cbn.
  destruct (vtype_map st !! text n); [done|].
  eexists. split; [done|]. unfold next_number. cbn.
  by rewrite lookup_insert_eq.
Qed.

Lemma vtype_elsewhere st n st' :
  category_of n ≠ Some VTYPE → visit P st n = Ok st' →
  vtype_map st' = vtype_map st
  ∧ next_number "VTYPE" st' = next_number "VTYPE" st.
Proof.
  intros Hc Hv. destruct (parent n) as [p|] eqn:Hp;
    [|by rewrite visit_no_parent in Hv].
  unfold category_of in Hc. rewrite Hp in Hc. cbn in Hc.
  destruct (classify n p) eqn:E; try done; by_category Hv Hp E; steps;
    split; other_tag.
Qed.

End Types.

(** X3. With numbered type placeholders ([abstract_type =
    ABST_WITH_NUM]) two type names of a function are emitted as the same
    placeholder exactly when they are the same name. *)
Theorem numbered_type_placeholders
    {KS : KnownSymbols} (P : Policy) (pre : list NodeRef) (a d : NodeRef)
    (s0 : State) :
  abstract_type P = ABST_WITH_NUM →
  category_of a = Some VTYPE → category_of d = Some VTYPE →
  run P initial pre = Ok s0 →
  ∃ s1 ta,
    visit P s0 a = Ok s1
    ∧ output s1 = output s0 ++ [ta]
    ∧ ∀ mid s2, run P s1 mid = Ok s2 →
        ∃ s3 td, visit P s2 d = Ok s3
                 ∧ output s3 = output s2 ++ [td]
                 ∧ (td = ta ↔ text d = text a).
Proof.
  intros Htype. apply (tracked_placeholders P "VTYPE" vtype_map VTYPE).
  - by apply vtype_at.
  - by apply vtype_elsewhere.
  - done.
  - by apply tracked_initial.
Qed.

Lemma numbered_type_placeholders_witness :
  let ls := leaves (root_ref two_types_src two_types_tree) in
  let a := default (root_ref two_types_src two_types_tree) (ls !! 0) in
  let d := default (root_ref two_types_src two_types_tree) (ls !! 3) in
  abstract_type (with_type 1) = ABST_WITH_NUM
  ∧ category_of a = Some VTYPE ∧ category_of d = Some VTYPE
  ∧ run (KS := no_known_symbols) (with_type 1) initial [] = Ok initial
  ∧ ∃ s1 ta, visit (KS := no_known_symbols) (with_type 1) initial a = Ok s1
             ∧ output s1 = output initial ++ [ta].
Proof.
  intros ls a d.
  split; [reflexivity|]. split; [vm_compute; reflexivity|].
  split; [vm_compute; reflexivity|]. split; [reflexivity|].
  edestruct (numbered_type_placeholders (KS := no_known_symbols)
               (with_type 1) [] a d initial) as (s1 & ta & Hv & Ho & _);
    [reflexivity|vm_compute; reflexivity|vm_compute; reflexivity|reflexivity|].
  exists s1, ta. split; [exact Hv|exact Ho].
Defined.

(** ** Fields *)

Section Fields.
Context {KS : KnownSymbols}.
Variable P : Policy.
Hypothesis Hfield : abstract_field P ≠ 0%Z.
Hypothesis Hlvar : abstract_lvar P = ABST_WITH_NUM.

Lemma field_at st n :
  category_of n = Some FIELD →
  match field_map st !! text n with
  | Some v => visit P st n = Ok (append v st)
  | None =>
    ∃ st', visit P st n = Ok st'
           ∧ output st' = output st ++ [numbered "FIELD" (next_number "FIELD" st)]
           ∧ field_map st' = <[text n := numbered "FIELD" (next_number "FIELD" st)]>
                               (field_map st)
           ∧ next_number "FIELD" st' = S (next_number "FIELD" st)
  end.
Proof.
  intros (p & Hp & Hc)%category_of_Some.
  rewrite (visit_FIELD _ _ _ _ Hp Hc), Hlvar.
  rewrite (proj2 (Z.eqb_neq _ _) Hfield). cbn.
  destruct (field_map st !! text n); [done|].
  eexists. split; [done|]. unfold next_number. cbn.
  by rewrite lookup_insert_eq.
Qed.

Lemma field_elsewhere st n st' :
  category_of n ≠ Some FIELD → visit P st n = Ok st' →
  field_map st' = field_map st
  ∧ next_number "FIELD" st' = next_number "FIELD" st.
Proof.
  intros Hc Hv. destruct (parent n) as [p|] eqn:Hp;
    [|by rewrite visit_no_parent in Hv].
  unfold category_of in Hc. rewrite Hp in Hc. cbn in Hc.
  destruct (classify n p) eqn:E; try done; by_category Hv Hp E; steps;
    split; other_tag.
Qed.

End Fields.

(** X4. With field abstraction on and numbered local variables
    ([abstract_field] not zero, [abstract_lvar = ABST_WITH_NUM]) two
    field names of a function are emitted as the same placeholder
    exactly when they are the same name. *)
Theorem numbered_field_placeholders
    {KS : KnownSymbols} (P : Policy) (pre : list NodeRef) (a d : NodeRef)
    (s0 : State) :
  abstract_field P ≠ 0%Z → abstract_lvar P = ABST_WITH_NUM →
  category_of a = Some FIELD → category_of d = Some FIELD →
  run P initial pre = Ok s0 →
  ∃ s1 ta,
    visit P s0 a = Ok s1
    ∧ output s1 = output s0 ++ [ta]
    ∧ ∀ mid s2, run P s1 mid = Ok s2 →
        ∃ s3 td, visit P s2 d = Ok s3
                 ∧ output s3 = output s2 ++ [td]
                 ∧ (td = ta ↔ text d = text a).
Proof.
  intros Hfield Hlvar.
  apply (tracked_placeholders P "FIELD" field_map FIELD).
  - by apply field_at.
  - by apply field_elsewhere.
  - done.
  - by apply tracked_initial.
Qed.

Lemma numbered_field_placeholders_witness :
  let ls := leaves (root_ref field_access_src field_access_tree) in
  let a := default (root_ref field_access_src field_access_tree) (ls !! 7) in
  abstract_field (with_field_lvar 1 1) ≠ 0%Z
  ∧ abstract_lvar (with_field_lvar 1 1) = ABST_WITH_NUM
  ∧ category_of a = Some FIELD
  ∧ run (KS := no_known_symbols) (with_field_lvar 1 1) initial [] = Ok initial
  ∧ ∃ s1 ta,
      visit (KS := no_known_symbols) (with_field_lvar 1 1) initial a = Ok s1
      ∧ output s1 = output initial ++ [ta].
Proof.
  intros ls a.
  split; [done|]. split; [reflexivity|]. split; [vm_compute; reflexivity|].
  split; [reflexivity|].
  edestruct (numbered_field_placeholders (KS := no_known_symbols)
               (with_field_lvar 1 1) [] a a initial)
    as (s1 & ta & Hv & Ho & _);
    [done|reflexivity|vm_compute; reflexivity|vm_compute; reflexivity
    |reflexivity|].
  exists s1, ta. split; [exact Hv|exact Ho].
Defined.

(** ** Labels *)

Section Labels.
Context {KS : KnownSymbols}.
Variable P : Policy.
Hypothesis Hlabel : abstract_label P ≠ 0%Z.
Hypothesis Hlvar : abstract_lvar P = ABST_WITH_NUM.

(** The definition of a label takes the next number, whatever the map
    holds. *)
Lemma visit_label_def st d :
  category_of d = Some LABEL_DEF →
  ∃ st', visit P st d = Ok st'
         ∧ output st' = output st ++ [numbered "LABEL" (next_number "LABEL" st)]
         ∧ label_map st' = <[text d := numbered "LABEL" (next_number "LABEL" st)]>
                             (label_map st)
         ∧ next_number "LABEL" st' = S (next_number "LABEL" st).
Proof.
  intros (p & Hp & Hc)%category_of_Some.
  rewrite (visit_LABEL_DEF _ _ _ _ Hp Hc), Hlvar.
  rewrite (proj2 (Z.eqb_neq _ _) Hlabel). cbn.
  eexists. split; [done|]. unfold next_number. cbn.
  by rewrite lookup_insert_eq.
Qed.

Lemma visit_label_ref st g :
  category_of g = Some LABEL_REF →
  match label_map st !! text g with
  | Some v => visit P st g = Ok (append v st)
  | None =>
    ∃ st', visit P st g = Ok st'
           ∧ output st' = output st ++ [numbered "LABEL" (next_number "LABEL" st)]
           ∧ label_map st' = <[text g := numbered "LABEL" (next_number "LABEL" st)]>
                               (label_map st)
           ∧ next_number "LABEL" st' = S (next_number "LABEL" st)
  end.
Proof.
  intros (p & Hp & Hc)%category_of_Some.
  rewrite (visit_LABEL_REF _ _ _ _ Hp Hc), Hlvar.
  rewrite (proj2 (Z.eqb_neq _ _) Hlabel). cbn.
  destruct (label_map st !! text g); [done|].
  eexists. split; [done|]. unfold next_number. cbn.
  by rewrite lookup_insert_eq.
Qed.

Lemma visit_label_other st n st' :
  category_of n ≠ Some LABEL_DEF → category_of n ≠ Some LABEL_REF →
  visit P st n = Ok st' →
  label_map st' = label_map st
  ∧ next_number "LABEL" st' = next_number "LABEL" st.
Proof.
  intros Hc1 Hc2 Hv. destruct (parent n) as [p|] eqn:Hp;
    [|by rewrite visit_no_parent in Hv].
  unfold category_of in Hc1, Hc2. rewrite Hp in Hc1, Hc2. cbn in Hc1, Hc2.
  destruct (classify n p) eqn:E; try done; by_category Hv Hp E; steps;
    split; other_tag.
Qed.

Lemma visit_labelled st n st' :
  visit P st n = Ok st' → labelled st →
  labelled st'
  ∧ next_number "LABEL" st ≤ next_number "LABEL" st'
  ∧ (∀ t v, label_map st !! t = Some v →
            ¬ (category_of n = Some LABEL_DEF ∧ text n = t) →
            label_map st' !! t = Some v).
Proof.
  intros Hv Hst. unfold labelled in *.
  destruct (decide (category_of n = Some LABEL_DEF)) as [Hd|Hd].
  { destruct (visit_label_def st n Hd) as (s1 & Hv' & _ & Hm & Hk).
    rewrite Hv in Hv'. injection Hv' as <-. rewrite Hm, Hk.
    split; [by apply numbered_below_insert|]. split; [lia|].
    intros t v Ht Hne. rewrite lookup_insert_ne; [done|]. tauto. }
  destruct (decide (category_of n = Some LABEL_REF)) as [Hr|Hr].
  { pose proof (visit_label_ref st n Hr) as Hat.
    destruct (label_map st !! text n) as [v|] eqn:E.
    - rewrite Hv in Hat. injection Hat as ->. by split_and!.
    - destruct Hat as (s1 & Hv' & _ & Hm & Hk).
      rewrite Hv in Hv'. injection Hv' as <-. rewrite Hm, Hk.
      split; [by apply numbered_below_insert|]. split; [lia|].
      intros t v Ht _. rewrite lookup_insert_ne; [done|]. congruence. }
  destruct (visit_label_other _ _ _ Hd Hr Hv) as [-> ->]. by split_and!.
Qed.

Lemma run_labelled st ns st' :
  run P st ns = Ok st' → labelled st →
  labelled st'
  ∧ next_number "LABEL" st ≤ next_number "LABEL" st'
  ∧ (∀ t v, label_map st !! t = Some v →
            Forall (λ n, ¬ (category_of n = Some LABEL_DEF ∧ text n = t)) ns →
            label_map st' !! t = Some v).
Proof.
  revert st. induction ns as [|n ns IH]; intros st.
  { intros [= <-]. auto. }
  intros (st1 & Hv & Hr)%run_cons_Ok Hst.
  destruct (visit_labelled _ _ _ Hv Hst) as (H1 & Hk1 & Hm1).
  destruct (IH _ Hr H1) as (H2 & Hk2 & Hm2).
  split; [done|]. split; [lia|].
  intros t v Ht [Hn Hns]%Forall_cons. auto.
Qed.

(** What a [goto] emits carries a number below the next one. *)
Lemma visit_label_ref_emit st g st' :
  category_of g = Some LABEL_REF → labelled st → visit P st g = Ok st' →
  ∃ j, j < next_number "LABEL" st'
       ∧ output st' = output st ++ [numbered "LABEL" j].
Proof.
  intros Hg Hst Hv. pose proof (visit_label_ref st g Hg) as Hat.
  destruct (label_map st !! text g) as [v|] eqn:E.
  - rewrite Hv in Hat. injection Hat as ->.
    destruct (Hst _ _ E) as (j & Hj & ->). by exists j.
  - destruct Hat as (s1 & Hv' & Ho & _ & Hk).
    rewrite Hv in Hv'. injection Hv' as <-.
    exists (next_number "LABEL" st). split; [lia|done].
Qed.

End Labels.

(** X5. With numbered labels ([abstract_label] not zero,
    [abstract_lvar = ABST_WITH_NUM]) the definition of a label always
    takes a fresh number: its placeholder differs from the placeholder of
    every [goto] before it, also of a [goto] to this very label, while
    every [goto] to the label after it is emitted as the placeholder of
    the definition, as long as the label is not defined again. *)
Theorem label_definition_takes_a_fresh_number
    {KS : KnownSymbols} (P : Policy) (pre : list NodeRef) (d : NodeRef)
    (s0 : State) :
  abstract_label P ≠ 0%Z → abstract_lvar P = ABST_WITH_NUM →
  category_of d = Some LABEL_DEF →
  run P initial pre = Ok s0 →
  ∃ s1 tok,
    visit P s0 d = Ok s1
    ∧ output s1 = output s0 ++ [tok]
    ∧ (∀ pre1 g pre2 sa sb,
         pre = pre1 ++ g :: pre2 → category_of g = Some LABEL_REF →
         run P initial pre1 = Ok sa → visit P sa g = Ok sb →
         ∃ tg, output sb = output sa ++ [tg] ∧ tg ≠ tok)
    ∧ (∀ mid s2 g,
         run P s1 mid = Ok s2 →
         Forall (λ n, ¬ (category_of n = Some LABEL_DEF ∧ text n = text d))
                mid →
         category_of g = Some LABEL_REF → text g = text d →
         visit P s2 g = Ok (append tok s2)).
Proof.
  intros Hlabel Hlvar Hd Hpre.
  assert (labelled initial) as H0.
  { intros t v. cbn [initial label_map]. by rewrite lookup_empty. }
  destruct (run_labelled P Hlabel Hlvar _ _ _ Hpre H0) as (Hs0 & _ & _).
  destruct (visit_label_def P Hlabel Hlvar s0 d Hd)
    as (s1 & Hv & Ho & Hm & Hk).
  exists s1, (numbered "LABEL" (next_number "LABEL" s0)).
  split; [done|]. split; [done|]. split.
  - intros pre1 g pre2 sa sb -> Hg Hsa Hsb.
    apply run_app_Ok in Hpre as (sa' & Hsa' & Hrest).
    rewrite Hsa in Hsa'. injection Hsa' as <-.
    apply run_cons_Ok in Hrest as (sb' & Hsb' & Hrest).
    rewrite Hsb in Hsb'. injection Hsb' as <-.
    destruct (run_labelled P Hlabel Hlvar _ _ _ Hsa H0) as (Hla & _ & _).
    destruct (visit_label_ref_emit P Hlabel Hlvar _ _ _ Hg Hla Hsb)
      as (j & Hj & Hog).
    destruct (visit_labelled P Hlabel Hlvar _ _ _ Hsb Hla) as (Hlb & _ & _).
    destruct (run_labelled P Hlabel Hlvar _ _ _ Hrest Hlb) as (_ & Hle & _).
    exists (numbered "LABEL" j). split; [done|].
    intros E%numbered_inj. lia.
  - intros mid s2 g Hmid Hno Hg Ht.
    destruct (visit_labelled P Hlabel Hlvar _ _ _ Hv Hs0) as (Hs1 & _ & _).
    destruct (run_labelled P Hlabel Hlvar _ _ _ Hmid Hs1) as (_ & _ & Hkeep).
    pose proof (visit_label_ref P Hlabel Hlvar s2 g Hg) as Hat.
    assert (label_map s2 !! text d
            = Some (numbered "LABEL" (next_number "LABEL" s0))) as Hin.
    { apply Hkeep; [|done]. by rewrite Hm, lookup_insert_eq. }
    by rewrite Ht, Hin in Hat.
Qed.

Lemma label_definition_takes_a_fresh_number_witness :
  let ls := leaves (root_ref forward_goto_src forward_goto_tree) in
  let pre := take 8 ls in
  let g := default (root_ref forward_goto_src forward_goto_tree) (ls !! 6) in
  let d := default (root_ref forward_goto_src forward_goto_tree) (ls !! 8) in
  abstract_label (with_label_lvar 1 1) ≠ 0%Z
  ∧ abstract_lvar (with_label_lvar 1 1) = ABST_WITH_NUM
  ∧ category_of d = Some LABEL_DEF
  ∧ category_of g = Some LABEL_REF ∧ text g = text d
  ∧ ∃ s0, run (KS := no_known_symbols) (with_label_lvar 1 1) initial pre
          = Ok s0
          ∧ ∃ s1 tok,
              visit (KS := no_known_symbols) (with_label_lvar 1 1) s0 d
              = Ok s1
              ∧ output s1 = output s0 ++ [tok].
Proof.
  intros ls pre g d.
  split; [done|]. split; [reflexivity|]. split; [vm_compute; reflexivity|].
  split; [vm_compute; reflexivity|]. split; [vm_compute; reflexivity|].
  eexists. split; [vm_compute; reflexivity|].
  edestruct (label_definition_takes_a_fresh_number (KS := no_known_symbols)
               (with_label_lvar 1 1) pre d) as (s1 & tok & Hv & Ho & _);
    [done|reflexivity|vm_compute; reflexivity|vm_compute; reflexivity|].
  exists s1, tok. split; [exact Hv|exact Ho].
Defined.

End PlaceholderFacts.

Module TokenFacts.

Import provider_tst codeparser Samples Notions TreeStripFacts AbstractionFacts.
Import NumberingFacts KeepEverythingFacts.
Local Open Scope nat_scope.

(** ** The ranges of the yielded nodes *)

Lemma chain_sublist lo hi l l' :
  l' `sublist_of` l → chain lo hi l → chain lo hi l'.
Proof.
  intros Hsub. revert lo.
  induction Hsub as [|[s e] l1 l2 Hsub IH|[s e] l1 l2 Hsub IH]; intros lo.
  - done.
  - cbn. intros (? & ? & ?). split_and!; [done..|]. by apply IH.
  - cbn. intros (? & ? & H). apply IH.
    by apply (chain_weaken e lo hi hi); [lia..|].
Qed.

(** The texts of spans in a chain, one after the other, are a
    subsequence of the text between the ends of the chain. *)
Lemma chain_slices (code : bytes) lo hi spans :
  chain lo hi spans →
  concat ((λ se, slice code se.1 se.2) <$> spans)
  `sublist_of` slice code lo hi.
Proof.
  revert lo. induction spans as [|[s e] rest IH]; intros lo.
  { intros _. apply sublist_nil_l. }
  cbn [chain fmap list_fmap concat fst snd]. intros (H1 & H2 & H3).
  pose proof (chain_le _ _ _ H3) as H4.
  rewrite (slice_split code lo s hi), (slice_split code s e hi) by lia.
  apply sublist_inserts_l, sublist_app; [done|]. by apply IH.
Qed.

Lemma traverse_node_src descend ret code anc nd :
  Forall (λ n, src n = code) (traverse_node descend ret code anc nd).
Proof.
  revert anc. induction nd as [ty s e f cs IH] using Node_ind'.
  intros anc. cbn [traverse_node].
  apply Forall_app. split; [destruct (ret _); by repeat constructor|].
  destruct (descend _); [|done].
  generalize (mkNode ty s e f cs). intros pn. generalize 0.
  induction cs as [|c cs IHcs]; intros i; [done|].
  apply Forall_cons in IH as [IHc IH].
  apply Forall_app. split; [apply IHc|by apply IHcs].
Qed.

Lemma texts_of_ranges code (ns : list NodeRef) :
  Forall (λ n, src n = code) ns →
  text <$> ns = (λ se, slice code se.1 se.2) <$> ranges ns.
Proof.
  unfold ranges. induction 1 as [|n ns Hn Hns IH]; [done|].
  cbn. rewrite IH. f_equal. unfold text. by rewrite Hn.
Qed.

(** The yielded nodes lie one after the other when no yielded node is
    entered, or only yielded nodes without children are. *)
Lemma traverse_node_chain descend ret code anc nd :
  well_formed nd = true →
  (∀ n, ret n = true → descend n = true → children (node n) = []) →
  chain (start_byte nd) (end_byte nd)
        (ranges (traverse_node descend ret code anc nd)).
Proof.
  intros Hwf Hret. revert anc Hwf.
  induction nd as [ty s e f cs IH] using Node_ind'. intros anc.
  cbn [well_formed start_byte end_byte].
  intros [[Hse%Nat.leb_le _]%andb_true_iff Hcs]%andb_true_iff.
  cbn [traverse_node].
  set (this := mkRef code (mkNode ty s e f cs) anc).
  assert (chain s e
            (ranges
               ((fix visit (i : nat) (cs0 : list Node) {struct cs0} :=
                   match cs0 with
                   | [] => []
                   | c :: cs' =>
                     traverse_node descend ret code
                       ((i, mkNode ty s e f cs) :: anc) c ++ visit (S i) cs'
                   end) 0 cs))) as Hkids.
  { clear Hse this. revert Hcs. generalize (mkNode ty s e f cs). intros pn.
    generalize 0. generalize s. clear s.
    induction cs as [|c cs IHcs]; intros lo i; [by intros ?%Nat.leb_le|].
    intros [[H1%Nat.leb_le H2]%andb_true_iff H3]%andb_true_iff.
    apply Forall_cons in IH as [IHc IH].
    unfold ranges. rewrite fmap_app.
    apply (chain_app _ (end_byte c)); [|by apply IHcs].
    apply (chain_weaken (start_byte c) lo (end_byte c) (end_byte c));
      [done..|]. by apply IHc. }
  destruct (ret this) eqn:Hr.
  - destruct (descend this) eqn:Hd.
    + pose proof (Hret this Hr Hd) as Hnil. cbn in Hnil.
      clear Hkids IH Hcs. subst this cs. cbn. lia.
    + cbn. lia.
  - destruct (descend this); [exact Hkids|cbn; lia].
Qed.

Lemma slice_sublist {A} (s : list A) lo hi : slice s lo hi `sublist_of` s.
Proof.
  unfold slice. etrans; [apply sublist_take|apply sublist_drop].
Qed.

(** ** [tokenize] *)

Lemma _tokenize_subsequence (n : NodeRef) :
  well_formed (node n) = true →
  concat (_tokenize n) `sublist_of` text n
  ∧ Forall (λ tok, tok ≠ []) (_tokenize n).
Proof.
  intros Hwf. unfold _tokenize, traverse. split.
  - rewrite (texts_of_ranges (src n)) by apply traverse_node_src.
    apply chain_slices, traverse_node_chain; [done|].
    intros x [Hx%bool_decide_eq_true _]%andb_true_iff _. done.
  - apply Forall_fmap, Forall_forall. intros x Hx.
    apply traverse_node_spec in Hx as [Hr _].
    apply andb_true_iff in Hr as [_ Hr%negb_true_iff%bool_decide_eq_false].
    done.
Qed.

(** X7. The tokens of a text are pieces of the text in the order of the
    text: on a well-formed tree, [tokenize] returns non-empty tokens
    whose concatenation is a subsequence of the bytes it was given. *)
Theorem tokenize_subsequence
    {TS : TreeSitter} (s : bytes) (lang : string) (l : Language) :
  get_language lang = Ok l →
  well_formed (ts_parse l s) = true →
  ∃ tokens, tokenize s lang = Ok tokens
            ∧ concat tokens `sublist_of` s
            ∧ Forall (λ tok, tok ≠ []) tokens.
Proof.
  intros Hl Hwf. unfold tokenize, parse_ast, get_parser. rewrite Hl. cbn.
  eexists. split; [done|].
  destruct (_tokenize_subsequence (root_ref s (ts_parse l s)) Hwf)
    as [Hsub Hne].
  split; [|done]. etrans; [exact Hsub|]. apply slice_sublist.
Qed.

Lemma tokenize_subsequence_witness :
  get_language "C" = Ok tree_sitter_c
  ∧ well_formed (ts_parse (TreeSitter := sample_parser) tree_sitter_c
                   static_fn_src) = true
  ∧ ∃ tokens,
      tokenize (TS := sample_parser) static_fn_src "C" = Ok tokens
      ∧ concat tokens `sublist_of` static_fn_src
      ∧ Forall (λ tok, tok ≠ []) tokens.
Proof.
  split; [reflexivity|]. split; [vm_compute; reflexivity|].
  apply (tokenize_subsequence (TS := sample_parser) static_fn_src "C"
           tree_sitter_c);
    [reflexivity|vm_compute; reflexivity].
Defined.

(** ** The engine with every selector set to keep *)

Section Keep.
Context {KS : KnownSymbols}.

Lemma visit_keep_some st n :
  is_Some (parent n) → lvar_map st = ∅ →
  ∃ st', visit keep_everything st n = Ok st'
         ∧ lvar_map st' = ∅
         ∧ (output st' = output st ∨ output st' = output st ++ [text n]).
Proof.
  intros Hpar Hl.
  destruct (decide (category_of n = Some LABEL_REF)) as [Hc|Hc].
  - apply category_of_Some in Hc as (p & Hp & Hc).
    rewrite (visit_LABEL_REF _ _ _ _ Hp Hc). cbn. eauto.
  - rewrite (visit_keep_everything st n Hpar Hc Hl).
    eexists. split; [done|]. case_decide; cbn; auto.
Qed.

Lemma run_keep_some st ns :
  Forall (λ n, is_Some (parent n)) ns → lvar_map st = ∅ →
  ∃ st' ns', run keep_everything st ns = Ok st'
             ∧ ns' `sublist_of` ns
             ∧ output st' = output st ++ (text <$> ns').
Proof.
  intros Hpar. revert st. induction Hpar as [|n ns Hn Hns IH]; intros st Hl.
  { exists st, []. by rewrite app_nil_r. }
  destruct (visit_keep_some st n Hn Hl) as (s1 & Hv & Hl1 & Ho).
  destruct (IH s1 Hl1) as (st' & ns' & Hr & Hsub & Ho').
  cbn [run]. rewrite Hv. cbn. destruct Ho as [Ho|Ho].
  - exists st', ns'. split; [done|]. split; [by constructor|].
    by rewrite Ho', Ho.
  - exists st', (n :: ns'). split; [done|]. split; [by constructor|].
    rewrite Ho', Ho. cbn. by rewrite <- app_assoc.
Qed.

End Keep.

(** X6. With every selector set to keep, the engine only leaves bytes
    out: on a well-formed tree the concatenation of the tokens is a
    subsequence of the text of the function. *)
Theorem keep_everything_subsequence
    {KS : KnownSymbols} (func : NodeRef) :
  is_Some (parent func) ∨ is_leaf func = false →
  well_formed (node func) = true →
  ∃ tokens, abstract_node keep_everything func = Ok tokens
            ∧ concat tokens `sublist_of` text func.
Proof.
  intros Hpar%leaves_have_parent Hwf. unfold abstract_node.
  fold (leaves func).
  destruct (run_keep_some initial _ Hpar eq_refl)
    as (st' & ns' & -> & Hsub & Ho).
  cbn. eexists. split; [done|]. rewrite Ho. cbn.
  assert (Forall (λ n, src n = src func) ns') as Hsrc.
  { apply Forall_forall. intros x Hx%(sublist_subseteq _ _ Hsub).
    revert x Hx. apply Forall_forall, traverse_node_src. }
  rewrite (texts_of_ranges (src func)) by done.
  apply chain_slices.
  apply (chain_sublist _ _ (ranges (leaves func))).
  { by apply fmap_sublist. }
  apply traverse_node_chain; [done|].
  intros x Hx Hd. unfold is_inner in Hd. by rewrite Hx in Hd.
Qed.

Lemma keep_everything_subsequence_witness :
  is_leaf (root_ref static_fn_src static_fn_tree) = false
  ∧ well_formed (node (root_ref static_fn_src static_fn_tree)) = true
  ∧ ∃ tokens,
      abstract_node (KS := no_known_symbols) keep_everything
        (root_ref static_fn_src static_fn_tree) = Ok tokens
      ∧ concat tokens `sublist_of` text (root_ref static_fn_src static_fn_tree).
Proof.
  split; [reflexivity|]. split; [vm_compute; reflexivity|].
  apply (keep_everything_subsequence (KS := no_known_symbols)
           (root_ref static_fn_src static_fn_tree));
    [right; reflexivity|vm_compute; reflexivity].
Defined.

End TokenFacts.

Module SourceTextFacts.

Import provider_re provider_tst codeparser Samples Notions.
Import TreeStripFacts AbstractionFacts KeepEverythingFacts TokenFacts.
Local Open Scope nat_scope.

(** ** The bytes outside some spans *)













(** ** The loop with every selector off *)


Section Keep.
Context {KS : KnownSymbols}.


End Keep.



End SourceTextFacts.

Module DeletionFacts.

Import provider_tst codeparser Samples Notions TreeStripFacts.
Local Open Scope nat_scope.

Lemma newlines_sublist (s : bytes) : repeat x0a (count_nl s) `sublist_of` s.
Proof.
  unfold count_nl. induction s as [|c s IH]; [constructor|].
  destruct (decide (c = x0a)) as [->|Hc].
  - rewrite filter_cons_True by done. cbn. by constructor.
  - rewrite filter_cons_False by done. by constructor.
Qed.

Lemma copy_and_blank_sublist code last hi spans :
  chain last hi spans →
  copy_and_blank code last spans `sublist_of` drop last code.
Proof.
  revert last. induction spans as [|[s e] rest IH]; intros last;
    cbn [chain copy_and_blank]; [done|].
  intros (H1 & H2 & H3).
  rewrite (drop_slice code last s H1), (drop_slice code s e H2).
  apply sublist_app; [done|].
  apply sublist_app; [apply newlines_sublist|by apply IH].
Qed.

(** X19. The tree-based stripper only deletes: on a well-formed tree
    its result is a subsequence of the bytes it was given, so it is never
    longer. *)
Theorem remove_comments_ast_only_deletes
    {TS : TreeSitter} (code : bytes) (lang : string) (l : Language) :
  get_language lang = Ok l →
  well_formed (ts_parse l code) = true →
  ∃ r, remove_comments_ast code lang = Ok r
       ∧ r `sublist_of` code
       ∧ length r ≤ length code.
Proof.
  intros Hl Hwf. unfold remove_comments_ast, parse_ast, get_parser.
  rewrite Hl. cbn. eexists. split; [done|].
  assert (remove_comments_tree code (ts_parse l code) `sublist_of` code)
    as Hsub.
  { unfold remove_comments_tree. rewrite rebuild_copy_and_blank. cbn [app].
    change code with (drop 0 code) at 2.
    apply (copy_and_blank_sublist code 0 (end_byte (ts_parse l code))).
    apply (chain_weaken (start_byte (ts_parse l code)) 0
             (end_byte (ts_parse l code)) (end_byte (ts_parse l code)));
      [lia|done|].
    by apply comment_spans_chain. }
  split; [done|]. by apply sublist_length.
Qed.

Lemma remove_comments_ast_only_deletes_witness :
  get_language "C" = Ok tree_sitter_c
  ∧ well_formed (ts_parse (TreeSitter := sample_parser) tree_sitter_c
                   commented_src) = true
  ∧ ∃ r, remove_comments_ast (TS := sample_parser) commented_src "C" = Ok r
         ∧ r `sublist_of` commented_src
         ∧ length r ≤ length commented_src.
Proof.
  split; [reflexivity|]. split; [vm_compute; reflexivity|].
  apply (remove_comments_ast_only_deletes (TS := sample_parser)
           commented_src "C" tree_sitter_c);
    [reflexivity|vm_compute; reflexivity].
Defined.

End DeletionFacts.

Module IdempotenceFacts.

Import provider_re provider_tst codeparser Samples Notions.
Import RegexFacts TreeStripFacts CommentFacts DeletionFacts.
Local Open Scope nat_scope.

Lemma all_newlines (s : bytes) :
  Forall (λ c, c = x0a) s ↔ repeat x0a (count_nl s) = s.
Proof.
  unfold count_nl. induction s as [|c s IH]; [done|].
  destruct (decide (c = x0a)) as [->|Hc].
  - rewrite filter_cons_True by done. cbn. rewrite Forall_cons. split.
    + intros [_ H%IH]. by rewrite H.
    + intros [= H%IH]. done.
  - rewrite filter_cons_False by done. split.
    + by intros [? _]%Forall_cons.
    + intros H. exfalso.
      assert (length (repeat x0a (length (filter (λ c, c = x0a) s)))
              = length (c :: s)) as Hlen by by rewrite H.
      rewrite repeat_length in Hlen. cbn in Hlen.
      pose proof (length_filter (λ c, c = x0a) s). lia.
Qed.

(** The loop returns the text it was given exactly when every comment
    it meets holds nothing but newlines. *)
Lemma copy_and_blank_unchanged code last hi spans :
  chain last hi spans →
  copy_and_blank code last spans = drop last code
  ↔ Forall (λ se, Forall (λ c, c = x0a) (slice code se.1 se.2)) spans.
Proof.
  revert last. induction spans as [|[s e] rest IH]; intros last;
    cbn [chain copy_and_blank]; [done|].
  intros (H1 & H2 & H3).
  rewrite (drop_slice code last s H1), (drop_slice code s e H2).
  rewrite Forall_cons. cbn [fst snd]. rewrite <- (IH e H3), all_newlines.
  split.
  - intros H%app_inv_head.
    pose proof (sublist_length _ _ (newlines_sublist (slice code s e))) as L1.
    pose proof (sublist_length _ _ (copy_and_blank_sublist code e hi rest H3))
      as L2.
    assert (length (repeat x0a (count_nl (slice code s e)))
            = length (slice code s e)) as L.
    { apply (f_equal length) in H. rewrite !length_app in H. lia. }
    by apply app_inj_1 in H.
  - by intros [-> ->].
Qed.

(** C7, as stated, fails for the tree-accurate stripper: a comment in a
    macro definition, once removed, lets the two slashes of the value
    start a comment of their own. *)
Lemma remove_comments_ast_not_idempotent :
  remove_comments_ast (TS := macro_parser) macro_src "C"
  = Ok macro_stripped_src
  ∧ remove_comments_ast (TS := macro_parser) macro_stripped_src "C"
    = Ok (b "#define X" ++ [x0a] ++ b " int y; " ++ [x0a])
  ∧ b "#define X" ++ [x0a] ++ b " int y; " ++ [x0a] ≠ macro_stripped_src
  ∧ well_formed macro_tree = true
  ∧ well_formed macro_stripped_tree = true.
Proof.
  split_and!; try (vm_compute; reflexivity). vm_compute. discriminate.
Qed.

(** C7, amended. The regular-expression stripper is idempotent on
    every text. The tree-accurate stripper is not: on a supported
    language, when the tree of the stripped text is well formed, a
    second application only deletes bytes of the result of the first,
    and it returns that result unchanged exactly when the parser finds
    in it no comment that holds anything but newlines. *)
Theorem comment_stripping_twice :
  (∀ s, remove_comments_regex (remove_comments_regex s)
        = remove_comments_regex s)
  ∧ (∀ (TS : TreeSitter) code lang l,
       get_language lang = Ok l →
       let once := remove_comments_tree code (ts_parse l code) in
       well_formed (ts_parse l once) = true →
       ∃ twice,
         remove_comments_ast code lang = Ok once
         ∧ remove_comments_ast once lang = Ok twice
         ∧ twice `sublist_of` once
         ∧ (twice = once ↔
            Forall (λ se, Forall (λ c, c = x0a) (slice once se.1 se.2))
                   (comment_spans (ts_parse l once)))).
Proof.
  split; [apply remove_comments_regex_idempotent|].
  intros TS code lang l Hl once Hwf.
  apply comment_spans_chain in Hwf.
  apply (chain_weaken _ 0 _ (end_byte (ts_parse l once))) in Hwf; [|lia..].
  eexists. split_and!.
  - unfold remove_comments_ast, parse_ast, get_parser. by rewrite Hl.
  - by apply remove_comments_ast_supported.
  - change once with (drop 0 once) at 3.
    by apply (copy_and_blank_sublist _ _ _ _ Hwf).
  - change once with (drop 0 once) at 4.
    by apply (copy_and_blank_unchanged _ _ _ _ Hwf).
Qed.

Lemma comment_stripping_twice_witness :
  get_language "C" = Ok tree_sitter_c
  ∧ well_formed
      (ts_parse (TreeSitter := macro_parser) tree_sitter_c
         (remove_comments_tree macro_src
            (ts_parse (TreeSitter := macro_parser) tree_sitter_c macro_src)))
    = true
  ∧ ∃ twice,
      remove_comments_ast (TS := macro_parser) macro_stripped_src "C"
      = Ok twice
      ∧ twice `sublist_of` macro_stripped_src.
Proof.
  split; [reflexivity|]. split; [vm_compute; reflexivity|].
  destruct (proj2 comment_stripping_twice macro_parser macro_src "C"
              tree_sitter_c eq_refl)
    as (twice & _ & H2 & H3 & _); [vm_compute; reflexivity|].
  exists twice. split; [exact H2|exact H3].
Defined.

End IdempotenceFacts.

Module TraversalFacts.

Import provider_tst codeparser Samples Notions TreeStripFacts.
Local Open Scope nat_scope.

(** The children of a traversal, as the traversals of the children. *)
Lemma traverse_children descend ret (n : NodeRef) :
  traverse n descend ret
  = (if ret n then [n] else [])
    ++ (if descend n
        then concat ((λ c, traverse c descend ret) <$> children_refs n)
        else []).
Proof.
  destruct n as [code nd anc]. unfold traverse, children_refs. cbn [src node up].
  destruct nd as [ty s e f cs]. cbn [traverse_node children].
  f_equal. destruct (descend _); [|done].
  enough (∀ (pn : Node) (cs0 : list Node) i,
    (fix visit (i : nat) (cs0 : list Node) {struct cs0} : list NodeRef :=
       match cs0 with
       | [] => []
       | c :: cs' =>
         traverse_node descend ret code ((i, pn) :: anc) c
         ++ visit (S i) cs'
       end) i cs0
    = concat ((λ c, traverse c descend ret)
                <$> imap (λ j c, mkRef code c ((i + j, pn) :: anc)) cs0)) as H
    by apply (H (mkNode ty s e f cs) cs 0).
  clear. intros pn cs. induction cs as [|c cs IH]; intros i; [done|].
  cbn [imap fmap list_fmap concat]. f_equal.
  - unfold traverse. cbn. by rewrite Nat.add_0_r.
  - rewrite IH. do 2 f_equal. apply imap_ext. intros j x _. cbn.
    do 3 f_equal. lia.
Qed.

Lemma node_count_children (n : Node) :
  node_count n = S (sum_list_with node_count (children n)).
Proof.
  by destruct n as [ty s e f cs].
Qed.

Lemma queue_size_children (n : NodeRef) :
  queue_size (children_refs n) = sum_list_with node_count (children (node n)).
Proof.
  unfold queue_size, children_refs.
  assert (∀ j c, node (child_ref n j c) = c) as Hg by done.
  revert Hg. generalize (child_ref n).
  induction (children (node n)) as [|c cs IH]; intros g Hg; [done|].
  cbn. rewrite Hg, IH; [done|]. intros j c'. apply Hg.
Qed.

Lemma queue_size_app q1 q2 :
  queue_size (q1 ++ q2) = queue_size q1 + queue_size q2.
Proof. unfold queue_size. by rewrite sum_list_with_app. Qed.

Lemma bfs_loop_permutation fuel descend queue :
  queue_size queue ≤ fuel →
  bfs_loop fuel descend queue
  ≡ₚ concat ((λ n, traverse n descend (λ _, true)) <$> queue).
Proof.
  revert queue. induction fuel as [|fuel IH]; intros queue Hq.
  { destruct queue as [|n q]; [done|].
    unfold queue_size in Hq. cbn in Hq.
    rewrite node_count_children in Hq. lia. }
  destruct queue as [|n q]; [done|].
  cbn [bfs_loop fmap list_fmap concat].
  rewrite (traverse_children descend _ n). cbn [app].
  constructor.
  set (kids := if descend n then children_refs n else []).
  assert (queue_size kids < node_count (node n)) as Hk.
  { subst kids. rewrite (node_count_children (node n)).
    destruct (descend n); [rewrite queue_size_children|cbn]; lia. }
  rewrite IH.
  - rewrite fmap_app, concat_app. subst kids.
    rewrite Permutation_app_comm.
    by destruct (descend n).
  - rewrite queue_size_app. unfold queue_size at 1 in Hq. cbn in Hq.
    fold (queue_size q) in Hq. lia.
Qed.

(** X27. [traverse_bfs] yields the nodes that [traverse] yields, each as
    often, in another order; and as many turns of its loop as the tree
    has nodes empty the queue. *)
Theorem traverse_bfs_permutation (n : NodeRef) (descend : NodeRef → bool) :
  traverse_bfs n descend ≡ₚ traverse n descend (λ _, true)
  ∧ ∀ fuel, node_count (node n) ≤ fuel →
            bfs_loop fuel descend [n] ≡ₚ traverse_bfs n descend.
Proof.
  assert (∀ fuel, node_count (node n) ≤ fuel →
            bfs_loop fuel descend [n] ≡ₚ traverse n descend (λ _, true))
    as H.
  { intros fuel Hf. rewrite bfs_loop_permutation.
    - cbn. by rewrite app_nil_r.
    - unfold queue_size. cbn. lia. }
  split; [by apply H|].
  intros fuel Hf. rewrite (H fuel Hf). symmetry. by apply H.
Qed.

(** ** Scopes in Java *)

Lemma scope_fold_raise (F : result (list str) → NodeRef → result (list str))
    e ps :
  (∀ p, F (Raise e) p = Raise e) → foldl F (Raise e) ps = Raise e.
Proof. intros HF. induction ps as [|p ps IH]; cbn; [done|]. by rewrite HF. Qed.

Lemma java_fold_shift (acc : list str) ps :
  foldl (λ acc p,
           res ← acc;
           if String.eqb (type (node p)) "class_declaration" then
             t ← field_text p "name"; Ok (res ++ [t])
           else Ok res) (Ok acc) ps
  = (r ← foldl (λ acc p,
                  res ← acc;
                  if String.eqb (type (node p)) "class_declaration" then
                    t ← field_text p "name"; Ok (res ++ [t])
                  else Ok res) (Ok []) ps;
     Ok (acc ++ r)).
Proof.
  set (F := λ (acc : result (list str)) (p : NodeRef), _).
  revert acc. induction ps as [|p ps IH]; intros acc.
  { cbn. by rewrite app_nil_r. }
  cbn [foldl]. unfold F at 2 4. cbn [mbind result_bind bind].
  destruct (String.eqb (type (node p)) "class_declaration").
  - destruct (field_text p "name") as [t|e]; cbn.
    + rewrite (IH (acc ++ [t])), (IH [t]).
      destruct (foldl F (Ok []) ps); cbn; [|done].
      by rewrite <- app_assoc.
    + by rewrite !scope_fold_raise.
  - by rewrite IH.
Qed.

(** X28. The Java scope of a node is the scope of its parent, followed
    by the name of the parent when the parent is a class declaration: the
    names of the enclosing classes, the outermost first. A node without
    a parent has the empty scope. *)
Theorem function_scope_java_of_parent (n p : NodeRef) (lang : string) :
  parent n = Some p →
  function_scope_java n lang
  = if String.eqb (type (node p)) "class_declaration"
    then t ← field_text p "name";
         r ← function_scope_java p lang;
         Ok (r ++ [t])
    else function_scope_java p lang.
Proof.
  unfold parent, function_scope_java, ancester.
  destruct n as [code nd anc]. cbn [up src].
  destruct anc as [|[i pn] rest]; [done|]. intros [= <-].
  cbn [ancestors foldl src up node]. cbn [mbind result_bind bind].
  set (pr := mkRef code pn rest). change pn with (node pr).
  destruct (String.eqb (type (node pr)) "class_declaration"); [|done].
  destruct (field_text pr "name") as [t|e]; cbn.
  - rewrite (java_fold_shift [t]).
    by destruct (foldl _ (Ok []) (ancestors code rest)).
  - by rewrite scope_fold_raise.
Qed.

Lemma function_scope_java_of_parent_witness :
  parent java_method = Some java_class_body
  ∧ function_scope_java java_method "Java" = Ok [u "A"].
Proof.
  assert (parent java_method = Some java_class_body) as Hp
    by (vm_compute; reflexivity).
  split; [exact Hp|].
  rewrite (function_scope_java_of_parent java_method java_class_body "Java" Hp).
  vm_compute. reflexivity.
Defined.

End TraversalFacts.
